(** * StockfishManager: the engine-communication manager

    A shallow embedding of [stockfish-manager.js] (class [StockfishManager],
    an [EventEmitter] that drives a UCI engine over its standard streams),
    and the properties of its specification proved against it.

    Conventions of the embedding.
    - JavaScript strings are [string]; numbers are [Z] (the integers the code
      handles are exact as long as they stay below 2^53).
    - [this] and the runtime it talks to (the child processes' standard
      inputs, the console, the timers, the promises handed to callers, the
      heap of evaluation objects, the notifications fired) are one record,
      threaded through every method.
    - Evaluation objects live in a heap and are referred to by address: the
      manager stores, mutates and emits the same object. *)

From stdpp Require Import base list sets strings pretty.
From Stdlib Require Import Ascii ZArith Lia.

Local Open Scope string_scope.
Local Open Scope Z_scope.
Local Open Scope list_scope.

(** ** JavaScript string primitives *)

Module Js.

(** [s.startsWith(p)] *)
Fixpoint startsWith (s p : string) : bool :=
  match p, s with
  | EmptyString, _ => true
  | String _ _, EmptyString => false
  | String a p', String b s' => if decide (a = b) then startsWith s' p' else false
  end.

(** [s.includes(p)] *)
Fixpoint includes (s p : string) : bool :=
  startsWith s p ||
  match s with
  | EmptyString => false
  | String _ s' => includes s' p
  end.

(** [s.slice(n)] for [0 <= n] *)
Fixpoint slice (n : nat) (s : string) : string :=
  match n, s with
  | O, _ => s
  | S n', String _ s' => slice n' s'
  | S _, EmptyString => EmptyString
  end.

(** [s.split(sep)] for a one-character separator: the pieces between the
    separators, empty pieces kept; never the empty array. *)
Fixpoint split (sep : ascii) (s : string) : list string :=
  match s with
  | EmptyString => [EmptyString]
  | String c s' =>
      if decide (c = sep) then EmptyString :: split sep s'
      else match split sep s' with
           | piece :: pieces => String c piece :: pieces
           | [] => [String c EmptyString]
           end
  end.

(** White space and line terminators of ECMAScript among the first 256 code
    units: TAB, LF, VT, FF, CR, SP and NBSP. *)
Definition isWhiteSpace (c : ascii) : bool :=
  let n := nat_of_ascii c in
  bool_decide (n = 9 ∨ n = 10 ∨ n = 11 ∨ n = 12 ∨ n = 13 ∨ n = 32 ∨ n = 160)%nat.

Fixpoint trimStart (s : string) : string :=
  match s with
  | EmptyString => EmptyString
  | String c s' => if isWhiteSpace c then trimStart s' else s
  end.

Fixpoint trimEnd (s : string) : string :=
  match s with
  | EmptyString => EmptyString
  | String c s' =>
      match trimEnd s' with
      | EmptyString => if isWhiteSpace c then EmptyString else String c EmptyString
      | t => String c t
      end
  end.

(** [s.trim()] *)
Definition trim (s : string) : string := trimEnd (trimStart s).

Definition isDigit (c : ascii) : bool :=
  let n := nat_of_ascii c in bool_decide (48 ≤ n ∧ n ≤ 57)%nat.

(** The longest run of decimal digits at the head of [s]: what a greedy
    [\d+] consumes. *)
Fixpoint digits (s : string) : string :=
  match s with
  | EmptyString => EmptyString
  | String c s' => if isDigit c then String c (digits s') else EmptyString
  end.

(** [-?\d+] anchored at the head of [s] ([signed]) or [\d+] (unsigned); the
    text matched. With a leading minus that no digit follows, backtracking to
    the empty sign leaves [\d+] in front of the minus, which fails too. *)
Definition matchNumber (signed : bool) (s : string) : option string :=
  match s with
  | String "-" s' =>
      if signed then
        match digits s' with
        | EmptyString => None
        | ds => Some (String "-" ds)
        end
      else None
  | _ =>
      match digits s with
      | EmptyString => None
      | ds => Some ds
      end
  end.

(** [s.match(/kw (-?\d+)/)] and [s.match(/kw (\d+)/)], where [kw] already
    ends with the blank: the first capture group of the leftmost match. *)
Fixpoint matchAfter (kw : string) (signed : bool) (s : string) : option string :=
  match (if startsWith s kw then matchNumber signed (slice (String.length kw) s) else None) with
  | Some m => Some m
  | None =>
      match s with
      | EmptyString => None
      | String _ s' => matchAfter kw signed s'
      end
  end.

Definition digitValue (c : ascii) : Z := Z.of_nat (nat_of_ascii c) - 48.

Fixpoint parseDigits (acc : Z) (s : string) : Z :=
  match s with
  | EmptyString => acc
  | String c s' => if isDigit c then parseDigits (10 * acc + digitValue c) s' else acc
  end.

(** [parseInt(s)] on a capture of [-?\d+]. The source's [parseInt] returns a
    double: it is the integer written when that integer is below 2^53 in
    magnitude, and the nearest double beyond. The model is the integer
    written, so a theorem that states the number read bounds it
    ([safeInteger]). *)
Definition parseInt (s : string) : Z :=
  match s with
  | String "-" s' => - parseDigits 0 s'
  | _ => parseDigits 0 s
  end.

End Js.

(** ** Data model *)

Definition newline : string := String "010"%char EmptyString.

(** Address of an evaluation object in the heap. *)
Abbreviation ref := nat (only parsing).

Inductive EvalType := centipawn | mate.

(** A property of a JavaScript object that holds a number once it is set:
    absent, [null], or the number. *)
Inductive Field := undefined | null | num (n : Z).

(** The object [{ type, value }] built by [handleInfoLine], to which [depth],
    [nodes] and [time] are added later. *)
Record Evaluation := {
  ev_type : EvalType;
  ev_value : Z;
  ev_depth : Field;
  ev_nodes : Field;
  ev_time : Field
}.

(** The two [Error]s the promises are rejected with. *)
Inductive Failure := EngineNotReady | MoveTimeout.

Definition message (f : Failure) : string :=
  match f with
  | EngineNotReady => "Stockfish not ready"
  | MoveTimeout => "Move calculation timeout"
  end.

(** What a promise is resolved with: [{ move, evaluation }] for [getBestMove]
    ([move] is [parts[1]], possibly [undefined]), [finalEvaluation] for
    [evaluatePosition]; evaluations by address. *)
Inductive Result :=
| MoveData (move : option string) (evaluation : option ref)
| FinalEvaluation (evaluation : option ref).

Inductive Outcome := Pending | Resolved (v : Result) | Rejected (f : Failure).

(** One call of [getBestMove] or [evaluatePosition]: the promise it returned
    and the closure variable [finalEvaluation] (used by the latter only). *)
Record Request := {
  outcome : Outcome;
  finalEvaluation : option ref
}.

(** The closures the manager registers on itself, named as in the source;
    [req] is the call they belong to. *)
Inductive Listener :=
| moveHandler (req : nat)
| evaluationHandler (req : nat) (depth : Z)
| evalMoveHandler (req : nat) (depth : Z).

Global Instance Listener_eq_dec : EqDecision Listener.
Proof. solve_decision. Defined.

Inductive TimerStatus := Armed | Fired | Cleared.

(** A [setTimeout] of [getBestMove]: its delay and the call whose promise its
    callback rejects. The handle is its index in [timers]. *)
Record Timer := {
  delay : Z;
  request : nat;
  status : TimerStatus
}.

Inductive ConsoleEntry :=
| console_log (label : string) (arg : string)
| console_log_code (label : string) (code : option Z)
| console_error (label : string) (arg : option string).

(** What [emit] fires. An evaluation is emitted by address; [seen] is the
    content of the object at that instant. *)
Inductive Notification :=
| ev_ready
| ev_bestmove (move : option string) (evaluation : option ref)
| ev_evaluation (object : ref) (seen : Evaluation)
| ev_error (msg : string).

Record Manager := {
  (* this *)
  stockfishProcess : option nat;
  isReady : bool;
  pendingCommands : list string;
  currentEvaluation : option ref;
  moveTimeout : option nat;
  onBestmove : list Listener;
  onEvaluation : list Listener;
  (* the runtime *)
  spawned : nat;
  stdin : list (nat * string);
  console : list ConsoleEntry;
  heap : list Evaluation;
  timers : list Timer;
  requests : list Request;
  emitted : list Notification
}.

Definition set_stockfishProcess (x : option nat) (m : Manager) : Manager :=
  {| stockfishProcess := x; isReady := isReady m; pendingCommands := pendingCommands m;
     currentEvaluation := currentEvaluation m; moveTimeout := moveTimeout m; onBestmove
     := onBestmove m; onEvaluation := onEvaluation m; spawned := spawned m; stdin :=
     stdin m; console := console m; heap := heap m; timers := timers m; requests :=
     requests m; emitted := emitted m |}.

Definition set_isReady (x : bool) (m : Manager) : Manager :=
  {| stockfishProcess := stockfishProcess m; isReady := x; pendingCommands :=
     pendingCommands m; currentEvaluation := currentEvaluation m; moveTimeout :=
     moveTimeout m; onBestmove := onBestmove m; onEvaluation := onEvaluation m; spawned
     := spawned m; stdin := stdin m; console := console m; heap := heap m; timers :=
     timers m; requests := requests m; emitted := emitted m |}.

Definition set_pendingCommands (x : list string) (m : Manager) : Manager :=
  {| stockfishProcess := stockfishProcess m; isReady := isReady m; pendingCommands := x;
     currentEvaluation := currentEvaluation m; moveTimeout := moveTimeout m; onBestmove
     := onBestmove m; onEvaluation := onEvaluation m; spawned := spawned m; stdin :=
     stdin m; console := console m; heap := heap m; timers := timers m; requests :=
     requests m; emitted := emitted m |}.

Definition set_currentEvaluation (x : option ref) (m : Manager) : Manager :=
  {| stockfishProcess := stockfishProcess m; isReady := isReady m; pendingCommands :=
     pendingCommands m; currentEvaluation := x; moveTimeout := moveTimeout m; onBestmove
     := onBestmove m; onEvaluation := onEvaluation m; spawned := spawned m; stdin :=
     stdin m; console := console m; heap := heap m; timers := timers m; requests :=
     requests m; emitted := emitted m |}.

Definition set_moveTimeout (x : option nat) (m : Manager) : Manager :=
  {| stockfishProcess := stockfishProcess m; isReady := isReady m; pendingCommands :=
     pendingCommands m; currentEvaluation := currentEvaluation m; moveTimeout := x;
     onBestmove := onBestmove m; onEvaluation := onEvaluation m; spawned := spawned m;
     stdin := stdin m; console := console m; heap := heap m; timers := timers m; requests
     := requests m; emitted := emitted m |}.

Definition set_onBestmove (x : list Listener) (m : Manager) : Manager :=
  {| stockfishProcess := stockfishProcess m; isReady := isReady m; pendingCommands :=
     pendingCommands m; currentEvaluation := currentEvaluation m; moveTimeout :=
     moveTimeout m; onBestmove := x; onEvaluation := onEvaluation m; spawned := spawned
     m; stdin := stdin m; console := console m; heap := heap m; timers := timers m;
     requests := requests m; emitted := emitted m |}.

Definition set_onEvaluation (x : list Listener) (m : Manager) : Manager :=
  {| stockfishProcess := stockfishProcess m; isReady := isReady m; pendingCommands :=
     pendingCommands m; currentEvaluation := currentEvaluation m; moveTimeout :=
     moveTimeout m; onBestmove := onBestmove m; onEvaluation := x; spawned := spawned m;
     stdin := stdin m; console := console m; heap := heap m; timers := timers m; requests
     := requests m; emitted := emitted m |}.

Definition set_spawned (x : nat) (m : Manager) : Manager :=
  {| stockfishProcess := stockfishProcess m; isReady := isReady m; pendingCommands :=
     pendingCommands m; currentEvaluation := currentEvaluation m; moveTimeout :=
     moveTimeout m; onBestmove := onBestmove m; onEvaluation := onEvaluation m; spawned
     := x; stdin := stdin m; console := console m; heap := heap m; timers := timers m;
     requests := requests m; emitted := emitted m |}.

Definition set_stdin (x : list (nat * string)) (m : Manager) : Manager :=
  {| stockfishProcess := stockfishProcess m; isReady := isReady m; pendingCommands :=
     pendingCommands m; currentEvaluation := currentEvaluation m; moveTimeout :=
     moveTimeout m; onBestmove := onBestmove m; onEvaluation := onEvaluation m; spawned
     := spawned m; stdin := x; console := console m; heap := heap m; timers := timers m;
     requests := requests m; emitted := emitted m |}.

Definition set_console (x : list ConsoleEntry) (m : Manager) : Manager :=
  {| stockfishProcess := stockfishProcess m; isReady := isReady m; pendingCommands :=
     pendingCommands m; currentEvaluation := currentEvaluation m; moveTimeout :=
     moveTimeout m; onBestmove := onBestmove m; onEvaluation := onEvaluation m; spawned
     := spawned m; stdin := stdin m; console := x; heap := heap m; timers := timers m;
     requests := requests m; emitted := emitted m |}.

Definition set_heap (x : list Evaluation) (m : Manager) : Manager :=
  {| stockfishProcess := stockfishProcess m; isReady := isReady m; pendingCommands :=
     pendingCommands m; currentEvaluation := currentEvaluation m; moveTimeout :=
     moveTimeout m; onBestmove := onBestmove m; onEvaluation := onEvaluation m; spawned
     := spawned m; stdin := stdin m; console := console m; heap := x; timers := timers m;
     requests := requests m; emitted := emitted m |}.

Definition set_timers (x : list Timer) (m : Manager) : Manager :=
  {| stockfishProcess := stockfishProcess m; isReady := isReady m; pendingCommands :=
     pendingCommands m; currentEvaluation := currentEvaluation m; moveTimeout :=
     moveTimeout m; onBestmove := onBestmove m; onEvaluation := onEvaluation m; spawned
     := spawned m; stdin := stdin m; console := console m; heap := heap m; timers := x;
     requests := requests m; emitted := emitted m |}.

Definition set_requests (x : list Request) (m : Manager) : Manager :=
  {| stockfishProcess := stockfishProcess m; isReady := isReady m; pendingCommands :=
     pendingCommands m; currentEvaluation := currentEvaluation m; moveTimeout :=
     moveTimeout m; onBestmove := onBestmove m; onEvaluation := onEvaluation m; spawned
     := spawned m; stdin := stdin m; console := console m; heap := heap m; timers :=
     timers m; requests := x; emitted := emitted m |}.

Definition set_emitted (x : list Notification) (m : Manager) : Manager :=
  {| stockfishProcess := stockfishProcess m; isReady := isReady m; pendingCommands :=
     pendingCommands m; currentEvaluation := currentEvaluation m; moveTimeout :=
     moveTimeout m; onBestmove := onBestmove m; onEvaluation := onEvaluation m; spawned
     := spawned m; stdin := stdin m; console := console m; heap := heap m; timers :=
     timers m; requests := requests m; emitted := x |}.

(** [constructor()] *)
Definition constructor : Manager :=
  {| stockfishProcess := None; isReady := false; pendingCommands := [];
     currentEvaluation := None; moveTimeout := None; onBestmove := [];
     onEvaluation := []; spawned := 0; stdin := []; console := []; heap := [];
     timers := []; requests := []; emitted := [] |}.

(** ** The runtime: console, child process, promises, timers, emitter *)

Definition log (entry : ConsoleEntry) (m : Manager) : Manager :=
  set_console (console m ++ [entry]) m.

(** [process.stdin.write(data)] on the child process [p]. *)
Definition stdin_write (p : nat) (data : string) (m : Manager) : Manager :=
  set_stdin (stdin m ++ [(p, data)]) m.

(** [resolve] and [reject] of the promise of call [req]: a promise settles
    once, later calls are ignored. *)
Definition settle (req : nat) (o : Outcome) (m : Manager) : Manager :=
  match requests m !! req with
  | Some r =>
      match outcome r with
      | Pending =>
          set_requests
            (<[req := {| outcome := o; finalEvaluation := finalEvaluation r |}]> (requests m)) m
      | _ => m
      end
  | None => m
  end.

Definition resolve (req : nat) (v : Result) : Manager → Manager := settle req (Resolved v).
Definition reject (req : nat) (f : Failure) : Manager → Manager := settle req (Rejected f).

(** [new Promise(...)]: the next call gets the next index. *)
Definition newPromise (m : Manager) : nat * Manager :=
  (length (requests m),
   set_requests (requests m ++ [{| outcome := Pending; finalEvaluation := None |}]) m).

(** [setTimeout(callback, ms)], the callback being the one of [getBestMove]
    for call [req]; returns the handle. [delay] records the delay asked for;
    Node arms the timer at that delay when it lies within 1 .. 2^31 - 1, and
    at 1 ms otherwise ([timerDelay]). *)
Definition setTimeout (req : nat) (ms : Z) (m : Manager) : nat * Manager :=
  (length (timers m),
   set_timers (timers m ++ [{| delay := ms; request := req; status := Armed |}]) m).

(** [clearTimeout(h)]: disarms a timer that has not fired yet. *)
Definition clearTimeout (h : nat) (m : Manager) : Manager :=
  match timers m !! h with
  | Some t =>
      match status t with
      | Armed =>
          set_timers
            (<[h := {| delay := delay t; request := request t; status := Cleared |}]> (timers m)) m
      | _ => m
      end
  | None => m
  end.

(** [removeListener(event, l)] on the array of listeners of one event: the
    most recently added instance of [l] goes. *)
Fixpoint removeListener (l : Listener) (ls : list Listener) : list Listener :=
  match ls with
  | [] => []
  | x :: ls' =>
      if decide (x = l) then
        if bool_decide (l ∈ ls') then x :: removeListener l ls' else ls'
      else x :: removeListener l ls'
  end.

(** [emit('ready')] and [emit('error', msg)]: the manager registers no
    listener of its own on these (the host listens to both, so that
    [emit('error')] does not throw). *)
Definition emit_ready (m : Manager) : Manager :=
  set_emitted (emitted m ++ [ev_ready]) m.

Definition emit_error (msg : string) (m : Manager) : Manager :=
  set_emitted (emitted m ++ [ev_error msg]) m.

(** The comparison [evaluation.depth >= depth]: [null] converts to 0, and
    [undefined] to NaN, which compares false. *)
Definition js_ge (f : Field) (d : Z) : bool :=
  match f with
  | undefined => false
  | null => 0 >=? d
  | num n => n >=? d
  end.

(** A listener of 'evaluation' called with the object at [r]. Only
    [evaluationHandler] is ever registered there:
    [if (evaluation.depth >= depth) finalEvaluation = evaluation]. *)
Definition call_evaluation_listener (r : ref) (o : Evaluation) (l : Listener)
    (m : Manager) : Manager :=
  match l with
  | evaluationHandler req d =>
      if js_ge (ev_depth o) d then
        match requests m !! req with
        | Some q =>
            set_requests
              (<[req := {| outcome := outcome q; finalEvaluation := Some r |}]> (requests m)) m
        | None => m
        end
      else m
  | _ => m
  end.

(** [emit('evaluation', this.currentEvaluation)]: the listeners registered at
    that instant are called in order of registration. An address outside the
    heap stands for no object: nothing is emitted then. *)
Definition emit_evaluation (r : ref) (m : Manager) : Manager :=
  match heap m !! r with
  | Some o =>
      foldl (λ acc l, call_evaluation_listener r o l acc)
            (set_emitted (emitted m ++ [ev_evaluation r o]) m)
            (onEvaluation m)
  | None => m
  end.

(** A listener of 'bestmove' called with [{ move, evaluation }]; both
    handlers were registered with [once], whose wrapper removes itself before
    it calls them. *)
Definition call_bestmove_listener (move : option string) (evaluation : option ref)
    (l : Listener) (m : Manager) : Manager :=
  let m := set_onBestmove (removeListener l (onBestmove m)) m in
  match l with
  | moveHandler req =>
      let m := set_onBestmove (removeListener l (onBestmove m)) m in
      resolve req (MoveData move evaluation) m
  | evalMoveHandler req d =>
      let m := set_onEvaluation (removeListener (evaluationHandler req d) (onEvaluation m)) m in
      let m := set_onBestmove (removeListener l (onBestmove m)) m in
      resolve req (FinalEvaluation (r ← requests m !! req; finalEvaluation r)) m
  | evaluationHandler _ _ => m
  end.

Definition emit_bestmove (move : option string) (evaluation : option ref)
    (m : Manager) : Manager :=
  foldl (λ acc l, call_bestmove_listener move evaluation l acc)
        (set_emitted (emitted m ++ [ev_bestmove move evaluation]) m)
        (onBestmove m).

(** ** The methods of [StockfishManager] *)

Definition sendCommand (command : string) (m : Manager) : Manager :=
  match stockfishProcess m with
  | None => log (console_error "Stockfish process not started" None) m
  | Some p =>
      if negb (isReady m) && negb (bool_decide (command = "uci"))
         && negb (bool_decide (command = "isready"))
      then set_pendingCommands (pendingCommands m ++ [command]) m
      else
        stdin_write p (command +:+ newline)
          (log (console_log "Sending to Stockfish:" command) m)
  end.

(** The [while (this.pendingCommands.length > 0)] loop, [fuel] bounding the
    number of iterations. *)
Fixpoint processPendingCommands_loop (fuel : nat) (m : Manager) : Manager :=
  match fuel with
  | O => m
  | S fuel' =>
      match pendingCommands m with
      | [] => m
      | command :: rest =>
          processPendingCommands_loop fuel' (sendCommand command (set_pendingCommands rest m))
      end
  end.

(** One iteration per command queued at entry. The loop is left by its own
    test when the queue is empty at that point
    ([processPendingCommands_drains]); where it is not, [sendCommand] has put
    every command back and the source does not terminate. *)
Definition processPendingCommands (m : Manager) : Manager :=
  processPendingCommands_loop (length (pendingCommands m)) m.

Definition handleBestMove (line : string) (m : Manager) : Manager :=
  let parts := Js.split " " line in
  let bestMove := parts !! 1%nat in
  let m :=
    match moveTimeout m with
    | Some h => set_moveTimeout None (clearTimeout h m)
    | None => m
    end in
  emit_bestmove bestMove (currentEvaluation m) m.

(** [this.currentEvaluation = { type, value }]: a fresh object. *)
Definition newEvaluation (ty : EvalType) (v : Z) (m : Manager) : Manager :=
  set_currentEvaluation (Some (length (heap m)))
    (set_heap (heap m ++ [{| ev_type := ty; ev_value := v; ev_depth := undefined;
                             ev_nodes := undefined; ev_time := undefined |}]) m).

(** [match ? parseInt(match[1]) : null] *)
Definition fieldOf (match_ : option string) : Field :=
  match match_ with
  | Some text => num (Js.parseInt text)
  | None => null
  end.

Definition handleInfoLine (line : string) (m : Manager) : Manager :=
  let m :=
    if Js.includes line "cp " then
      match Js.matchAfter "cp " true line with
      | Some cp => newEvaluation centipawn (Js.parseInt cp) m
      | None => m
      end
    else if Js.includes line "mate " then
      match Js.matchAfter "mate " true line with
      | Some mt => newEvaluation mate (Js.parseInt mt) m
      | None => m
      end
    else m in
  let depthMatch := Js.matchAfter "depth " false line in
  let nodesMatch := Js.matchAfter "nodes " false line in
  let timeMatch := Js.matchAfter "time " false line in
  match currentEvaluation m with
  | Some r =>
      if bool_decide (is_Some depthMatch) || bool_decide (is_Some nodesMatch) then
        let m :=
          set_heap
            (alter (λ o, {| ev_type := ev_type o; ev_value := ev_value o;
                            ev_depth := fieldOf depthMatch;
                            ev_nodes := fieldOf nodesMatch;
                            ev_time := fieldOf timeMatch |}) r (heap m)) m in
        emit_evaluation r m
      else m
  | None => m
  end.

(** The body of the [for (const line of lines)] loop of
    [handleStockfishOutput]. *)
Definition handleLine (line : string) (m : Manager) : Manager :=
  let m := log (console_log "Stockfish:" line) m in
  if bool_decide (line = "uciok") then sendCommand "isready" m
  else if bool_decide (line = "readyok") then
    if isReady m then m
    else processPendingCommands (emit_ready (set_isReady true m))
  else if Js.startsWith line "bestmove" then handleBestMove line m
  else if Js.startsWith line "info" then handleInfoLine line m
  else m.

Definition handleStockfishOutput (output : string) (m : Manager) : Manager :=
  foldl (λ acc line, handleLine line acc) m (Js.split "010" (Js.trim output)).

(** [getBestMove(fen, timeLimit = 1000)]; the promise it returns is the one
    of call [length (requests m)]. The limit is an integer; [pretty] is what
    the template literal prints, and [timeLimit + 1000] what the addition of
    doubles gives, for integers below 2^53 in magnitude ([safeInteger]). *)
Definition getBestMove (fen : string) (timeLimit : option Z) (m : Manager) : Manager :=
  let timeLimit := default 1000 timeLimit in
  let '(req, m) := newPromise m in
  if negb (isReady m) then reject req EngineNotReady m
  else
    let '(h, m) := setTimeout req (timeLimit + 1000) m in
    let m := set_moveTimeout (Some h) m in
    let m := set_onBestmove (onBestmove m ++ [moveHandler req]) m in
    let m := sendCommand ("position fen " +:+ fen) m in
    sendCommand ("go movetime " +:+ pretty timeLimit) m.

(** The callback handed to [setTimeout] by [getBestMove], run when timer [h]
    fires; a timer fires once, and not after it was cleared. *)
Definition fireTimer (h : nat) (m : Manager) : Manager :=
  match timers m !! h with
  | Some t =>
      match status t with
      | Armed =>
          let m :=
            set_timers
              (<[h := {| delay := delay t; request := request t; status := Fired |}]> (timers m)) m in
          let m := sendCommand "stop" m in
          reject (request t) MoveTimeout m
      | _ => m
      end
  | None => m
  end.

(** [evaluatePosition(fen, depth = 15)]. The depth is an integer; [pretty] is
    what the template literal prints for integers below 2^53 in magnitude
    ([safeInteger]). *)
Definition evaluatePosition (fen : string) (depth : option Z) (m : Manager) : Manager :=
  let depth := default 15 depth in
  let '(req, m) := newPromise m in
  if negb (isReady m) then reject req EngineNotReady m
  else
    let m := set_onEvaluation (onEvaluation m ++ [evaluationHandler req depth]) m in
    let m := set_onBestmove (onBestmove m ++ [evalMoveHandler req depth]) m in
    let m := sendCommand ("position fen " +:+ fen) m in
    sendCommand ("go depth " +:+ pretty depth) m.

Definition setSkillLevel (level : Z) (m : Manager) : Manager :=
  let clampedLevel := Z.max 0 (Z.min 20 level) in
  let m := sendCommand ("setoption name Skill Level value " +:+ pretty clampedLevel) m in
  if clampedLevel <? 20 then sendCommand "setoption name MultiPV value 1" m
  else m.

Definition stop (m : Manager) : Manager :=
  match stockfishProcess m with
  | Some _ => sendCommand "stop" m
  | None => m
  end.

Definition quit (m : Manager) : Manager :=
  match stockfishProcess m with
  | Some _ =>
      let m := sendCommand "quit" m in
      let m := set_stockfishProcess None m in
      set_isReady false m
  | None => m
  end.

(** The listener of the child process's 'close'. *)
Definition onClose (code : option Z) (m : Manager) : Manager :=
  let m := log (console_log_code "Stockfish process closed with code:" code) m in
  set_isReady false m.

(** The listener of the child process's 'error'. *)
Definition onError (msg : string) (m : Manager) : Manager :=
  let m := log (console_error "Stockfish process error:" (Some msg)) m in
  emit_error msg m.

(** The listener of 'data' on the child's standard error. *)
Definition onStderr (data : string) (m : Manager) : Manager :=
  log (console_error "Stockfish stderr:" (Some data)) m.

(** [initialize()]. The path computed by [getStockfishPath] and the answer of
    [fs.existsSync] on it are inputs; [spawn] numbers the child processes. *)
Definition initialize (stockfishPath : string) (existsSync : bool) (m : Manager) : Manager :=
  if negb existsSync then
    emit_error ("Stockfish binary not found at: " +:+ stockfishPath) m
  else
    let m := log (console_log "Starting Stockfish:" stockfishPath) m in
    let m := set_stockfishProcess (Some (spawned m)) (set_spawned (S (spawned m)) m) in
    sendCommand "uci" m.

(** ** Runs of the manager

    Everything that happens to a manager: a call of one of its methods by the
    host, or a callback run by the event loop. The callbacks never overlap. *)
Inductive Action :=
| a_initialize (stockfishPath : string) (existsSync : bool)
| a_stdout (data : string)
| a_stderr (data : string)
| a_close (code : option Z)
| a_error (msg : string)
| a_timer (h : nat)
| a_sendCommand (command : string)
| a_getBestMove (fen : string) (timeLimit : option Z)
| a_evaluatePosition (fen : string) (depth : option Z)
| a_setSkillLevel (level : Z)
| a_stop
| a_quit.

Definition step (a : Action) (m : Manager) : Manager :=
  match a with
  | a_initialize p e => initialize p e m
  | a_stdout data => handleStockfishOutput data m
  | a_stderr data => onStderr data m
  | a_close code => onClose code m
  | a_error msg => onError msg m
  | a_timer h => fireTimer h m
  | a_sendCommand c => sendCommand c m
  | a_getBestMove fen t => getBestMove fen t m
  | a_evaluatePosition fen d => evaluatePosition fen d m
  | a_setSkillLevel l => setSkillLevel l m
  | a_stop => stop m
  | a_quit => quit m
  end.

Definition run (acts : list Action) (m : Manager) : Manager :=
  foldl (λ acc a, step a acc) m acts.

(** The lines of a chunk, as [handleStockfishOutput] cuts it. *)
Definition linesOf (output : string) : list string := Js.split "010" (Js.trim output).

(** ** Readings of the specification *)

Definition handshake (command : string) : Prop := command = "uci" ∨ command = "isready".

Global Instance handshake_dec command : Decision (handshake command).
Proof. unfold handshake. apply _. Defined.

(** What one line puts on the child's standard input. *)
Definition written (p : nat) (command : string) : nat * string := (p, command +:+ newline).

(** The commands a method call hands to [sendCommand] that are not handshake
    commands, in order; for the calls that hand over the same commands in
    every state. *)
Definition queued (command : string) : list string :=
  if decide (handshake command) then [] else [command].

Definition queuedBy (a : Action) : list string :=
  match a with
  | a_sendCommand c => queued c
  | a_stop => ["stop"]
  | a_setSkillLevel level =>
      let clampedLevel := Z.max 0 (Z.min 20 level) in
      ("setoption name Skill Level value " +:+ pretty clampedLevel)
        :: (if clampedLevel <? 20 then ["setoption name MultiPV value 1"] else [])
  | _ => []
  end.

(** What can happen between the spawn of the engine and its first
    "readyok", in the life of one child process: any call of a method but
    [initialize] and [quit], and any output but a "readyok" line. The firing
    of a timer is left out: before the first "readyok" no [getBestMove] has
    armed one. *)
Definition beforeReady (a : Action) : Prop :=
  match a with
  | a_stdout data => "readyok" ∉ linesOf data
  | a_initialize _ _ | a_close _ | a_quit | a_timer _ => False
  | _ => True
  end.

(** The writes of handshake commands to process [p]. *)
Definition handshakeWrite (p : nat) (w : nat * string) : Prop :=
  ∃ command, handshake command ∧ w = written p command.

(** [m'] continues [m] while the engine is not ready: the process and the
    flag are the same, the commands [cs] joined the queue, and only handshake
    commands were written. *)
Definition waiting (p : nat) (m m' : Manager) (cs : list string) : Prop :=
  stockfishProcess m' = Some p ∧
  isReady m' = false ∧
  pendingCommands m' = pendingCommands m ++ cs ∧
  ∃ ws, stdin m' = stdin m ++ ws ∧ Forall (handshakeWrite p) ws.

Global Instance beforeReady_dec a : Decision (beforeReady a).
Proof. destruct a; simpl; apply _. Defined.

(** The life of one child process ends when it exits or when [quit] drops
    it. *)
Definition sameLifetime (a : Action) : Prop :=
  match a with
  | a_close _ | a_quit => False
  | _ => True
  end.

Global Instance sameLifetime_dec a : Decision (sameLifetime a).
Proof. destruct a; simpl; apply _. Defined.



(** The score [handleInfoLine] reads in a line: "cp " is looked for first,
    and "mate " only in a line without "cp ". *)
Definition scoreOf (line : string) : option (EvalType * Z) :=
  if Js.includes line "cp " then
    (λ cp, (centipawn, Js.parseInt cp)) <$> Js.matchAfter "cp " true line
  else if Js.includes line "mate " then
    (λ mt, (mate, Js.parseInt mt)) <$> Js.matchAfter "mate " true line
  else None.

(** The object at [r] with [depth], [nodes] and [time] taken from [line]. *)
Definition withFields (line : string) (o : Evaluation) : Evaluation :=
  {| ev_type := ev_type o; ev_value := ev_value o;
     ev_depth := fieldOf (Js.matchAfter "depth " false line);
     ev_nodes := fieldOf (Js.matchAfter "nodes " false line);
     ev_time := fieldOf (Js.matchAfter "time " false line) |}.

(** The test [depthMatch || nodesMatch]. *)
Definition hasDepthOrNodes (line : string) : bool :=
  bool_decide (is_Some (Js.matchAfter "depth " false line))
  || bool_decide (is_Some (Js.matchAfter "nodes " false line)).




(** An action that brings no score: every info line of an output chunk is
    one in which [handleInfoLine] reads none. *)
Definition scoreless (a : Action) : Prop :=
  match a with
  | a_stdout data =>
      Forall (λ line, Js.startsWith line "info" = true → scoreOf line = None) (linesOf data)
  | _ => True
  end.

Global Instance scoreless_dec a : Decision (scoreless a).
Proof. destruct a; simpl; apply _. Defined.

(** The call a listener belongs to. *)
Definition listenerReq (l : Listener) : nat :=
  match l with
  | moveHandler req | evaluationHandler req _ | evalMoveHandler req _ => req
  end.

(** Every timer and every listener belongs to a call that was made: closures
    exist only for promises that exist. True of every state a manager can be
    in ([wellFormed_run]). *)
Definition wellFormed (m : Manager) : Prop :=
  Forall (λ t, (request t < length (requests m))%nat) (timers m) ∧
  Forall (λ l, (listenerReq l < length (requests m))%nat) (onBestmove m ++ onEvaluation m).

(** What may happen while the request of timer [h] waits for its best move:
    anything but a best-move line and the firing of [h] itself. *)
Definition quiet (h : nat) (a : Action) : Prop :=
  match a with
  | a_stdout data => Forall (λ line, Js.startsWith line "bestmove" = false) (linesOf data)
  | a_timer h' => h' ≠ h
  | _ => True
  end.

Global Instance quiet_dec h a : Decision (quiet h a).
Proof. destruct a; simpl; apply _. Defined.

(** The request [req] of [getBestMove] is waiting: timer [h] is armed for
    [req] with delay [ms], the promise is pending, and no other timer belongs
    to [req]. *)
Definition awaiting (h req : nat) (ms : Z) (m : Manager) : Prop :=
  timers m !! h = Some {| delay := ms; request := req; status := Armed |} ∧
  outcome <$> requests m !! req = Some Pending ∧
  (∀ h' t', h' ≠ h → timers m !! h' = Some t' → request t' ≠ req).

(** The specification's reading of [evaluatePosition], to be compared with
    what the two handlers of the source do.

    An update qualifies for target depth [d] when its reported depth is a
    number and at least [d]. *)
Definition qualifies (d : Z) (o : Evaluation) : bool :=
  match ev_depth o with
  | num n => bool_decide (d ≤ n)
  | _ => false
  end.

(** The request is either still tracking updates, having retained one or
    none, or completed with a result. *)
Inductive Correlation :=
| Tracking (retained : option ref)
| Completed (result : option ref).

(** One notification: a qualifying update replaces what was retained, the
    first move result completes the request with what is retained. *)
Definition next (d : Z) (c : Correlation) (n : Notification) : Correlation :=
  match c, n with
  | Tracking retained, ev_evaluation r o => Tracking (if qualifies d o then Some r else retained)
  | Tracking retained, ev_bestmove _ _ => Completed retained
  | _, _ => c
  end.

Definition follow (d : Z) (c : Correlation) (ns : list Notification) : Correlation :=
  foldl (next d) c ns.

(** The updates fired before the first move result, each with the object it
    carried and the content of that object when it was fired. *)
Fixpoint updatesBeforeBestmove (ns : list Notification) : list (ref * Evaluation) :=
  match ns with
  | [] => []
  | ev_bestmove _ _ :: _ => []
  | ev_evaluation r o :: ns' => (r, o) :: updatesBeforeBestmove ns'
  | _ :: ns' => updatesBeforeBestmove ns'
  end.

Definition isBestmove (n : Notification) : bool :=
  match n with
  | ev_bestmove _ _ => true
  | _ => false
  end.

Definition bestmoveFired (ns : list Notification) : bool := existsb isBestmove ns.

(** The object of the last qualifying update, if any. *)
Fixpoint lastQualifying (d : Z) (ups : list (ref * Evaluation)) : option ref :=
  match ups with
  | [] => None
  | (r, o) :: ups' =>
      match lastQualifying d ups' with
      | Some r' => Some r'
      | None => if qualifies d o then Some r else None
      end
  end.

(** The state of the manager in which call [req] of [evaluatePosition], with
    target depth [d], is tracking and has retained [retained]: its promise is
    pending, its two handlers are registered, and no other closure belongs to
    [req]. *)
Definition tracking (req : nat) (d : Z) (retained : option ref) (m : Manager) : Prop :=
  requests m !! req = Some {| outcome := Pending; finalEvaluation := retained |} ∧
  evaluationHandler req d ∈ onEvaluation m ∧
  evalMoveHandler req d ∈ onBestmove m ∧
  (∀ l, l ∈ onEvaluation m → listenerReq l = req → l = evaluationHandler req d) ∧
  (∀ l, l ∈ onBestmove m → listenerReq l = req → l = evalMoveHandler req d) ∧
  (∀ t, t ∈ timers m → request t ≠ req).

Definition corresponds (req : nat) (d : Z) (c : Correlation) (m : Manager) : Prop :=
  match c with
  | Tracking retained => tracking req d retained m
  | Completed result =>
      outcome <$> requests m !! req = Some (Resolved (FinalEvaluation result))
  end.

(** A method simulates the specification for call [req]: the notifications
    it fires move the specification's state to one the manager's new state
    corresponds to. *)
Definition simulates (req : nat) (d : Z) (f : Manager → Manager) : Prop :=
  ∀ m c, corresponds req d c m →
    ∃ ns, emitted (f m) = emitted m ++ ns ∧ corresponds req d (follow d c ns) (f m).

(** [currentEvaluation] refers to an object of the heap. True of every state
    a manager can be in ([heapValid_run]): the case of [emit_evaluation] for
    an address outside the heap never arises. *)
Definition heapValid (m : Manager) : Prop :=
  ∀ r, currentEvaluation m = Some r → (r < length (heap m))%nat.

(** ** The host: the IPC handlers of [main.js]

    The module variable [stockfishManager] is undefined until
    [initializeStockfish] has run; the handlers act on it. The window and the
    console lines of the host's own listeners are left out: those listeners
    only forward what the manager emits. *)

Module Main.

(** [let stockfishManager]: undefined, or the manager. *)
Abbreviation Host := (option Manager) (only parsing).

(** [throw new Error('Stockfish not initialized')] *)
Inductive Thrown := NotInitialized.

Definition thrownMessage (e : Thrown) : string :=
  match e with
  | NotInitialized => "Stockfish not initialized"
  end.

(** [initializeStockfish()]: a new manager replaces the variable, then
    [initialize()] runs on it. *)
Definition initializeStockfish (stockfishPath : string) (existsSync : bool)
    (host : option Manager) : option Manager :=
  Some (initialize stockfishPath existsSync constructor).

(** The handler of 'stockfish-make-move', [timeLimit = 1000] by default. *)
Definition makeMove (fen : string) (timeLimit : option Z) (host : option Manager)
    : Thrown + option Manager :=
  let timeLimit := default 1000 timeLimit in
  match host with
  | None => inl NotInitialized
  | Some m => inr (Some (getBestMove fen (Some timeLimit) m))
  end.

(** The handler of 'stockfish-evaluate-position': the depth is not passed
    on. *)
Definition evaluate (fen : string) (host : option Manager) : Thrown + option Manager :=
  match host with
  | None => inl NotInitialized
  | Some m => inr (Some (evaluatePosition fen None m))
  end.

(** The handler of 'stockfish-set-difficulty'. *)
Definition setDifficulty (skillLevel : Z) (host : option Manager) : Thrown + option Manager :=
  match host with
  | None => inl NotInitialized
  | Some m => inr (Some (setSkillLevel skillLevel m))
  end.

(** The handler of 'stockfish-stop': returns where the others throw. *)
Definition stopEngine (host : option Manager) : Thrown + option Manager :=
  match host with
  | None => inr None
  | Some m => inr (Some (stop m))
  end.

(** What the listeners of the window's 'closed' and of the application's
    'before-quit' do to the manager. *)
Definition quitEngine (host : option Manager) : option Manager :=
  match host with
  | None => None
  | Some m => Some (quit m)
  end.

End Main.

(** ** The numbers of JavaScript

    A JavaScript number is a double. An integer below 2^53 in magnitude is
    held exactly, printed in decimal by a template literal and read back by
    [parseInt]; beyond, it is rounded, and from 10^21 printed with an
    exponent. *)
Definition safeInteger (z : Z) : Prop := Z.abs z < 2 ^ 53.

Global Instance safeInteger_dec z : Decision (safeInteger z).
Proof. unfold safeInteger. apply _. Defined.

Definition safeNatural (z : Z) : Prop := 0 ≤ z < 2 ^ 53.

Global Instance safeNatural_dec z : Decision (safeNatural z).
Proof. unfold safeNatural. apply _. Defined.

(** The delays [setTimeout] arms as asked: outside 1 .. 2^31 - 1 Node sets
    the delay to 1 ms. *)
Definition timerDelay (ms : Z) : Prop := 1 ≤ ms ≤ 2 ^ 31 - 1.

Global Instance timerDelay_dec ms : Decision (timerDelay ms).
Proof. unfold timerDelay. apply _. Defined.

(** ** Further readings, for the properties beyond the specification *)

(** The clamp of [setSkillLevel]. *)
Definition clampLevel (level : Z) : Z := Z.max 0 (Z.min 20 level).

(** An action that is not a successful [initialize]. *)
Definition spawnsNothing (a : Action) : Prop :=
  match a with
  | a_initialize _ existsSync => existsSync = false
  | _ => True
  end.

Global Instance spawnsNothing_dec a : Decision (spawnsNothing a).
Proof. destruct a; simpl; apply _. Defined.

(** Nothing waits in the queue of a ready manager, and no handshake command
    ever waits. *)
Definition queueSound (m : Manager) : Prop :=
  (isReady m = true → pendingCommands m = []) ∧
  Forall (λ command, ¬ handshake command) (pendingCommands m).

(** A string of white space only. *)
Fixpoint allWhiteSpace (s : string) : bool :=
  match s with
  | EmptyString => true
  | String c s' => Js.isWhiteSpace c && allWhiteSpace s'
  end.

(** A line the manager does not recognise. *)
Definition unrecognised (line : string) : Prop :=
  line ≠ "uciok" ∧ line ≠ "readyok" ∧
  Js.startsWith line "bestmove" = false ∧ Js.startsWith line "info" = false.

(** A string of decimal digits, at least one. *)
Fixpoint allDigits (s : string) : bool :=
  match s with
  | EmptyString => true
  | String c s' => Js.isDigit c && allDigits s'
  end.

Definition isNumeral (s : string) : Prop := s ≠ "" ∧ allDigits s = true.

(** An optional minus sign and a numeral. *)
Definition isSignedNumeral (s : string) : Prop :=
  isNumeral s ∨ ∃ ds, s = String "-" ds ∧ isNumeral ds.

(** The request [req] of [getBestMove] expects its answer: it is waiting
    ([awaiting]), its handler is registered, and no other listener of
    'bestmove' belongs to [req]. *)
Definition expecting (h req : nat) (ms : Z) (m : Manager) : Prop :=
  awaiting h req ms m ∧
  moveHandler req ∈ onBestmove m ∧
  (∀ l, l ∈ onBestmove m → listenerReq l = req → l = moveHandler req).

(** What may happen while [req] expects its answer without the slot
    [moveTimeout] passing to another call: [quiet], and no further
    [getBestMove]. *)
Definition undisturbed (h : nat) (a : Action) : Prop :=
  quiet h a ∧ match a with a_getBestMove _ _ => False | _ => True end.

Global Instance undisturbed_dec h a : Decision (undisturbed h a).
Proof. unfold undisturbed. destruct a; simpl; apply _. Defined.

(** [m'] continues [m] without a process: none is held, nothing was written,
    and the queue is as it was or was emptied. *)
Definition idleSince (m m' : Manager) : Prop :=
  stockfishProcess m' = None ∧
  stdin m' = stdin m ∧
  (pendingCommands m' = pendingCommands m ∨ pendingCommands m' = []).

(** [m'] has every evaluation object of [m], each with the type and the
    value it was created with. *)
Definition keepsObjects (m m' : Manager) : Prop :=
  ∀ r o, heap m !! r = Some o →
    ∃ o', heap m' !! r = Some o' ∧ ev_type o' = ev_type o ∧ ev_value o' = ev_value o.

(** An evaluation current in [m] leaves one current in [m']. *)
Definition keepsEvaluation (m m' : Manager) : Prop :=
  is_Some (currentEvaluation m) → is_Some (currentEvaluation m').

(** The promises settled in [m] have the same outcome in [m']. *)
Definition keepsOutcomes (m m' : Manager) : Prop :=
  ∀ req o, outcome <$> requests m !! req = Some o → o ≠ Pending →
    outcome <$> requests m' !! req = Some o.

(** What was written to the child process [p], in order. *)
Definition writesTo (p : nat) (ws : list (nat * string)) : list string :=
  snd <$> filter (λ w, w.1 = p) ws.

(** The child processes are numbered as they are spawned: the one held and
    every one written to was spawned, and each of them was sent "uci"
    first. *)
Definition spawnSound (m : Manager) : Prop :=
  (∀ p, stockfishProcess m = Some p → (p < spawned m)%nat) ∧
  (∀ w, w ∈ stdin m → (w.1 < spawned m)%nat) ∧
  (∀ p, (p < spawned m)%nat → ∃ rest, writesTo p (stdin m) = ("uci" +:+ newline) :: rest).

(** The promise of call [req] is settled. *)
Definition settledIn (req : nat) (m : Manager) : Prop :=
  ∃ o, outcome <$> requests m !! req = Some o ∧ o ≠ Pending.

(** A closure registered with [once('bestmove', ...)]. *)
Definition isMoveListener (l : Listener) : Prop :=
  match l with
  | evaluationHandler _ _ => False
  | _ => True
  end.

(** The listeners of 'bestmove' are the closures of distinct calls that
    were made, each registered once. *)
Definition distinctListeners (m : Manager) : Prop :=
  wellFormed m ∧ NoDup (onBestmove m) ∧ Forall isMoveListener (onBestmove m).

(** A string that is not empty and neither starts nor ends with white
    space. *)
Definition trimmed (s : string) : Prop :=
  s ≠ "" ∧ Js.trimStart s = s ∧ Js.trimEnd s = s.

(** What [console.log('Stockfish:', line)] leaves of a chunk that does
    nothing else. *)
Definition logLines (lines : list string) (m : Manager) : Manager :=
  foldl (λ acc line, log (console_log "Stockfish:" line) acc) m lines.

(** A field that was parsed: [null] or a number that is not negative. *)
Definition parsedField (f : Field) : Prop :=
  match f with
  | undefined => False
  | null => True
  | num n => 0 ≤ n
  end.

(** An update carries an object whose [depth], [nodes] and [time] were
    parsed. *)
Definition parsedUpdate (n : Notification) : Prop :=
  match n with
  | ev_evaluation _ o =>
      parsedField (ev_depth o) ∧ parsedField (ev_nodes o) ∧ parsedField (ev_time o) ∧
      (ev_depth o ≠ null ∨ ev_nodes o ≠ null)
  | _ => True
  end.

(** The command of a console line 'Sending to Stockfish: <command>'. *)
Definition sentCommand (e : ConsoleEntry) : option string :=
  match e with
  | console_log label arg =>
      if decide (label = "Sending to Stockfish:") then Some arg else None
  | _ => None
  end.

(** The console accounts for the writes: what was written is, in order, the
    commands of the console lines 'Sending to Stockfish:', each with a line
    feed. *)
Definition logged (m : Manager) : Prop :=
  snd <$> stdin m = (λ command, command +:+ newline) <$> omap sentCommand (console m).



(** [ign g set] says that the observation [g] does not look at the field
    written by [set]. *)
Definition ign {A X : Type} (g : Manager → A) (set : X → Manager → Manager) : Prop :=
  ∀ x m, g (set x m) = g m.

Ltac ign_tac := by (intros ? ?).

(** Decidable facts about concrete inputs, by evaluation. *)
Ltac by_compute := apply (bool_decide_unpack _); vm_compute; exact I.

(** * Properties *)

(** ** Sanity checks of the string primitives *)

Example split_bestmove :
  Js.split " " "bestmove e2e4 ponder e7e5" = ["bestmove"; "e2e4"; "ponder"; "e7e5"].
Proof. reflexivity. Qed.

Example split_keeps_empty_pieces : Js.split " " "a  b" = ["a"; ""; "b"].
Proof. reflexivity. Qed.

Example trim_line : Js.trim ("  readyok" +:+ newline) = "readyok".
Proof. reflexivity. Qed.

Example match_cp :
  Js.matchAfter "cp " true "info depth 12 score cp -34 nodes 1000" = Some "-34".
Proof. reflexivity. Qed.

Example match_leftmost : Js.matchAfter "cp " true "info cp - cp 7x" = Some "7".
Proof. reflexivity. Qed.

Example parseInt_signed : Js.parseInt "-34" = -34.
Proof. reflexivity. Qed.

(** ** [sendCommand] *)

Lemma sendCommand_no_process command m :
  stockfishProcess m = None →
  sendCommand command m = log (console_error "Stockfish process not started" None) m.
Proof. intros H. unfold sendCommand. by rewrite H. Qed.

Lemma sendCommand_queues command m p :
  stockfishProcess m = Some p → isReady m = false → ¬ handshake command →
  sendCommand command m = set_pendingCommands (pendingCommands m ++ [command]) m.
Proof.
  intros Hp Hr Hh. unfold sendCommand. rewrite Hp, Hr. simpl.
  unfold handshake in Hh.
  rewrite !bool_decide_eq_false_2 by tauto. done.
Qed.

Lemma sendCommand_writes command m p :
  stockfishProcess m = Some p → isReady m = true ∨ handshake command →
  sendCommand command m =
    stdin_write p (command +:+ newline) (log (console_log "Sending to Stockfish:" command) m).
Proof.
  intros Hp H. unfold sendCommand. rewrite Hp.
  destruct H as [-> | [-> | ->]]; [done | |].
  - by rewrite andb_false_r.
  - by rewrite andb_false_r.
Qed.

(** ** Frame rules

    Each method writes a few fields of the state; an observation that
    ignores every field a method writes is unchanged by it. *)

Lemma foldl_invariant {B} (I : Manager → Prop) (f : Manager → B → Manager) (l : list B) m :
  (∀ b m', I m' → I (f m' b)) → I m → I (foldl f m l).
Proof.
  intros Hf. revert m. induction l as [|b l IH]; intros m Hm; simpl; [done|].
  apply IH. by apply Hf.
Qed.

Section Frame.
Context {A : Type} (g : Manager → A).

Lemma frame_foldl {B} (f : Manager → B → Manager) (l : list B) m :
  (∀ b m', g (f m' b) = g m') → g (foldl f m l) = g m.
Proof.
  intros Hf. revert m. induction l as [|b l IH]; intros m; simpl; [done|].
  by rewrite IH, Hf.
Qed.

Lemma frame_log entry m : ign g set_console → g (log entry m) = g m.
Proof. intros H. apply H. Qed.

Lemma frame_stdin_write p data m : ign g set_stdin → g (stdin_write p data m) = g m.
Proof. intros H. apply H. Qed.

Lemma frame_settle req o m : ign g set_requests → g (settle req o m) = g m.
Proof. intros H. unfold settle. repeat case_match; first [done | apply H]. Qed.

Lemma frame_resolve req v m : ign g set_requests → g (resolve req v m) = g m.
Proof. apply frame_settle. Qed.

Lemma frame_reject req f m : ign g set_requests → g (reject req f m) = g m.
Proof. apply frame_settle. Qed.

Lemma frame_clearTimeout h m : ign g set_timers → g (clearTimeout h m) = g m.
Proof. intros H. unfold clearTimeout. repeat case_match; first [done | apply H]. Qed.

Lemma frame_emit_ready m : ign g set_emitted → g (emit_ready m) = g m.
Proof. intros H. apply H. Qed.

Lemma frame_emit_error msg m : ign g set_emitted → g (emit_error msg m) = g m.
Proof. intros H. apply H. Qed.

Lemma frame_call_evaluation_listener r o l m :
  ign g set_requests → g (call_evaluation_listener r o l m) = g m.
Proof. intros H. unfold call_evaluation_listener. repeat case_match; first [done | apply H]. Qed.

Lemma frame_emit_evaluation r m :
  ign g set_emitted → ign g set_requests → g (emit_evaluation r m) = g m.
Proof.
  intros H1 H2. unfold emit_evaluation. case_match; [|done].
  rewrite frame_foldl; [apply H1|].
  intros. by apply frame_call_evaluation_listener.
Qed.

Lemma frame_call_bestmove_listener mv ev l m :
  ign g set_onBestmove → ign g set_onEvaluation → ign g set_requests →
  g (call_bestmove_listener mv ev l m) = g m.
Proof.
  intros H1 H2 H3. unfold call_bestmove_listener.
  destruct l; simpl.
  - rewrite frame_resolve by done. by rewrite !H1.
  - apply H1.
  - rewrite frame_resolve by done. by rewrite H1, H2, H1.
Qed.

Lemma frame_emit_bestmove mv ev m :
  ign g set_emitted → ign g set_onBestmove → ign g set_onEvaluation → ign g set_requests →
  g (emit_bestmove mv ev m) = g m.
Proof.
  intros H0 H1 H2 H3. unfold emit_bestmove.
  rewrite frame_foldl; [apply H0|].
  intros. by apply frame_call_bestmove_listener.
Qed.

Lemma frame_sendCommand command m :
  ign g set_console → ign g set_stdin → ign g set_pendingCommands →
  g (sendCommand command m) = g m.
Proof.
  intros H1 H2 H3. unfold sendCommand, log, stdin_write.
  repeat case_match; rewrite ?H2, ?H1, ?H3; done.
Qed.

Lemma frame_processPendingCommands_loop fuel m :
  ign g set_console → ign g set_stdin → ign g set_pendingCommands →
  g (processPendingCommands_loop fuel m) = g m.
Proof.
  intros H1 H2 H3. revert m. induction fuel as [|fuel IH]; intros m; simpl; [done|].
  case_match; [done|]. by rewrite IH, frame_sendCommand, H3.
Qed.

Lemma frame_processPendingCommands m :
  ign g set_console → ign g set_stdin → ign g set_pendingCommands →
  g (processPendingCommands m) = g m.
Proof. apply frame_processPendingCommands_loop. Qed.

Lemma frame_handleBestMove line m :
  ign g set_moveTimeout → ign g set_timers → ign g set_emitted → ign g set_onBestmove →
  ign g set_onEvaluation → ign g set_requests →
  g (handleBestMove line m) = g m.
Proof.
  intros H1 H2 H3 H4 H5 H6. unfold handleBestMove.
  rewrite frame_emit_bestmove by done.
  case_match; [|done]. by rewrite H1, frame_clearTimeout.
Qed.

Lemma frame_newEvaluation ty v m :
  ign g set_heap → ign g set_currentEvaluation → g (newEvaluation ty v m) = g m.
Proof. intros H1 H2. unfold newEvaluation. by rewrite H2, H1. Qed.

Lemma frame_handleInfoLine line m :
  ign g set_heap → ign g set_currentEvaluation → ign g set_emitted → ign g set_requests →
  g (handleInfoLine line m) = g m.
Proof.
  intros H1 H2 H3 H4. unfold handleInfoLine.
  repeat case_match;
    rewrite ?frame_emit_evaluation, ?H1, ?frame_newEvaluation by done; done.
Qed.

Lemma frame_fireTimer h m :
  ign g set_timers → ign g set_console → ign g set_stdin → ign g set_pendingCommands →
  ign g set_requests → g (fireTimer h m) = g m.
Proof.
  intros H1 H2 H3 H4 H5. unfold fireTimer. repeat case_match; try done.
  by rewrite frame_reject, frame_sendCommand, H1.
Qed.

Lemma frame_setSkillLevel level m :
  ign g set_console → ign g set_stdin → ign g set_pendingCommands →
  g (setSkillLevel level m) = g m.
Proof.
  intros H1 H2 H3. unfold setSkillLevel.
  case_match; rewrite !frame_sendCommand by done; done.
Qed.

Lemma frame_stop m :
  ign g set_console → ign g set_stdin → ign g set_pendingCommands → g (stop m) = g m.
Proof. intros H1 H2 H3. unfold stop. case_match; [|done]. by rewrite frame_sendCommand. Qed.

Lemma frame_getBestMove fen t m :
  ign g set_requests → ign g set_timers → ign g set_moveTimeout → ign g set_onBestmove →
  ign g set_console → ign g set_stdin → ign g set_pendingCommands →
  g (getBestMove fen t m) = g m.
Proof.
  intros H1 H2 H3 H4 H5 H6 H7. unfold getBestMove, newPromise, setTimeout.
  case_match.
  - by rewrite frame_reject, H1.
  - by rewrite !frame_sendCommand, H4, H3, H2, H1.
Qed.

Lemma frame_evaluatePosition fen d m :
  ign g set_requests → ign g set_onEvaluation → ign g set_onBestmove →
  ign g set_console → ign g set_stdin → ign g set_pendingCommands →
  g (evaluatePosition fen d m) = g m.
Proof.
  intros H1 H2 H3 H4 H5 H6. unfold evaluatePosition, newPromise.
  case_match.
  - by rewrite frame_reject, H1.
  - by rewrite !frame_sendCommand, H3, H2, H1.
Qed.

Lemma frame_onStderr data m : ign g set_console → g (onStderr data m) = g m.
Proof. apply frame_log. Qed.

Lemma frame_onError msg m :
  ign g set_console → ign g set_emitted → g (onError msg m) = g m.
Proof. intros H1 H2. unfold onError. by rewrite frame_emit_error, frame_log. Qed.

Lemma frame_initialize path e m :
  ign g set_emitted → ign g set_console → ign g set_stockfishProcess → ign g set_spawned →
  ign g set_stdin → ign g set_pendingCommands →
  g (initialize path e m) = g m.
Proof.
  intros H1 H2 H3 H4 H5 H6. unfold initialize. case_match.
  - by apply frame_emit_error.
  - by rewrite frame_sendCommand, H3, H4, frame_log.
Qed.
End Frame.

(** ** Promises *)

Lemma lookup_snoc {X} (l : list X) (x : X) : (l ++ [x]) !! length l = Some x.
Proof. by apply list_lookup_middle. Qed.

Lemma insert_snoc {X} (l : list X) (x y : X) : <[length l := y]> (l ++ [x]) = l ++ [y].
Proof. rewrite insert_app_r_alt by lia. by rewrite Nat.sub_diag. Qed.

Lemma reject_newPromise f m :
  reject (newPromise m).1 f (newPromise m).2 =
  set_requests (requests m ++ [{| outcome := Rejected f; finalEvaluation := None |}]) m.
Proof.
  unfold reject, settle, newPromise. simpl.
  rewrite lookup_snoc. simpl. by rewrite insert_snoc.
Qed.

(** ** Analysis requested before the engine is ready *)

Lemma getBestMove_not_ready fen t m :
  isReady m = false →
  getBestMove fen t m =
    set_requests
      (requests m ++ [{| outcome := Rejected EngineNotReady; finalEvaluation := None |}]) m.
Proof.
  intros Hr. unfold getBestMove.
  pose proof (reject_newPromise EngineNotReady m) as E.
  destruct (newPromise m) as [req m1] eqn:Hn.
  assert (isReady m1 = false) as ->.
  { unfold newPromise in Hn. by simplify_eq. }
  done.
Qed.

Lemma evaluatePosition_not_ready fen d m :
  isReady m = false →
  evaluatePosition fen d m =
    set_requests
      (requests m ++ [{| outcome := Rejected EngineNotReady; finalEvaluation := None |}]) m.
Proof.
  intros Hr. unfold evaluatePosition.
  pose proof (reject_newPromise EngineNotReady m) as E.
  destruct (newPromise m) as [req m1] eqn:Hn.
  assert (isReady m1 = false) as ->.
  { unfold newPromise in Hn. by simplify_eq. }
  done.
Qed.

(** C5. A call of [getBestMove] or of [evaluatePosition] while [isReady] is
    false does nothing but hand back a promise that is already rejected with
    the error "Stockfish not ready": nothing is written to the child's
    standard input, nothing is queued, no timer is armed and no listener is
    registered. *)
Theorem analysis_before_ready_rejects (m : Manager) (fen : string) (t d : option Z) :
  isReady m = false →
  let rejected :=
    set_requests
      (requests m ++ [{| outcome := Rejected EngineNotReady; finalEvaluation := None |}]) m in
  getBestMove fen t m = rejected ∧
  evaluatePosition fen d m = rejected ∧
  requests rejected !! length (requests m) =
    Some {| outcome := Rejected EngineNotReady; finalEvaluation := None |} ∧
  message EngineNotReady = "Stockfish not ready" ∧
  stdin rejected = stdin m ∧
  pendingCommands rejected = pendingCommands m ∧
  timers rejected = timers m ∧
  onBestmove rejected = onBestmove m ∧
  onEvaluation rejected = onEvaluation m.
Proof.
  intros Hr rejected. split_and!; try done.
  - by apply getBestMove_not_ready.
  - by apply evaluatePosition_not_ready.
  - apply lookup_snoc.
Qed.

Lemma analysis_before_ready_rejects_witness :
  isReady constructor = false ∧
  stdin (getBestMove "startpos" (Some 1000) constructor) = [] ∧
  requests (evaluatePosition "startpos" None constructor) =
    [{| outcome := Rejected EngineNotReady; finalEvaluation := None |}].
Proof.
  split; [reflexivity|].
  destruct (analysis_before_ready_rejects constructor "startpos" (Some 1000) None eq_refl)
    as (E1 & E2 & _).
  rewrite E1, E2. split; reflexivity.
Defined.

(** ** Exit of the child process *)

(** C7, as the code has it. When the child process exits, the manager sets
    [isReady] to false and writes the exit code to the console; it fires no
    notification, and nothing else changes. *)
Theorem process_exit_logs_only (m : Manager) (code : option Z) :
  let m' := step (a_close code) m in
  isReady m' = false ∧
  console m' = console m ++ [console_log_code "Stockfish process closed with code:" code] ∧
  emitted m' = emitted m ∧
  m' = set_isReady false (set_console (console m') m).
Proof. by split_and!. Qed.

(** C7, as the specification has it, fails: after the child started by
    [initialize] exits with code 1, no notification at all has been fired. *)
Lemma process_exit_emits_nothing :
  emitted (run [a_initialize "stockfish" true; a_close (Some 1)] constructor) = [].
Proof. reflexivity. Qed.

(** ** [quit] *)

Lemma quit_when_ready m p :
  stockfishProcess m = Some p → isReady m = true →
  stdin (quit m) = stdin m ++ [written p "quit"] ∧
  pendingCommands (quit m) = pendingCommands m ∧
  stockfishProcess (quit m) = None ∧
  isReady (quit m) = false.
Proof.
  intros Hp Hr. unfold quit. rewrite Hp.
  rewrite (sendCommand_writes _ _ p) by auto. done.
Qed.

Lemma quit_when_not_ready m p :
  stockfishProcess m = Some p → isReady m = false →
  stdin (quit m) = stdin m ∧
  pendingCommands (quit m) = pendingCommands m ++ ["quit"] ∧
  stockfishProcess (quit m) = None ∧
  isReady (quit m) = false.
Proof.
  intros Hp Hr. unfold quit. rewrite Hp.
  rewrite (sendCommand_queues _ _ p); [done..|].
  unfold handshake. intros [?|?]; discriminate.
Qed.

(** C8, where the code departs from it. [quit] called on a manager whose
    child runs but has not answered "readyok" yet: the command goes to the
    queue instead of the child's standard input, and the handle is dropped, so
    that the flush of a later "readyok" finds no process and writes nothing
    either. *)
Theorem quit_before_ready_is_not_written :
  let m := initialize "stockfish" true constructor in
  stockfishProcess m = Some 0%nat ∧ isReady m = false ∧
  stdin (quit m) = stdin m ∧
  pendingCommands (quit m) = ["quit"] ∧
  stockfishProcess (quit m) = None ∧
  isReady (quit m) = false ∧
  stdin (handleStockfishOutput "readyok" (quit m)) = [written 0 "uci"] ∧
  pendingCommands (handleStockfishOutput "readyok" (quit m)) = [].
Proof. by split_and!. Qed.

(** ** The command queue *)

(** With the engine ready, or without a process, [sendCommand] queues
    nothing. *)
Lemma sendCommand_keeps_queue command m :
  isReady m = true ∨ stockfishProcess m = None →
  pendingCommands (sendCommand command m) = pendingCommands m.
Proof.
  intros H. unfold sendCommand.
  destruct (stockfishProcess m); [|done].
  destruct H as [-> | ?]; [done | discriminate].
Qed.

Lemma processPendingCommands_loop_drains fuel m :
  isReady m = true ∨ stockfishProcess m = None →
  (length (pendingCommands m) ≤ fuel)%nat →
  pendingCommands (processPendingCommands_loop fuel m) = [].
Proof.
  revert m. induction fuel as [|fuel IH]; intros m H Hlen; simpl.
  - destruct (pendingCommands m); [done | simpl in Hlen; lia].
  - destruct (pendingCommands m) as [|c rest] eqn:Hq; [done|].
    simpl in Hlen. apply IH.
    + rewrite (frame_sendCommand isReady), (frame_sendCommand stockfishProcess) by ign_tac.
      done.
    + rewrite sendCommand_keeps_queue by done. simpl. lia.
Qed.

(** The [while] loop of [processPendingCommands] ends with its test false:
    the iterations allowed were enough. *)
Lemma processPendingCommands_drains m :
  isReady m = true ∨ stockfishProcess m = None →
  pendingCommands (processPendingCommands m) = [].
Proof. intros H. by apply processPendingCommands_loop_drains. Qed.

Lemma processPendingCommands_loop_writes p fuel m :
  stockfishProcess m = Some p → isReady m = true →
  (length (pendingCommands m) ≤ fuel)%nat →
  stdin (processPendingCommands_loop fuel m) =
    stdin m ++ map (written p) (pendingCommands m).
Proof.
  revert m. induction fuel as [|fuel IH]; intros m Hp Hr Hlen; simpl.
  - destruct (pendingCommands m); [by rewrite app_nil_r | simpl in Hlen; lia].
  - destruct (pendingCommands m) as [|c rest] eqn:Hq; [by rewrite app_nil_r|].
    simpl in Hlen.
    rewrite IH.
    + rewrite (sendCommand_writes _ _ p) by auto. simpl.
      by rewrite <- app_assoc.
    + by rewrite (frame_sendCommand stockfishProcess) by ign_tac.
    + by rewrite (frame_sendCommand isReady) by ign_tac.
    + rewrite sendCommand_keeps_queue by auto. simpl. lia.
Qed.

(** The first "readyok": readiness, one 'ready', and the flush. *)
Lemma first_readyok m :
  isReady m = false →
  let m' := handleLine "readyok" m in
  isReady m' = true ∧
  emitted m' = emitted m ++ [ev_ready] ∧
  pendingCommands m' = [] ∧
  stockfishProcess m' = stockfishProcess m ∧
  (∀ p, stockfishProcess m = Some p →
        stdin m' = stdin m ++ map (written p) (pendingCommands m)) ∧
  (stockfishProcess m = None → stdin m' = stdin m).
Proof.
  intros Hr. unfold handleLine. simpl. rewrite Hr.
  split_and!.
  - by rewrite (frame_processPendingCommands isReady) by ign_tac.
  - by rewrite (frame_processPendingCommands emitted) by ign_tac.
  - apply processPendingCommands_drains. by left.
  - by rewrite (frame_processPendingCommands stockfishProcess) by ign_tac.
  - intros p Hp. unfold processPendingCommands.
    by rewrite (processPendingCommands_loop_writes p).
  - intros Hp. unfold processPendingCommands.
    generalize (length (pendingCommands (emit_ready (set_isReady true
      (log (console_log "Stockfish:" "readyok") m))))).
    assert (stockfishProcess (emit_ready (set_isReady true
      (log (console_log "Stockfish:" "readyok") m))) = None) as Hn by done.
    change (stdin m) with (stdin (emit_ready (set_isReady true
      (log (console_log "Stockfish:" "readyok") m)))).
    revert Hn.
    generalize (emit_ready (set_isReady true (log (console_log "Stockfish:" "readyok") m))).
    intros m0 Hn n. revert m0 Hn. induction n as [|n IH]; intros m0 Hn; simpl; [done|].
    destruct (pendingCommands m0); [done|].
    rewrite IH.
    + by rewrite sendCommand_no_process.
    + by rewrite (frame_sendCommand stockfishProcess) by ign_tac.
Qed.

(** A later "readyok" only reaches the console. *)
Lemma later_readyok m :
  isReady m = true →
  handleLine "readyok" m = log (console_log "Stockfish:" "readyok") m.
Proof. intros Hr. unfold handleLine. simpl. by rewrite Hr. Qed.

Lemma waiting_refl p m :
  stockfishProcess m = Some p → isReady m = false → waiting p m m [].
Proof.
  intros Hp Hr. split_and!; [done | done | by rewrite app_nil_r |].
  exists []. by rewrite app_nil_r.
Qed.

Lemma waiting_trans p m1 m2 m3 cs cs' :
  waiting p m1 m2 cs → waiting p m2 m3 cs' → waiting p m1 m3 (cs ++ cs').
Proof.
  intros (_ & _ & Hq & ws & Hw & Hws) (Hp & Hr & Hq' & ws' & Hw' & Hws').
  split_and!; [done | done | by rewrite Hq', Hq, app_assoc |].
  exists (ws ++ ws'). split; [by rewrite Hw', Hw, app_assoc | by apply Forall_app].
Qed.

(** An operation that leaves the process, the flag, the queue and the
    standard input alone. *)
Lemma waiting_frame p m (f : Manager → Manager) :
  stockfishProcess m = Some p → isReady m = false →
  stockfishProcess (f m) = stockfishProcess m → isReady (f m) = isReady m →
  pendingCommands (f m) = pendingCommands m → stdin (f m) = stdin m →
  waiting p m (f m) [].
Proof.
  intros Hp Hr E1 E2 E3 E4.
  split_and!; [congruence | congruence | by rewrite app_nil_r |].
  exists []. by rewrite app_nil_r.
Qed.

Lemma waiting_sendCommand p m command :
  stockfishProcess m = Some p → isReady m = false →
  waiting p m (sendCommand command m) (queued command).
Proof.
  intros Hp Hr. unfold queued. destruct (decide (handshake command)) as [Hh|Hh].
  - rewrite (sendCommand_writes _ _ p) by auto.
    split_and!; [done | done | by rewrite app_nil_r |].
    exists [written p command]. split; [done|].
    constructor; [by exists command | constructor].
  - rewrite (sendCommand_queues _ _ p) by done.
    split_and!; [done..|]. exists []. by rewrite app_nil_r.
Qed.

Lemma waiting_handleLine p m line :
  stockfishProcess m = Some p → isReady m = false → line ≠ "readyok" →
  waiting p m (handleLine line m) [].
Proof.
  intros Hp Hr Hl. unfold handleLine.
  set (m0 := log (console_log "Stockfish:" line) m).
  assert (waiting p m m0 []) as H0 by by apply (waiting_frame p m (log _)).
  change [] with (@nil string ++ []).
  apply (waiting_trans _ _ m0); [done|].
  case_bool_decide as E1.
  { apply (waiting_sendCommand p m0 "isready"); done. }
  rewrite bool_decide_eq_false_2 by done.
  repeat case_match.
  - apply (waiting_frame p m0 (handleBestMove line)); try done.
    all: by rewrite frame_handleBestMove by ign_tac.
  - apply (waiting_frame p m0 (handleInfoLine line)); try done.
    all: by rewrite frame_handleInfoLine by ign_tac.
  - by apply waiting_refl.
Qed.

Lemma waiting_lines p lines : ∀ m,
  stockfishProcess m = Some p → isReady m = false → "readyok" ∉ lines →
  waiting p m (foldl (λ acc line, handleLine line acc) m lines) [].
Proof.
  induction lines as [|line lines IH]; intros m Hp Hr Hl; simpl.
  - by apply waiting_refl.
  - apply not_elem_of_cons in Hl as [Hne Hl].
    pose proof (waiting_handleLine p m line Hp Hr (not_eq_sym Hne)) as H1.
    change [] with (@nil string ++ []).
    apply (waiting_trans _ _ _ _ _ _ H1).
    destruct H1 as (Hp' & Hr' & _). by apply IH.
Qed.

Lemma waiting_step p m a :
  stockfishProcess m = Some p → isReady m = false → beforeReady a →
  waiting p m (step a m) (queuedBy a).
Proof.
  intros Hp Hr Ha. destruct a; simpl in *; try done.
  - by apply waiting_lines.
  - apply (waiting_frame p m (onStderr data)); done.
  - apply (waiting_frame p m (onError msg)); done.
  - by apply waiting_sendCommand.
  - apply (waiting_frame p m (getBestMove fen timeLimit)); try done.
    all: by rewrite getBestMove_not_ready.
  - apply (waiting_frame p m (evaluatePosition fen depth)); try done.
    all: by rewrite evaluatePosition_not_ready.
  - unfold setSkillLevel.
    set (c1 := "setoption name Skill Level value " +:+ pretty (Z.max 0 (Z.min 20 level))).
    assert (queued c1 = [c1]) as Hq1.
    { unfold queued. rewrite decide_False; [done|]. intros [?|?]; discriminate. }
    pose proof (waiting_sendCommand p m c1 Hp Hr) as H1. rewrite Hq1 in H1.
    case_match.
    + pose proof H1 as (Hp' & Hr' & _).
      apply (waiting_trans p m (sendCommand c1 m) _ [c1] ["setoption name MultiPV value 1"]);
        [done|].
      by apply (waiting_sendCommand p _ "setoption name MultiPV value 1").
    + done.
  - unfold stop. rewrite Hp. by apply (waiting_sendCommand p m "stop").
Qed.

Lemma waiting_run p acts : ∀ m,
  stockfishProcess m = Some p → isReady m = false → Forall beforeReady acts →
  waiting p m (run acts m) (concat (map queuedBy acts)).
Proof.
  induction acts as [|a acts IH]; intros m Hp Hr Hacts; simpl.
  - by apply waiting_refl.
  - apply Forall_cons in Hacts as [Ha Hacts].
    pose proof (waiting_step p m a Hp Hr Ha) as H1.
    apply (waiting_trans _ _ _ _ _ _ H1).
    destruct H1 as (Hp' & Hr' & _). by apply IH.
Qed.

(** C1, as the code has it. On a manager that holds a process and is not
    ready, a command other than "uci" and "isready" handed to [sendCommand]
    is appended to [pendingCommands] and nothing is written. Through any run
    of method calls and engine output before the first "readyok", the queue
    grows by exactly the commands handed over, in that order, and only
    handshake commands are written. The first "readyok" then writes every
    queued command once, in the order of arrival, each followed by a newline,
    and leaves the queue empty; the next "readyok" writes nothing. *)
Theorem queued_until_first_readyok (m : Manager) (p : nat) (acts : list Action) :
  stockfishProcess m = Some p → isReady m = false → Forall beforeReady acts →
  let m1 := run acts m in
  let m2 := handleLine "readyok" m1 in
  let m3 := handleLine "readyok" m2 in
  (∀ command, ¬ handshake command →
     sendCommand command m = set_pendingCommands (pendingCommands m ++ [command]) m) ∧
  pendingCommands m1 = pendingCommands m ++ concat (map queuedBy acts) ∧
  (∃ ws, stdin m1 = stdin m ++ ws ∧ Forall (handshakeWrite p) ws) ∧
  stdin m2 = stdin m1 ++ map (written p) (pendingCommands m1) ∧
  pendingCommands m2 = [] ∧
  isReady m2 = true ∧
  stdin m3 = stdin m2 ∧
  pendingCommands m3 = [].
Proof.
  intros Hp Hr Hacts m1 m2 m3.
  destruct (waiting_run p acts m Hp Hr Hacts) as (Hp1 & Hr1 & Hq1 & Hw1).
  destruct (first_readyok m1 Hr1) as (Hr2 & _ & Hq2 & _ & Hw2 & _).
  fold m1 in Hp1, Hr1, Hq1, Hw1. fold m2 in Hr2, Hq2, Hw2.
  split_and!; try done.
  - intros command Hc. by apply (sendCommand_queues _ _ p).
  - by apply Hw2.
  - unfold m3. by rewrite later_readyok.
  - unfold m3. by rewrite later_readyok.
Qed.

Lemma queued_until_first_readyok_witness :
  let m := initialize "stockfish" true constructor in
  let acts := [a_sendCommand "ucinewgame"; a_stdout "uciok"; a_setSkillLevel 25; a_stop] in
  stdin (handleLine "readyok" (run acts m)) =
    [written 0 "uci"; written 0 "isready"; written 0 "ucinewgame";
     written 0 "setoption name Skill Level value 20"; written 0 "stop"].
Proof.
  intros m acts.
  assert (Forall beforeReady acts) as Hacts.
  { by_compute. }
  destruct (queued_until_first_readyok m 0%nat acts eq_refl eq_refl Hacts)
    as (_ & _ & _ & E & _).
  rewrite E. reflexivity.
Defined.

(** C1, as the specification has it, fails where the manager holds no
    process: on a fresh manager, not ready, the command "stop" is not
    appended to the queue. *)
Lemma command_without_process_is_not_queued :
  isReady constructor = false ∧ ¬ handshake "stop" ∧
  pendingCommands (sendCommand "stop" constructor) ≠ pendingCommands constructor ++ ["stop"].
Proof. split_and!; [done | intros [?|?]; discriminate | discriminate]. Qed.

(** ** Readiness *)

Lemma handleLine_stays_ready line m :
  isReady m = true → isReady (handleLine line m) = true.
Proof.
  intros Hr. unfold handleLine. simpl. rewrite Hr.
  repeat case_match; try done.
  - by rewrite (frame_sendCommand isReady) by ign_tac.
  - by rewrite (frame_handleBestMove isReady) by ign_tac.
  - by rewrite (frame_handleInfoLine isReady) by ign_tac.
Qed.

Lemma step_stays_ready a m :
  sameLifetime a → isReady m = true → isReady (step a m) = true.
Proof.
  intros Ha Hr. destruct a; simpl in *; try done.
  - by rewrite (frame_initialize isReady) by ign_tac.
  - unfold handleStockfishOutput. generalize (Js.split "010" (Js.trim data)).
    intros lines. revert m Hr. induction lines as [|l lines IH]; intros m Hr; simpl; [done|].
    apply IH. by apply handleLine_stays_ready.
  - by rewrite (frame_fireTimer isReady) by ign_tac.
  - by rewrite (frame_sendCommand isReady) by ign_tac.
  - by rewrite (frame_getBestMove isReady) by ign_tac.
  - by rewrite (frame_evaluatePosition isReady) by ign_tac.
  - by rewrite (frame_setSkillLevel isReady) by ign_tac.
  - by rewrite (frame_stop isReady) by ign_tac.
Qed.






(** ** Info lines *)

Lemma startsWith_app s p : Js.startsWith s p = true → ∃ rest, s = p +:+ rest.
Proof.
  revert s. induction p as [|a p IH]; intros s H; simpl in *.
  - eexists. reflexivity.
  - destruct s as [|b s]; [done|]. simpl in H. case_decide; [|done]. subst.
    destruct (IH s H) as [rest ->]. eexists. reflexivity.
Qed.

Lemma handleLine_info line m :
  Js.startsWith line "info" = true →
  handleLine line m = handleInfoLine line (log (console_log "Stockfish:" line) m).
Proof.
  intros H. unfold handleLine. rewrite H.
  destruct (startsWith_app _ _ H) as [rest ->].
  rewrite !bool_decide_eq_false_2 by (simpl; intros ?; discriminate). done.
Qed.

Lemma handleLine_bestmove line m :
  Js.startsWith line "bestmove" = true →
  handleLine line m = handleBestMove line (log (console_log "Stockfish:" line) m).
Proof.
  intros H. unfold handleLine. rewrite H.
  destruct (startsWith_app _ _ H) as [rest ->].
  rewrite !bool_decide_eq_false_2 by (simpl; intros ?; discriminate). done.
Qed.

Lemma emit_evaluation_emitted r m :
  emitted (emit_evaluation r m) =
    emitted m ++ match heap m !! r with Some o => [ev_evaluation r o] | None => [] end.
Proof.
  unfold emit_evaluation. destruct (heap m !! r) as [o|]; [|by rewrite app_nil_r].
  rewrite (frame_foldl emitted); [done|].
  intros. by rewrite (frame_call_evaluation_listener emitted) by ign_tac.
Qed.

(** [handleInfoLine] in two steps: the score, then the fields. *)
Lemma handleInfoLine_steps line m :
  handleInfoLine line m =
    let m1 := match scoreOf line with
              | Some (ty, v) => newEvaluation ty v m
              | None => m
              end in
    match currentEvaluation m1 with
    | Some r =>
        if hasDepthOrNodes line
        then emit_evaluation r (set_heap (alter (withFields line) r (heap m1)) m1)
        else m1
    | None => m1
    end.
Proof.
  unfold handleInfoLine, scoreOf, hasDepthOrNodes.
  destruct (Js.includes line "cp "); [by destruct (Js.matchAfter "cp " true line)|].
  destruct (Js.includes line "mate "); [by destruct (Js.matchAfter "mate " true line)|].
  done.
Qed.

Lemma scoreOf_none line :
  Js.matchAfter "cp " true line = None → Js.matchAfter "mate " true line = None →
  scoreOf line = None.
Proof. intros H1 H2. unfold scoreOf. rewrite H1, H2. by repeat case_match. Qed.

(** What a line without a score does, by cases. *)
Lemma handleInfoLine_scoreless line m :
  scoreOf line = None →
  handleInfoLine line m =
    match currentEvaluation m with
    | Some r =>
        if hasDepthOrNodes line
        then emit_evaluation r (set_heap (alter (withFields line) r (heap m)) m)
        else m
    | None => m
    end.
Proof. intros H. by rewrite handleInfoLine_steps, H. Qed.

Lemma heapValid_frame m m' :
  currentEvaluation m' = currentEvaluation m → heap m' = heap m →
  heapValid m → heapValid m'.
Proof. intros E1 E2 H r. rewrite E1, E2. apply H. Qed.

Lemma heapValid_handleInfoLine line m : heapValid m → heapValid (handleInfoLine line m).
Proof.
  intros Hm. rewrite handleInfoLine_steps. cbv zeta.
  set (m1 := match scoreOf line with Some (ty, v) => newEvaluation ty v m | None => m end).
  assert (heapValid m1) as Hm1.
  { unfold m1. destruct (scoreOf line) as [[ty v]|]; [|done].
    intros r [= <-]. simpl. rewrite length_app. simpl. lia. }
  destruct (currentEvaluation m1) as [r|] eqn:Hc; [|done].
  destruct (hasDepthOrNodes line); [|done].
  intros r'. rewrite (frame_emit_evaluation currentEvaluation),
    (frame_emit_evaluation heap) by ign_tac.
  simpl. rewrite length_alter. apply Hm1.
Qed.

Lemma heapValid_step a m : heapValid m → heapValid (step a m).
Proof.
  intros Hm. destruct a; simpl; try done.
  - revert Hm. apply heapValid_frame.
    + by rewrite (frame_initialize currentEvaluation) by ign_tac.
    + by rewrite (frame_initialize heap) by ign_tac.
  - unfold handleStockfishOutput.
    revert m Hm. induction (Js.split "010" (Js.trim data)) as [|line lines IH];
      intros m Hm; simpl; [done|].
    apply IH. unfold handleLine.
    set (m0 := log (console_log "Stockfish:" line) m).
    assert (heapValid m0) as H0 by done.
    repeat case_match; try done.
    + revert H0. apply heapValid_frame.
      * by rewrite (frame_sendCommand currentEvaluation) by ign_tac.
      * by rewrite (frame_sendCommand heap) by ign_tac.
    + revert H0. apply heapValid_frame.
      * by rewrite (frame_processPendingCommands currentEvaluation) by ign_tac.
      * by rewrite (frame_processPendingCommands heap) by ign_tac.
    + revert H0. apply heapValid_frame.
      * by rewrite (frame_handleBestMove currentEvaluation) by ign_tac.
      * by rewrite (frame_handleBestMove heap) by ign_tac.
    + by apply heapValid_handleInfoLine.
  - revert Hm. apply heapValid_frame.
    + by rewrite (frame_fireTimer currentEvaluation) by ign_tac.
    + by rewrite (frame_fireTimer heap) by ign_tac.
  - revert Hm. apply heapValid_frame.
    + by rewrite (frame_sendCommand currentEvaluation) by ign_tac.
    + by rewrite (frame_sendCommand heap) by ign_tac.
  - revert Hm. apply heapValid_frame.
    + by rewrite (frame_getBestMove currentEvaluation) by ign_tac.
    + by rewrite (frame_getBestMove heap) by ign_tac.
  - revert Hm. apply heapValid_frame.
    + by rewrite (frame_evaluatePosition currentEvaluation) by ign_tac.
    + by rewrite (frame_evaluatePosition heap) by ign_tac.
  - revert Hm. apply heapValid_frame.
    + by rewrite (frame_setSkillLevel currentEvaluation) by ign_tac.
    + by rewrite (frame_setSkillLevel heap) by ign_tac.
  - revert Hm. apply heapValid_frame.
    + by rewrite (frame_stop currentEvaluation) by ign_tac.
    + by rewrite (frame_stop heap) by ign_tac.
  - unfold quit. case_match; [|done]. revert Hm. apply heapValid_frame; simpl.
    + by rewrite (frame_sendCommand currentEvaluation) by ign_tac.
    + by rewrite (frame_sendCommand heap) by ign_tac.
Qed.

(** Every state a manager reaches refers to an object of its heap. *)
Lemma heapValid_run acts : heapValid (run acts constructor).
Proof.
  unfold run. apply (foldl_invariant heapValid); [|done].
  intros a m. apply heapValid_step.
Qed.

(** C9, as the code has it. Whenever [handleInfoLine] fires 'evaluation',
    it fires it once, with the object that [currentEvaluation] refers to,
    whose [depth], [nodes] and [time] have just been overwritten from the
    line, each with the number read, or with [null] when the line has no such
    token. The object is emitted by reference, not copied. When the line
    carries no score it is the very object that was current before the line
    (so a field an earlier line had set is reset in it); when the line carries
    a score it is a fresh object, allocated by this line. *)
Theorem evaluation_update_overwrites_fields (m : Manager) (line : string) :
  let m' := handleInfoLine line m in
  emitted m' ≠ emitted m →
  ∃ r o,
    emitted m' = emitted m ++ [ev_evaluation r o] ∧
    currentEvaluation m' = Some r ∧
    heap m' !! r = Some o ∧
    ev_depth o = fieldOf (Js.matchAfter "depth " false line) ∧
    ev_nodes o = fieldOf (Js.matchAfter "nodes " false line) ∧
    ev_time o = fieldOf (Js.matchAfter "time " false line) ∧
    fieldOf None = null ∧
    (scoreOf line = None → currentEvaluation m = Some r) ∧
    (is_Some (scoreOf line) → r = length (heap m)).
Proof.
  intros m'. unfold m'. rewrite handleInfoLine_steps.
  set (m1 := match scoreOf line with Some (ty, v) => newEvaluation ty v m | None => m end).
  assert (emitted m1 = emitted m) as Em1.
  { unfold m1. repeat case_match; [|done]. by rewrite (frame_newEvaluation emitted) by ign_tac. }
  cbv zeta. destruct (currentEvaluation m1) as [r|] eqn:Hc; [|by rewrite Em1].
  destruct (hasDepthOrNodes line); [|by rewrite Em1].
  set (m2 := set_heap (alter (withFields line) r (heap m1)) m1).
  rewrite emit_evaluation_emitted.
  rewrite (frame_emit_evaluation currentEvaluation), (frame_emit_evaluation heap) by ign_tac.
  assert (emitted m2 = emitted m) as -> by done.
  destruct (heap m2 !! r) as [o|] eqn:Ho; [|by rewrite app_nil_r].
  intros _. exists r, o.
  assert (∃ o0, o = withFields line o0) as [o0 Eo].
  { change (heap m2) with (alter (withFields line) r (heap m1)) in Ho.
    rewrite list_lookup_alter in Ho.
    rewrite decide_True in Ho by done.
    apply fmap_Some in Ho as (o0 & _ & ->). by exists o0. }
  split_and!; try done; try by rewrite Eo.
  - intros Hs. unfold m1 in Hc. by rewrite Hs in Hc.
  - intros [[ty v] Hs]. unfold m1 in Hc. rewrite Hs in Hc. simpl in Hc. congruence.
Qed.

Lemma evaluation_update_overwrites_fields_witness :
  let m := handleInfoLine "info depth 12 score cp 34 nodes 1000 time 50" constructor in
  ∃ o, emitted (handleInfoLine "info depth 13" m) = emitted m ++ [ev_evaluation 0%nat o] ∧
       ev_depth o = num 13 ∧ ev_nodes o = null ∧ ev_time o = null.
Proof.
  intros m.
  destruct (evaluation_update_overwrites_fields m "info depth 13")
    as (r & o & E & Hc & _ & Hd & Hn & Ht & _ & Hsame & _); [by vm_compute|].
  specialize (Hsame eq_refl).
  assert (r = 0%nat) as -> by (vm_compute in Hsame; congruence).
  exists o. by split_and!.
Defined.

(** C9, as the specification has it, fails in its last part: two updates
    from two lines with a score carry two different objects, the second one
    allocated by the second line; the first object keeps what it had. *)
Lemma scored_updates_emit_distinct_objects :
  let m := run [a_stdout "info depth 1 score cp 10 nodes 7";
                a_stdout "info depth 2 score cp 20"] constructor in
  emitted m =
    [ev_evaluation 0 {| ev_type := centipawn; ev_value := 10; ev_depth := num 1;
                        ev_nodes := num 7; ev_time := null |};
     ev_evaluation 1 {| ev_type := centipawn; ev_value := 20; ev_depth := num 2;
                        ev_nodes := null; ev_time := null |}] ∧
  heap m !! 0%nat = Some {| ev_type := centipawn; ev_value := 10; ev_depth := num 1;
                            ev_nodes := num 7; ev_time := null |} ∧
  0%nat ≠ 1%nat.
Proof. by split_and!; vm_compute. Qed.

Lemma alter_keeps_type_value line r0 (h : list Evaluation) r :
  ev_type <$> alter (withFields line) r0 h !! r = ev_type <$> h !! r ∧
  ev_value <$> alter (withFields line) r0 h !! r = ev_value <$> h !! r.
Proof.
  rewrite list_lookup_alter. case_decide; [subst|done].
  by destruct (h !! r).
Qed.

(** C3, as the code has it. An info line in which neither "cp <int>" nor
    "mate <int>" is found never changes which object is the current
    evaluation, nor the type or value of any evaluation. If no evaluation has
    been recorded yet, or the line has neither "depth <int>" nor
    "nodes <int>", the line changes nothing but the console: the evaluation is
    as it was and no 'evaluation' is fired. Otherwise (an evaluation is
    current and the line has a depth or a node count) the [depth], [nodes] and
    [time] of the current evaluation are overwritten from the line and that
    evaluation is fired. *)
Theorem scoreless_info_line (m : Manager) (line : string) :
  Js.startsWith line "info" = true →
  Js.matchAfter "cp " true line = None →
  Js.matchAfter "mate " true line = None →
  let m' := handleLine line m in
  currentEvaluation m' = currentEvaluation m ∧
  (∀ r, ev_type <$> heap m' !! r = ev_type <$> heap m !! r ∧
        ev_value <$> heap m' !! r = ev_value <$> heap m !! r) ∧
  (currentEvaluation m = None ∨ hasDepthOrNodes line = false →
     m' = log (console_log "Stockfish:" line) m ∧
     heap m' = heap m ∧ emitted m' = emitted m) ∧
  (∀ r o, currentEvaluation m = Some r → heap m !! r = Some o →
          hasDepthOrNodes line = true →
     heap m' = <[r := withFields line o]> (heap m) ∧
     emitted m' = emitted m ++ [ev_evaluation r (withFields line o)]).
Proof.
  intros Hinfo Hcp Hmate m'. unfold m'.
  rewrite handleLine_info by done.
  rewrite handleInfoLine_scoreless by by apply scoreOf_none.
  set (m0 := log (console_log "Stockfish:" line) m).
  change (currentEvaluation m0) with (currentEvaluation m).
  change (heap m0) with (heap m).
  destruct (currentEvaluation m) as [r0|] eqn:Hc.
  - destruct (hasDepthOrNodes line) eqn:Hd.
    + split_and!.
      * by rewrite (frame_emit_evaluation currentEvaluation) by ign_tac.
      * intros r. rewrite (frame_emit_evaluation heap) by ign_tac.
        apply alter_keeps_type_value.
      * intros [?|?]; done.
      * intros r o E Ho _. injection E as <-.
        rewrite (frame_emit_evaluation heap) by ign_tac.
        rewrite emit_evaluation_emitted. simpl.
        assert (alter (withFields line) r0 (heap m) = <[r0 := withFields line o]> (heap m)) as ->.
        { apply list_eq. intros i. rewrite list_lookup_alter, list_lookup_insert.
          destruct (decide (r0 = i)) as [<-|Hne].
          - rewrite Ho. simpl. rewrite decide_True; [done|].
            split; [done|]. by eapply lookup_lt_Some.
          - rewrite decide_False; [done|]. tauto. }
        rewrite list_lookup_insert_eq by by eapply lookup_lt_Some. done.
    + by split_and!.
  - by split_and!.
Qed.

Lemma scoreless_info_line_witness :
  let m := handleLine "info depth 12 score cp 34 nodes 1000 time 50" constructor in
  handleLine "info string hello" m = log (console_log "Stockfish:" "info string hello") m.
Proof.
  intros m.
  destruct (scoreless_info_line m "info string hello" eq_refl eq_refl eq_refl)
    as (_ & _ & H & _).
  apply H. right. reflexivity.
Defined.

(** C3, as the specification has it, fails: once "info score cp 34" has
    recorded an evaluation, the line "info depth 5 nodes 200", which carries
    no score, changes that evaluation and fires 'evaluation'. *)
Lemma scoreless_info_line_can_update_and_emit :
  let m := handleLine "info score cp 34" constructor in
  let line := "info depth 5 nodes 200" in
  Js.matchAfter "cp " true line = None ∧
  Js.matchAfter "mate " true line = None ∧
  heap m = [{| ev_type := centipawn; ev_value := 34; ev_depth := undefined;
               ev_nodes := undefined; ev_time := undefined |}] ∧
  emitted m = [] ∧
  heap (handleLine line m) =
    [{| ev_type := centipawn; ev_value := 34; ev_depth := num 5;
        ev_nodes := num 200; ev_time := null |}] ∧
  emitted (handleLine line m) =
    [ev_evaluation 0 {| ev_type := centipawn; ev_value := 34; ev_depth := num 5;
                        ev_nodes := num 200; ev_time := null |}].
Proof. by split_and!; vm_compute. Qed.

(** ** Best-move lines *)

Lemma append_cons c s t : String c s +:+ t = String c (s +:+ t).
Proof. done. Qed.

Lemma append_nil t : "" +:+ t = t.
Proof. done. Qed.





Lemma emit_bestmove_emitted mv ev m :
  emitted (emit_bestmove mv ev m) = emitted m ++ [ev_bestmove mv ev].
Proof.
  unfold emit_bestmove. rewrite (frame_foldl emitted); [done|].
  intros. by rewrite (frame_call_bestmove_listener emitted) by ign_tac.
Qed.

Lemma clearTimeout_disarms h m t :
  timers (clearTimeout h m) !! h = Some t → status t ≠ Armed.
Proof.
  unfold clearTimeout. destruct (timers m !! h) as [t0|] eqn:E; [|by rewrite E].
  destruct (status t0) eqn:Es; simpl.
  - rewrite list_lookup_insert_eq by by eapply lookup_lt_Some.
    intros [= <-]. done.
  - rewrite E. intros [= <-]. by rewrite Es.
  - rewrite E. intros [= <-]. by rewrite Es.
Qed.

Lemma clearTimeout_other h h' m :
  h' ≠ h → timers (clearTimeout h m) !! h' = timers m !! h'.
Proof.
  intros Hne. unfold clearTimeout. repeat case_match; try done.
  simpl. by rewrite list_lookup_insert_ne.
Qed.

Lemma handleBestMove_timer line m :
  moveTimeout (handleBestMove line m) = None ∧
  (∀ h t, moveTimeout m = Some h → timers (handleBestMove line m) !! h = Some t →
          status t ≠ Armed) ∧
  (∀ h, moveTimeout m ≠ Some h → timers (handleBestMove line m) !! h = timers m !! h).
Proof.
  unfold handleBestMove.
  rewrite (frame_emit_bestmove moveTimeout), (frame_emit_bestmove timers) by ign_tac.
  destruct (moveTimeout m) as [h0|] eqn:E; simpl; split_and!; try done.
  - intros h t [= <-]. apply clearTimeout_disarms.
  - intros h Hne. apply clearTimeout_other. congruence.
Qed.







(** Outside the grammar of the protocol, [parts[1]] is not the first token:
    two blanks after the marker give the empty string. *)
Example bestmove_after_two_blanks : Js.split " " "bestmove  e2e4" !! 1%nat = Some "".
Proof. reflexivity. Qed.

(** Two calls of [getBestMove] in a row share the one slot [moveTimeout]: the
    best-move line clears the timer of the second call only. *)
Example overlapping_requests_keep_a_timer :
  let m := run [a_initialize "stockfish" true; a_stdout "uciok"; a_stdout "readyok";
                a_getBestMove "startpos" (Some 1000); a_getBestMove "startpos" (Some 500);
                a_stdout "bestmove e2e4"] constructor in
  status <$> timers m = [Armed; Cleared].
Proof. by vm_compute. Qed.

(** ** Promises and timers under the methods *)

Lemma settle_outcome_other req req' o m :
  req' ≠ req → requests (settle req o m) !! req' = requests m !! req'.
Proof.
  intros Hne. unfold settle. repeat case_match; try done.
  simpl. by rewrite list_lookup_insert_ne.
Qed.

Lemma settle_pending req o m :
  outcome <$> requests m !! req = Some Pending →
  outcome <$> requests (settle req o m) !! req = Some o.
Proof.
  intros H. unfold settle.
  destruct (requests m !! req) as [r|] eqn:E; [|done].
  simpl in H. injection H as ->. simpl.
  rewrite list_lookup_insert_eq by by eapply lookup_lt_Some. done.
Qed.

Lemma settle_settled req o m :
  outcome <$> requests m !! req ≠ Some Pending → settle req o m = m.
Proof.
  intros H. unfold settle.
  destruct (requests m !! req) as [r|] eqn:E; [|done].
  simpl in H. by destruct (outcome r).
Qed.

Lemma settle_length req o m : length (requests (settle req o m)) = length (requests m).
Proof. unfold settle. repeat case_match; try done. simpl. by rewrite length_insert. Qed.

Lemma call_evaluation_listener_outcome r o l m req :
  outcome <$> requests (call_evaluation_listener r o l m) !! req =
  outcome <$> requests m !! req.
Proof.
  unfold call_evaluation_listener. destruct l as [|req0 d|]; try done.
  destruct (js_ge (ev_depth o) d); [|done].
  destruct (requests m !! req0) as [q|] eqn:E; [|done]. simpl.
  rewrite list_lookup_insert. case_decide as Hd; [|done].
  destruct Hd as [<- _]. by rewrite E.
Qed.

Lemma call_evaluation_listener_length r o l m :
  length (requests (call_evaluation_listener r o l m)) = length (requests m).
Proof.
  unfold call_evaluation_listener. repeat case_match; try done. simpl.
  by rewrite length_insert.
Qed.

Lemma emit_evaluation_outcome r m req :
  outcome <$> requests (emit_evaluation r m) !! req = outcome <$> requests m !! req.
Proof.
  unfold emit_evaluation. case_match; [|done].
  apply (foldl_invariant (λ m', outcome <$> requests m' !! req = outcome <$> requests m !! req));
    [|done].
  intros l m' <-. apply call_evaluation_listener_outcome.
Qed.

Lemma emit_evaluation_length r m :
  length (requests (emit_evaluation r m)) = length (requests m).
Proof.
  unfold emit_evaluation. case_match; [|done].
  apply (foldl_invariant (λ m', length (requests m') = length (requests m))); [|done].
  intros l m' <-. apply call_evaluation_listener_length.
Qed.

Lemma handleInfoLine_outcome line m req :
  outcome <$> requests (handleInfoLine line m) !! req = outcome <$> requests m !! req.
Proof.
  rewrite handleInfoLine_steps. cbv zeta.
  set (m1 := match scoreOf line with Some (ty, v) => newEvaluation ty v m | None => m end).
  assert (requests m1 = requests m) as <-.
  { unfold m1. by repeat case_match. }
  repeat case_match; try done.
  by rewrite emit_evaluation_outcome.
Qed.

Lemma handleInfoLine_length line m :
  length (requests (handleInfoLine line m)) = length (requests m).
Proof.
  rewrite handleInfoLine_steps. cbv zeta.
  set (m1 := match scoreOf line with Some (ty, v) => newEvaluation ty v m | None => m end).
  assert (requests m1 = requests m) as <-.
  { unfold m1. by repeat case_match. }
  repeat case_match; try done.
  by rewrite emit_evaluation_length.
Qed.

(** ** A best-move request waiting for its answer *)

Lemma awaiting_frame h req ms m m' :
  timers m' = timers m →
  outcome <$> requests m' !! req = outcome <$> requests m !! req →
  awaiting h req ms m → awaiting h req ms m'.
Proof.
  intros E1 E2 (H1 & H2 & H3).
  unfold awaiting. rewrite E1, E2. done.
Qed.

Lemma awaiting_sendCommand h req ms command m :
  awaiting h req ms m → awaiting h req ms (sendCommand command m).
Proof.
  apply awaiting_frame.
  - by rewrite (frame_sendCommand timers) by ign_tac.
  - by rewrite (frame_sendCommand requests) by ign_tac.
Qed.

Lemma awaiting_handleLine h req ms line m :
  Js.startsWith line "bestmove" = false →
  awaiting h req ms m → awaiting h req ms (handleLine line m).
Proof.
  intros Hl Hm. unfold handleLine. rewrite Hl.
  set (m0 := log (console_log "Stockfish:" line) m).
  assert (awaiting h req ms m0) as H0 by by apply (awaiting_frame h req ms m).
  repeat case_match; try done.
  - by apply awaiting_sendCommand.
  - revert H0. apply awaiting_frame.
    + by rewrite (frame_processPendingCommands timers) by ign_tac.
    + by rewrite (frame_processPendingCommands requests) by ign_tac.
  - revert H0. apply awaiting_frame.
    + by rewrite (frame_handleInfoLine timers) by ign_tac.
    + apply handleInfoLine_outcome.
Qed.

Lemma awaiting_in_range h req ms m :
  awaiting h req ms m → (req < length (requests m))%nat ∧ (h < length (timers m))%nat.
Proof.
  intros (H3 & H4 & _). split.
  - destruct (requests m !! req) eqn:E; [|done]. by eapply lookup_lt_Some.
  - by eapply lookup_lt_Some.
Qed.

Lemma awaiting_newPromise h req ms m :
  awaiting h req ms m → awaiting h req ms (newPromise m).2.
Proof.
  intros Hm. destruct (awaiting_in_range _ _ _ _ Hm) as [Hreq _].
  revert Hm. apply awaiting_frame; try done.
  simpl. by rewrite lookup_app_l.
Qed.

Lemma awaiting_reject h req ms req' f m :
  req' ≠ req → awaiting h req ms m → awaiting h req ms (reject req' f m).
Proof.
  intros Hne. apply awaiting_frame.
  - by rewrite (frame_reject timers) by ign_tac.
  - unfold reject. by rewrite settle_outcome_other.
Qed.

Lemma awaiting_getBestMove h req ms fen t m :
  awaiting h req ms m → awaiting h req ms (getBestMove fen t m).
Proof.
  intros Hm. destruct (awaiting_in_range _ _ _ _ Hm) as [Hreq Hh].
  pose proof (awaiting_newPromise _ _ _ _ Hm) as H1.
  unfold getBestMove.
  destruct (newPromise m) as [req' m1] eqn:En.
  assert (req' = length (requests m)) as -> by (unfold newPromise in En; by simplify_eq).
  assert (timers m1 = timers m) as Etm by (unfold newPromise in En; by simplify_eq).
  simpl in H1. case_match.
  { apply awaiting_reject; [lia | done]. }
  destruct H1 as (Ht & Ho & Hothers).
  do 2 apply awaiting_sendCommand.
  split_and!; simpl; try done.
  - rewrite lookup_app_l by (rewrite Etm; lia). done.
  - intros h' t' Hne Hl.
    apply lookup_app_Some in Hl as [Hl | [_ Hl]]; [by eapply Hothers|].
    destruct (h' - length (timers m1))%nat; simpl in Hl; [|done].
    injection Hl as <-. simpl. lia.
Qed.

Lemma awaiting_evaluatePosition h req ms fen d m :
  awaiting h req ms m → awaiting h req ms (evaluatePosition fen d m).
Proof.
  intros Hm. destruct (awaiting_in_range _ _ _ _ Hm) as [Hreq Hh].
  pose proof (awaiting_newPromise _ _ _ _ Hm) as H1.
  unfold evaluatePosition.
  destruct (newPromise m) as [req' m1] eqn:En.
  assert (req' = length (requests m)) as -> by (unfold newPromise in En; by simplify_eq).
  simpl in H1. case_match.
  { apply awaiting_reject; [lia | done]. }
  destruct H1 as (Ht & Ho & Hothers).
  do 2 apply awaiting_sendCommand.
  by split_and!.
Qed.

Lemma awaiting_fireTimer h req ms h' m :
  h' ≠ h → awaiting h req ms m → awaiting h req ms (fireTimer h' m).
Proof.
  intros Hne Hm. unfold fireTimer.
  destruct (timers m !! h') as [t'|] eqn:Et; [|done].
  destruct (status t') eqn:Es; try done.
  pose proof Hm as (Ht & Ho & Hothers).
  apply awaiting_reject; [by eapply Hothers|].
  apply awaiting_sendCommand.
  split_and!; simpl; try done.
  - by rewrite list_lookup_insert_ne.
  - intros h'' t'' Hne' Hl.
    rewrite list_lookup_insert in Hl. case_decide as Hd.
    + destruct Hd as [<- _]. injection Hl as <-. simpl. by eapply Hothers.
    + by eapply Hothers.
Qed.

Lemma awaiting_step h req ms a m :
  quiet h a → awaiting h req ms m → awaiting h req ms (step a m).
Proof.
  intros Ha Hm. destruct a; simpl in *; try done.
  - revert Hm. apply awaiting_frame.
    + by rewrite (frame_initialize timers) by ign_tac.
    + by rewrite (frame_initialize requests) by ign_tac.
  - unfold handleStockfishOutput. fold (linesOf data).
    revert m Hm. induction Ha as [|line lines Hl _ IH]; intros m Hm; simpl; [done|].
    apply IH. by apply awaiting_handleLine.
  - by apply awaiting_fireTimer.
  - by apply awaiting_sendCommand.
  - by apply awaiting_getBestMove.
  - by apply awaiting_evaluatePosition.
  - unfold setSkillLevel. case_match; repeat apply awaiting_sendCommand; done.
  - unfold stop. case_match; [by apply awaiting_sendCommand | done].
  - unfold quit. case_match; [|done].
    by apply (awaiting_sendCommand _ _ _ "quit") in Hm.
Qed.

Lemma awaiting_run h req ms acts : ∀ m,
  Forall (quiet h) acts → awaiting h req ms m → awaiting h req ms (run acts m).
Proof.
  induction acts as [|a acts IH]; intros m Hacts Hm; simpl; [done|].
  apply Forall_cons in Hacts as [Ha Hacts].
  apply IH; [done|]. by apply awaiting_step.
Qed.

(** An accepted [getBestMove] arms its timer. *)
Lemma getBestMove_awaiting fen t m :
  isReady m = true → wellFormed m →
  let m' := getBestMove fen t m in
  moveTimeout m' = Some (length (timers m)) ∧
  awaiting (length (timers m)) (length (requests m)) (default 1000 t + 1000) m'.
Proof.
  intros Hr [Hwf _]. unfold getBestMove, newPromise, setTimeout. simpl. rewrite Hr. simpl.
  split.
  - by rewrite !(frame_sendCommand moveTimeout) by ign_tac.
  - do 2 apply awaiting_sendCommand.
    split_and!; simpl.
    + apply lookup_snoc.
    + by rewrite lookup_snoc.
    + intros h' t' Hne Hl.
      apply lookup_app_Some in Hl as [Hl | [Hge Hl]].
      * apply list_elem_of_lookup_2 in Hl.
        rewrite Forall_forall in Hwf. specialize (Hwf _ Hl). lia.
      * apply lookup_lt_Some in Hl. simpl in Hl. lia.
Qed.

(** The timer of a waiting request fires: [sendCommand('stop')] is called
    once, then the promise is rejected; the timer cannot fire again. *)
Lemma fireTimer_awaiting h req ms m :
  awaiting h req ms m →
  let fired :=
    set_timers (<[h := {| delay := ms; request := req; status := Fired |}]> (timers m)) m in
  fireTimer h m = reject req MoveTimeout (sendCommand "stop" fired) ∧
  outcome <$> requests (fireTimer h m) !! req = Some (Rejected MoveTimeout) ∧
  fireTimer h (fireTimer h m) = fireTimer h m.
Proof.
  intros (Ht & Ho & _) fired.
  assert (fireTimer h m = reject req MoveTimeout (sendCommand "stop" fired)) as E.
  { unfold fireTimer. by rewrite Ht. }
  rewrite E. split_and!; [done | |].
  - unfold reject. apply settle_pending.
    by rewrite (frame_sendCommand requests) by ign_tac.
  - unfold fireTimer at 1.
    rewrite (frame_reject timers), (frame_sendCommand timers) by ign_tac. simpl.
    rewrite list_lookup_insert_eq by by eapply lookup_lt_Some. done.
Qed.

(** Within the life of a process the handle is kept. *)
Lemma step_keeps_process a m :
  sameLifetime a → is_Some (stockfishProcess m) → is_Some (stockfishProcess (step a m)).
Proof.
  intros Ha Hp. destruct a; simpl in *; try done.
  - unfold initialize. case_match; [done|].
    by rewrite (frame_sendCommand stockfishProcess) by ign_tac.
  - unfold handleStockfishOutput. rewrite (frame_foldl stockfishProcess); [done|].
    intros line m'. unfold handleLine.
    repeat case_match; try done.
    + by rewrite (frame_sendCommand stockfishProcess) by ign_tac.
    + by rewrite (frame_processPendingCommands stockfishProcess) by ign_tac.
    + by rewrite (frame_handleBestMove stockfishProcess) by ign_tac.
    + by rewrite (frame_handleInfoLine stockfishProcess) by ign_tac.
  - by rewrite (frame_fireTimer stockfishProcess) by ign_tac.
  - by rewrite (frame_sendCommand stockfishProcess) by ign_tac.
  - by rewrite (frame_getBestMove stockfishProcess) by ign_tac.
  - by rewrite (frame_evaluatePosition stockfishProcess) by ign_tac.
  - by rewrite (frame_setSkillLevel stockfishProcess) by ign_tac.
  - by rewrite (frame_stop stockfishProcess) by ign_tac.
Qed.

Lemma run_stays_live acts : ∀ m,
  Forall sameLifetime acts → isReady m = true → is_Some (stockfishProcess m) →
  isReady (run acts m) = true ∧ is_Some (stockfishProcess (run acts m)).
Proof.
  induction acts as [|a acts IH]; intros m Hacts Hr Hp; simpl; [done|].
  apply Forall_cons in Hacts as [Ha Hacts].
  apply IH; [done | by apply step_stays_ready | by apply step_keeps_process].
Qed.

(** ** Well-formed states *)

Lemma removeListener_subseteq l ls : removeListener l ls ⊆ ls.
Proof.
  induction ls as [|x ls IH]; simpl; [done|].
  destruct (decide (x = l)) as [->|Hne].
  - destruct (bool_decide (l ∈ ls)).
    + intros y [->|Hy]%elem_of_cons; [left | right; by apply IH].
    + intros y Hy. by right.
  - intros y [->|Hy]%elem_of_cons; [left | right; by apply IH].
Qed.

Lemma wellFormed_mono m m' :
  Forall2 (λ t' t, request t' = request t) (timers m') (timers m) →
  onBestmove m' ⊆ onBestmove m → onEvaluation m' ⊆ onEvaluation m →
  (length (requests m) ≤ length (requests m'))%nat →
  wellFormed m → wellFormed m'.
Proof.
  intros Ht Hb He Hlen [H1 H2]. split.
  - revert H1. induction Ht as [|t' t ts' ts E _ IH]; [done|].
    intros [Ht0 Hts]%Forall_cons. constructor; [lia | by apply IH].
  - rewrite Forall_forall in H2 |- *. intros l Hl.
    assert (l ∈ onBestmove m ++ onEvaluation m) as Hl'.
    { apply elem_of_app in Hl as [Hl|Hl]; apply elem_of_app; [left|right]; auto. }
    specialize (H2 l Hl'). lia.
Qed.

Lemma wellFormed_frame m m' :
  timers m' = timers m → onBestmove m' = onBestmove m → onEvaluation m' = onEvaluation m →
  length (requests m') = length (requests m) →
  wellFormed m → wellFormed m'.
Proof.
  intros E1 E2 E3 E4. apply wellFormed_mono; rewrite ?E1, ?E2, ?E3, ?E4; try done.
  by apply Forall_Forall2_diag, Forall_true.
Qed.

Lemma wellFormed_sendCommand command m : wellFormed m → wellFormed (sendCommand command m).
Proof.
  apply wellFormed_frame.
  - by rewrite (frame_sendCommand timers) by ign_tac.
  - by rewrite (frame_sendCommand onBestmove) by ign_tac.
  - by rewrite (frame_sendCommand onEvaluation) by ign_tac.
  - by rewrite (frame_sendCommand requests) by ign_tac.
Qed.

Lemma wellFormed_settle req o m : wellFormed m → wellFormed (settle req o m).
Proof.
  apply wellFormed_frame.
  - by rewrite (frame_settle timers) by ign_tac.
  - by rewrite (frame_settle onBestmove) by ign_tac.
  - by rewrite (frame_settle onEvaluation) by ign_tac.
  - apply settle_length.
Qed.

Lemma insert_same_request h (t t' : Timer) ts :
  ts !! h = Some t → request t' = request t →
  Forall2 (λ t' t, request t' = request t) (<[h := t']> ts) ts.
Proof.
  intros Hl E. apply Forall2_same_length_lookup. split; [by rewrite length_insert|].
  intros i x y Hx Hy. rewrite list_lookup_insert in Hx. case_decide as Hd.
  - destruct Hd as [<- _]. congruence.
  - congruence.
Qed.

Lemma wellFormed_clearTimeout h m : wellFormed m → wellFormed (clearTimeout h m).
Proof.
  unfold clearTimeout. destruct (timers m !! h) as [t|] eqn:E; [|done].
  destruct (status t); try done.
  apply wellFormed_mono; try done. simpl. by eapply insert_same_request.
Qed.

Lemma wellFormed_emit_evaluation r m : wellFormed m → wellFormed (emit_evaluation r m).
Proof.
  apply wellFormed_frame.
  - by rewrite (frame_emit_evaluation timers) by ign_tac.
  - by rewrite (frame_emit_evaluation onBestmove) by ign_tac.
  - by rewrite (frame_emit_evaluation onEvaluation) by ign_tac.
  - apply emit_evaluation_length.
Qed.

Lemma wellFormed_call_bestmove_listener mv ev l m :
  wellFormed m → wellFormed (call_bestmove_listener mv ev l m).
Proof.
  intros Hm. unfold call_bestmove_listener. destruct l; simpl.
  - apply wellFormed_settle. revert Hm. apply wellFormed_mono; simpl; try done.
    + by apply Forall_Forall2_diag, Forall_true.
    + etrans; apply removeListener_subseteq.
  - revert Hm. apply wellFormed_mono; simpl; try done.
    + by apply Forall_Forall2_diag, Forall_true.
    + apply removeListener_subseteq.
  - apply wellFormed_settle. revert Hm. apply wellFormed_mono; simpl; try done.
    + by apply Forall_Forall2_diag, Forall_true.
    + etrans; apply removeListener_subseteq.
    + apply removeListener_subseteq.
Qed.

Lemma wellFormed_emit_bestmove mv ev m : wellFormed m → wellFormed (emit_bestmove mv ev m).
Proof.
  intros Hm. unfold emit_bestmove. apply foldl_invariant.
  - intros l m'. apply wellFormed_call_bestmove_listener.
  - revert Hm. by apply wellFormed_frame.
Qed.

Lemma wellFormed_handleLine line m : wellFormed m → wellFormed (handleLine line m).
Proof.
  intros Hm. unfold handleLine.
  set (m0 := log (console_log "Stockfish:" line) m).
  assert (wellFormed m0) as H0 by done.
  repeat case_match; try done.
  - by apply wellFormed_sendCommand.
  - revert H0. apply wellFormed_frame.
    + by rewrite (frame_processPendingCommands timers) by ign_tac.
    + by rewrite (frame_processPendingCommands onBestmove) by ign_tac.
    + by rewrite (frame_processPendingCommands onEvaluation) by ign_tac.
    + by rewrite (frame_processPendingCommands requests) by ign_tac.
  - unfold handleBestMove. apply wellFormed_emit_bestmove.
    destruct (moveTimeout m0); [|done].
    by apply (wellFormed_clearTimeout _ m0).
  - rewrite handleInfoLine_steps. cbv zeta.
    set (m1 := match scoreOf line with Some (ty, v) => newEvaluation ty v m0 | None => m0 end).
    assert (wellFormed m1) as Hm1 by (unfold m1; by repeat case_match).
    repeat case_match; try done.
    by apply wellFormed_emit_evaluation.
Qed.

Lemma wellFormed_newPromise m : wellFormed m → wellFormed (newPromise m).2.
Proof.
  apply wellFormed_mono; simpl; try done.
  - by apply Forall_Forall2_diag, Forall_true.
  - rewrite length_app. lia.
Qed.

Lemma wellFormed_step a m : wellFormed m → wellFormed (step a m).
Proof.
  intros Hm. destruct a; simpl; try done.
  - unfold initialize. case_match; [done|]. by apply wellFormed_sendCommand.
  - unfold handleStockfishOutput. apply foldl_invariant; [|done].
    intros line m'. apply wellFormed_handleLine.
  - unfold fireTimer. destruct (timers m !! h) as [t|] eqn:E; [|done].
    destruct (status t); try done.
    apply wellFormed_settle, wellFormed_sendCommand.
    revert Hm. apply wellFormed_mono; try done. simpl. by eapply insert_same_request.
  - by apply wellFormed_sendCommand.
  - pose proof (wellFormed_newPromise m Hm) as [H1 H2].
    unfold getBestMove. destruct (newPromise m) as [req m1] eqn:En.
    assert (req < length (requests m1))%nat as Hreq.
    { unfold newPromise in En. simplify_eq. simpl. rewrite length_app. simpl. lia. }
    simpl in H1, H2. case_match; [by apply wellFormed_settle|].
    do 2 apply wellFormed_sendCommand. split; simpl.
    + apply Forall_app. split; [done|]. by constructor.
    + rewrite <- app_assoc. apply Forall_app in H2 as [H2 H3].
      repeat (apply Forall_app; split); try done. by constructor.
  - pose proof (wellFormed_newPromise m Hm) as [H1 H2].
    unfold evaluatePosition. destruct (newPromise m) as [req m1] eqn:En.
    assert (req < length (requests m1))%nat as Hreq.
    { unfold newPromise in En. simplify_eq. simpl. rewrite length_app. simpl. lia. }
    simpl in H1, H2. case_match; [by apply wellFormed_settle|].
    do 2 apply wellFormed_sendCommand. split; simpl; [done|].
    apply Forall_app in H2 as [H2 H3].
    repeat (apply Forall_app; split); try done; by constructor.
  - unfold setSkillLevel. case_match; repeat apply wellFormed_sendCommand; done.
  - unfold stop. case_match; [by apply wellFormed_sendCommand | done].
  - unfold quit. case_match; [|done].
    by apply (wellFormed_sendCommand "quit") in Hm.
Qed.

Lemma wellFormed_constructor : wellFormed constructor.
Proof. split; constructor. Qed.

(** Every state a manager reaches is well formed. *)
Lemma wellFormed_run acts : ∀ m, wellFormed m → wellFormed (run acts m).
Proof.
  induction acts as [|a acts IH]; intros m Hm; simpl; [done|].
  by apply IH, wellFormed_step.
Qed.

(** C4, as the code has it. A [getBestMove] accepted by a ready manager,
    with a time limit for which the delay asked for, the limit plus 1000 ms,
    lies within 1 .. 2^31 - 1, arms a timer with that delay and keeps its
    handle in [moveTimeout]. As long as no best-move line arrives, whatever
    else happens, that timer stays armed and the promise pending. When the
    timer then fires, [sendCommand('stop')] is called exactly once and the
    promise is rejected with the error "Move calculation timeout"; the timer
    cannot fire a second time. What that one call does depends on the
    process: with a process and the engine ready, as they are when the
    process neither exited nor was quit in between, "stop" is written to the
    process, once; with a process that is no longer ready (it exited), "stop"
    joins the queue and nothing is written; without a process (after [quit])
    nothing is written or queued. *)
Theorem bestmove_times_out (m : Manager) (fen : string) (t : option Z) (acts : list Action) :
  isReady m = true → wellFormed m →
  timerDelay (default 1000 t + 1000) →
  let h := length (timers m) in
  let req := length (requests m) in
  let armed := {| delay := default 1000 t + 1000; request := req; status := Armed |} in
  Forall (quiet h) acts →
  let m1 := getBestMove fen t m in
  let m2 := run acts m1 in
  let m3 := fireTimer h m2 in
  timers m1 !! h = Some armed ∧
  moveTimeout m1 = Some h ∧
  timers m2 !! h = Some armed ∧
  outcome <$> requests m2 !! req = Some Pending ∧
  m3 = reject req MoveTimeout
         (sendCommand "stop"
            (set_timers (<[h := {| delay := default 1000 t + 1000; request := req;
                                   status := Fired |}]> (timers m2)) m2)) ∧
  outcome <$> requests m3 !! req = Some (Rejected MoveTimeout) ∧
  message MoveTimeout = "Move calculation timeout" ∧
  fireTimer h m3 = m3 ∧
  (∀ p, stockfishProcess m2 = Some p → isReady m2 = true →
        stdin m3 = stdin m2 ++ [written p "stop"] ∧
        pendingCommands m3 = pendingCommands m2) ∧
  (is_Some (stockfishProcess m) → Forall sameLifetime acts →
        ∃ p, stockfishProcess m2 = Some p ∧ isReady m2 = true ∧
             stdin m3 = stdin m2 ++ [written p "stop"] ∧
             pendingCommands m3 = pendingCommands m2) ∧
  (∀ p, stockfishProcess m2 = Some p → isReady m2 = false →
        stdin m3 = stdin m2 ∧
        pendingCommands m3 = pendingCommands m2 ++ ["stop"]) ∧
  (stockfishProcess m2 = None →
        stdin m3 = stdin m2 ∧
        pendingCommands m3 = pendingCommands m2).
Proof.
  intros Hr Hwf _ h req armed Hacts m1 m2 m3.
  destruct (getBestMove_awaiting fen t m Hr Hwf) as [Hslot H1].
  fold h req m1 in Hslot, H1.
  pose proof (awaiting_run h req _ acts m1 Hacts H1) as H2. fold m2 in H2.
  pose proof H1 as (Ht1 & _).
  pose proof H2 as (Ht2 & Ho2 & _).
  destruct (fireTimer_awaiting h req _ m2 H2) as (Efire & Ho3 & Hagain).
  fold m3 in Efire, Ho3, Hagain.
  assert (∀ p, stockfishProcess m2 = Some p → isReady m2 = true →
               stdin m3 = stdin m2 ++ [written p "stop"] ∧
               pendingCommands m3 = pendingCommands m2) as Hwritten.
  { intros p Hp Hr2. rewrite Efire.
    rewrite (frame_reject stdin), (frame_reject pendingCommands) by ign_tac.
    by rewrite (sendCommand_writes _ _ p) by auto. }
  split_and!; try done.
  - intros Hp Hlife.
    destruct (run_stays_live acts m1) as [Hr2 [p Hp2]]; [done | | |].
    + unfold m1. by rewrite (frame_getBestMove isReady) by ign_tac.
    + unfold m1. by rewrite (frame_getBestMove stockfishProcess) by ign_tac.
    + fold m2 in Hr2, Hp2. exists p. destruct (Hwritten p Hp2 Hr2). by split_and!.
  - intros p Hp Hr2. rewrite Efire.
    rewrite (frame_reject stdin), (frame_reject pendingCommands) by ign_tac.
    rewrite (sendCommand_queues _ _ p); [done | done | done |].
    intros [?|?]; discriminate.
  - intros Hp. rewrite Efire.
    rewrite (frame_reject stdin), (frame_reject pendingCommands) by ign_tac.
    by rewrite sendCommand_no_process.
Qed.

Lemma bestmove_times_out_witness :
  let m := run [a_initialize "stockfish" true; a_stdout "uciok"; a_stdout "readyok"] constructor in
  let acts := [a_stdout "info depth 1 score cp 20 nodes 30"; a_stdout "readyok"; a_stop] in
  let m2 := run acts (getBestMove "startpos" (Some 1000) m) in
  delay <$> timers m2 !! 0%nat = Some 2000 ∧
  outcome <$> requests (fireTimer 0 m2) !! 0%nat = Some (Rejected MoveTimeout) ∧
  stdin (fireTimer 0 m2) = stdin m2 ++ [written 0 "stop"].
Proof.
  intros m acts m2.
  assert (wellFormed m) as Hwf by apply wellFormed_run, wellFormed_constructor.
  assert (timerDelay (default 1000 (Some 1000) + 1000)) as Hdelay by by_compute.
  assert (Forall (quiet (length (timers m))) acts) as Hacts by by_compute.
  destruct (bestmove_times_out m "startpos" (Some 1000) acts eq_refl Hwf Hdelay Hacts)
    as (_ & _ & Ht & _ & _ & Ho & _ & _ & Hw & _).
  split_and!.
  - fold m2 in Ht. change (length (timers m)) with 0%nat in Ht. by rewrite Ht.
  - exact Ho.
  - by destruct (Hw 0%nat eq_refl eq_refl).
Defined.

(** C4, as the specification has it, fails where the process exited or was
    quit while the request waited: the request times out, but "stop" is not
    sent. After the exit of the process the command joins the queue; after
    [quit] it is dropped. *)
Lemma timeout_without_live_process_sends_no_stop :
  let m := run [a_initialize "stockfish" true; a_stdout "uciok"; a_stdout "readyok";
                a_getBestMove "startpos" (Some 1000)] constructor in
  let exited := run [a_close (Some 1); a_timer 0%nat] m in
  let quitted := run [a_quit; a_timer 0%nat] m in
  outcome <$> requests m !! 0%nat = Some Pending ∧
  outcome <$> requests exited !! 0%nat = Some (Rejected MoveTimeout) ∧
  stdin exited = stdin m ∧
  pendingCommands exited = ["stop"] ∧
  outcome <$> requests quitted !! 0%nat = Some (Rejected MoveTimeout) ∧
  stdin quitted = stdin m ++ [written 0 "quit"] ∧
  pendingCommands quitted = [].
Proof. by split_and!; vm_compute. Qed.

(** ** Evaluation to a target depth *)

Lemma js_ge_qualifies d o : 1 ≤ d → js_ge (ev_depth o) d = qualifies d o.
Proof.
  intros Hd. unfold js_ge, qualifies. destruct (ev_depth o) as [| |n]; [done| |].
  - rewrite Z.geb_leb. apply Z.leb_gt. lia.
  - rewrite Z.geb_leb. case_bool_decide; [by apply Z.leb_le | apply Z.leb_gt; lia].
Qed.

Lemma follow_completed d v ns : follow d (Completed v) ns = Completed v.
Proof. induction ns as [|n ns IH]; [done|]. by destruct n. Qed.

(** The specification's machine, started on nothing retained, ends on the
    last qualifying update fired before the first move result. *)
Lemma follow_lastQualifying d ns : ∀ retained,
  follow d (Tracking retained) ns =
    let pick := match lastQualifying d (updatesBeforeBestmove ns) with
                | Some r => Some r
                | None => retained
                end in
    if bestmoveFired ns then Completed pick else Tracking pick.
Proof.
  induction ns as [|n ns IH]; intros retained; [done|].
  change (follow d (Tracking retained) (n :: ns))
    with (follow d (next d (Tracking retained) n) ns).
  destruct n as [|mv ev|r o|msg].
  - apply IH.
  - apply follow_completed.
  - cbn [next]. rewrite IH.
    change (bestmoveFired (ev_evaluation r o :: ns)) with (bestmoveFired ns).
    cbn [updatesBeforeBestmove lastQualifying].
    destruct (lastQualifying d (updatesBeforeBestmove ns)); [done|].
    by destruct (qualifies d o).
  - apply IH.
Qed.

Lemma lastQualifying_last d ups r :
  lastQualifying d ups = Some r →
  ∃ before o after n,
    ups = before ++ (r, o) :: after ∧
    ev_depth o = num n ∧ d ≤ n ∧
    Forall (λ up, qualifies d up.2 = false) after.
Proof.
  induction ups as [|[r0 o0] ups IH]; simpl; [done|].
  destruct (lastQualifying d ups) as [r'|] eqn:E.
  - intros [= ->]. destruct (IH eq_refl) as (before & o & after & n & -> & ? & ? & ?).
    by exists ((r0, o0) :: before), o, after, n.
  - destruct (qualifies d o0) eqn:Eq; [|done]. intros [= ->].
    unfold qualifies in Eq. destruct (ev_depth o0) as [| |n] eqn:Ed; try done.
    apply bool_decide_eq_true in Eq.
    exists [], o0, ups, n. split_and!; try done.
    clear IH. induction ups as [|[r1 o1] ups IH]; [done|].
    simpl in E. destruct (lastQualifying d ups); [done|].
    destruct (qualifies d o1) eqn:E1; [done|]. constructor; [done | by apply IH].
Qed.

Section Correlation.
Variables (req : nat) (d : Z).
Hypothesis Hd : 1 ≤ d.

Lemma simulates_compose f g :
  simulates req d f → simulates req d g → simulates req d (λ m, g (f m)).
Proof.
  intros Hf Hg m c Hc.
  destruct (Hf m c Hc) as (ns & E & Hc').
  destruct (Hg (f m) _ Hc') as (ns' & E' & Hc'').
  exists (ns ++ ns'). split.
  - by rewrite E', E, app_assoc.
  - unfold follow in *. by rewrite foldl_app.
Qed.

Lemma simulates_id : simulates req d (λ m, m).
Proof. intros m c Hc. exists []. by rewrite app_nil_r. Qed.

Lemma simulates_foldl {B} (f : Manager → B → Manager) (l : list B) :
  (∀ b, simulates req d (λ m, f m b)) → simulates req d (λ m, foldl f m l).
Proof.
  intros Hf. induction l as [|b l IH]; simpl; [apply simulates_id|].
  apply (simulates_compose (λ m, f m b) (λ m, foldl f m l)); [apply Hf | apply IH].
Qed.

Lemma simulates_silent f :
  (∀ m, emitted (f m) = emitted m) →
  (∀ m c, corresponds req d c m → corresponds req d c (f m)) →
  simulates req d f.
Proof.
  intros He Hc m c Hm. exists []. rewrite app_nil_r. split; [apply He | by apply Hc].
Qed.

Lemma corresponds_frame m m' c :
  requests m' = requests m → onEvaluation m' = onEvaluation m →
  onBestmove m' = onBestmove m → timers m' = timers m →
  corresponds req d c m → corresponds req d c m'.
Proof.
  intros E1 E2 E3 E4. destruct c; unfold corresponds, tracking; by rewrite E1, ?E2, ?E3, ?E4.
Qed.

Lemma corresponds_sendCommand command c m :
  corresponds req d c m → corresponds req d c (sendCommand command m).
Proof.
  apply corresponds_frame.
  - by rewrite (frame_sendCommand requests) by ign_tac.
  - by rewrite (frame_sendCommand onEvaluation) by ign_tac.
  - by rewrite (frame_sendCommand onBestmove) by ign_tac.
  - by rewrite (frame_sendCommand timers) by ign_tac.
Qed.

Lemma simulates_sendCommand command : simulates req d (sendCommand command).
Proof.
  apply simulates_silent.
  - intros m. by rewrite (frame_sendCommand emitted) by ign_tac.
  - intros m c. apply corresponds_sendCommand.
Qed.

Lemma simulates_processPendingCommands : simulates req d processPendingCommands.
Proof.
  apply simulates_silent.
  - intros m. by rewrite (frame_processPendingCommands emitted) by ign_tac.
  - intros m c. apply corresponds_frame.
    + by rewrite (frame_processPendingCommands requests) by ign_tac.
    + by rewrite (frame_processPendingCommands onEvaluation) by ign_tac.
    + by rewrite (frame_processPendingCommands onBestmove) by ign_tac.
    + by rewrite (frame_processPendingCommands timers) by ign_tac.
Qed.

(** A promise that is resolved stays as it is. *)
Lemma settle_keeps_resolved req' o m v :
  outcome <$> requests m !! req = Some (Resolved v) →
  outcome <$> requests (settle req' o m) !! req = Some (Resolved v).
Proof.
  intros H. destruct (decide (req' = req)) as [->|Hne].
  - by rewrite settle_settled by by rewrite H.
  - by rewrite settle_outcome_other.
Qed.

(** Settling the promise of another call. *)
Lemma corresponds_settle_other req' o m c :
  req' ≠ req → corresponds req d c m → corresponds req d c (settle req' o m).
Proof.
  intros Hne. destruct c as [fin|v]; simpl.
  - intros (H1 & H2 & H3 & H4 & H5 & H6). unfold tracking.
    rewrite settle_outcome_other by done.
    by rewrite (frame_settle onEvaluation), (frame_settle onBestmove), (frame_settle timers)
      by ign_tac.
  - apply settle_keeps_resolved.
Qed.

Lemma corresponds_in_range c m : corresponds req d c m → (req < length (requests m))%nat.
Proof.
  destruct c; simpl.
  - intros (H & _). by eapply lookup_lt_Some.
  - intros H. destruct (requests m !! req) eqn:E; [|done]. by eapply lookup_lt_Some.
Qed.

Lemma corresponds_newPromise c m :
  corresponds req d c m → corresponds req d c (newPromise m).2.
Proof.
  intros Hc. pose proof (corresponds_in_range c m Hc) as Hlt.
  destruct c; unfold corresponds, tracking in *; simpl.
  - destruct Hc as (H1 & H2). split; [|done]. by rewrite lookup_app_l.
  - by rewrite lookup_app_l.
Qed.
(** The handlers of 'evaluation', called in turn: the promise of [req] stays
    pending, and what [req] retains changes when its handler is among them
    and the update qualifies. *)
Lemma evaluation_listeners_tracking r o ls : ∀ m retained,
  (∀ l, l ∈ ls → listenerReq l = req → l = evaluationHandler req d) →
  requests m !! req = Some {| outcome := Pending; finalEvaluation := retained |} →
  requests (foldl (λ acc l, call_evaluation_listener r o l acc) m ls) !! req =
    Some {| outcome := Pending;
            finalEvaluation :=
              if bool_decide (evaluationHandler req d ∈ ls) && qualifies d o
              then Some r else retained |}.
Proof.
  induction ls as [|l ls IH]; intros m retained Hls Hm; simpl; [done|].
  assert (∀ l', l' ∈ ls → listenerReq l' = req → l' = evaluationHandler req d) as Hls'.
  { intros l' Hl'. apply Hls. by right. }
  destruct (decide (l = evaluationHandler req d)) as [->|Hne].
  - assert (requests (call_evaluation_listener r o (evaluationHandler req d) m) !! req =
            Some {| outcome := Pending;
                    finalEvaluation := if qualifies d o then Some r else retained |}) as E.
    { unfold call_evaluation_listener. rewrite js_ge_qualifies by done.
      destruct (qualifies d o); [|done]. rewrite Hm. simpl.
      apply list_lookup_insert_eq. by eapply lookup_lt_Some. }
    rewrite (IH _ _ Hls' E). rewrite (bool_decide_eq_true_2 (_ ∈ _ :: _)) by left.
    by destruct (qualifies d o), (bool_decide (evaluationHandler req d ∈ ls)).
  - assert (requests (call_evaluation_listener r o l m) !! req = requests m !! req) as E.
    { unfold call_evaluation_listener. destruct l as [|req' d'|]; try done.
      destruct (js_ge (ev_depth o) d'); [|done].
      destruct (requests m !! req'); [|done]. simpl.
      apply list_lookup_insert_ne. intros ->.
      apply Hne. apply Hls; [left | done]. }
    rewrite (IH _ retained); [|done| by rewrite E].
    rewrite (bool_decide_ext (evaluationHandler req d ∈ l :: ls)
                             (evaluationHandler req d ∈ ls)); [done|].
    rewrite elem_of_cons. split; [intros [El|?]; [by destruct Hne | done] | by right].
Qed.

Lemma call_bestmove_listener_keeps_resolved mv ev l m v :
  outcome <$> requests m !! req = Some (Resolved v) →
  outcome <$> requests (call_bestmove_listener mv ev l m) !! req = Some (Resolved v).
Proof.
  intros H. unfold call_bestmove_listener. destruct l; simpl; [|done|].
  - by apply settle_keeps_resolved.
  - by apply settle_keeps_resolved.
Qed.

Lemma bestmove_listeners_keep_resolved mv ev ls m v :
  outcome <$> requests m !! req = Some (Resolved v) →
  outcome <$> requests (foldl (λ acc l, call_bestmove_listener mv ev l acc) m ls) !! req =
    Some (Resolved v).
Proof.
  intros H.
  apply (foldl_invariant (λ m', outcome <$> requests m' !! req = Some (Resolved v))); [|done].
  intros l m'. apply call_bestmove_listener_keeps_resolved.
Qed.

(** The handlers of 'bestmove', called in turn: the promise of [req] is
    resolved with what [req] retained when its handler is among them. *)
Lemma bestmove_listeners_tracking mv ev ls retained : ∀ m,
  (∀ l, l ∈ ls → listenerReq l = req → l = evalMoveHandler req d) →
  requests m !! req = Some {| outcome := Pending; finalEvaluation := retained |} →
  let m' := foldl (λ acc l, call_bestmove_listener mv ev l acc) m ls in
  if bool_decide (evalMoveHandler req d ∈ ls)
  then outcome <$> requests m' !! req = Some (Resolved (FinalEvaluation retained))
  else requests m' !! req = Some {| outcome := Pending; finalEvaluation := retained |}.
Proof.
  induction ls as [|l ls IH]; intros m Hls Hm; simpl; [done|].
  assert (∀ l', l' ∈ ls → listenerReq l' = req → l' = evalMoveHandler req d) as Hls'.
  { intros l' Hl'. apply Hls. by right. }
  destruct (decide (l = evalMoveHandler req d)) as [->|Hne].
  - rewrite bool_decide_eq_true_2 by left.
    apply bestmove_listeners_keep_resolved.
    unfold call_bestmove_listener. simpl. rewrite Hm. simpl.
    unfold resolve. apply settle_pending. simpl. by rewrite Hm.
  - assert (requests (call_bestmove_listener mv ev l m) !! req = requests m !! req) as E.
    { assert (listenerReq l ≠ req) as Hreq.
      { intros Hreq. apply Hne. apply Hls; [left | done]. }
      unfold call_bestmove_listener. destruct l; simpl in *; try done.
      - unfold resolve. by rewrite settle_outcome_other.
      - unfold resolve. by rewrite settle_outcome_other. }
    specialize (IH (call_bestmove_listener mv ev l m) Hls').
    rewrite E in IH. specialize (IH Hm). simpl in IH.
    rewrite (bool_decide_ext (evalMoveHandler req d ∈ l :: ls) (evalMoveHandler req d ∈ ls));
      [done|].
    rewrite elem_of_cons. split; [intros [El|?]; [by destruct Hne | done] | by right].
Qed.

Lemma simulates_emit_evaluation r : simulates req d (emit_evaluation r).
Proof.
  intros m c Hc. unfold emit_evaluation.
  destruct (heap m !! r) as [o|] eqn:E; [|exists []; by rewrite app_nil_r].
  exists [ev_evaluation r o]. split.
  { rewrite (frame_foldl emitted); [done|].
    intros. by rewrite (frame_call_evaluation_listener emitted) by ign_tac. }
  set (m0 := set_emitted (emitted m ++ [ev_evaluation r o]) m).
  destruct c as [retained|v]; simpl.
  - destruct Hc as (H1 & H2 & H3 & H4 & H5 & H6). unfold tracking.
    rewrite (frame_foldl onEvaluation), (frame_foldl onBestmove), (frame_foldl timers);
      try (intros; by rewrite frame_call_evaluation_listener by ign_tac).
    split_and!; try done.
    rewrite (evaluation_listeners_tracking r o _ m0 retained) by done.
    by rewrite bool_decide_eq_true_2 by done.
  - apply (foldl_invariant
      (λ m', outcome <$> requests m' !! req = Some (Resolved (FinalEvaluation v)))); [|done].
    intros l m' <-. apply call_evaluation_listener_outcome.
Qed.

Lemma simulates_emit_bestmove mv ev : simulates req d (emit_bestmove mv ev).
Proof.
  intros m c Hc. exists [ev_bestmove mv ev]. split; [apply emit_bestmove_emitted|].
  unfold emit_bestmove.
  set (m0 := set_emitted (emitted m ++ [ev_bestmove mv ev]) m).
  destruct c as [retained|v]; simpl.
  - destruct Hc as (H1 & H2 & H3 & H4 & H5 & H6).
    pose proof (bestmove_listeners_tracking mv ev (onBestmove m) retained m0 H5 H1) as H.
    by rewrite bool_decide_eq_true_2 in H by done.
  - by apply bestmove_listeners_keep_resolved.
Qed.

Lemma insert_keeps_requests h (t t' : Timer) (ts : list Timer) :
  ts !! h = Some t → request t' = request t →
  (∀ x, x ∈ ts → request x ≠ req) → ∀ x, x ∈ <[h := t']> ts → request x ≠ req.
Proof.
  intros Hl E Hts x Hx.
  apply list_elem_of_lookup in Hx as [i Hi].
  rewrite list_lookup_insert in Hi. case_decide as Hdec.
  - injection Hi as <-. rewrite E. apply Hts. by eapply list_elem_of_lookup_2.
  - apply Hts. by eapply list_elem_of_lookup_2.
Qed.

Lemma corresponds_clearTimeout h c m :
  corresponds req d c m → corresponds req d c (clearTimeout h m).
Proof.
  unfold clearTimeout. destruct (timers m !! h) as [t|] eqn:E; [|done].
  destruct (status t); try done.
  destruct c; simpl; [|done].
  intros (H1 & H2 & H3 & H4 & H5 & H6). split_and!; try done.
  simpl. by eapply insert_keeps_requests.
Qed.

Lemma simulates_handleBestMove line : simulates req d (handleBestMove line).
Proof.
  intros m c Hc. unfold handleBestMove.
  set (m1 := match moveTimeout m with
             | Some h => set_moveTimeout None (clearTimeout h m)
             | None => m
             end).
  assert (emitted m1 = emitted m) as <-.
  { unfold m1. destruct (moveTimeout m); [|done].
    simpl. by rewrite (frame_clearTimeout emitted) by ign_tac. }
  apply simulates_emit_bestmove.
  unfold m1. destruct (moveTimeout m) as [h|]; [|done].
  by apply (corresponds_clearTimeout h c m) in Hc.
Qed.

Lemma simulates_handleInfoLine line : simulates req d (handleInfoLine line).
Proof.
  intros m c Hc. rewrite handleInfoLine_steps. cbv zeta.
  set (m1 := match scoreOf line with Some (ty, v) => newEvaluation ty v m | None => m end).
  assert (emitted m1 = emitted m) as <- by (unfold m1; by repeat case_match).
  assert (corresponds req d c m1) as Hc1 by (unfold m1; by repeat case_match).
  destruct (currentEvaluation m1) as [r|]; [|by apply simulates_id].
  destruct (hasDepthOrNodes line); [|by apply simulates_id].
  by apply (simulates_emit_evaluation r (set_heap (alter (withFields line) r (heap m1)) m1) c).
Qed.

Lemma simulates_handleLine line : simulates req d (handleLine line).
Proof.
  intros m c Hc. unfold handleLine.
  set (m0 := log (console_log "Stockfish:" line) m).
  assert (emitted m0 = emitted m) as <- by done.
  assert (corresponds req d c m0) as Hc0 by done.
  repeat case_match.
  - by apply simulates_sendCommand.
  - by apply simulates_id.
  - apply (simulates_compose (λ m, emit_ready (set_isReady true m)) processPendingCommands);
      [|apply simulates_processPendingCommands | done].
    intros m' c' Hc'. exists [ev_ready]. split; [done|]. by destruct c'.
  - by apply simulates_handleBestMove.
  - by apply simulates_handleInfoLine.
  - by apply simulates_id.
Qed.

Lemma simulates_getBestMove fen t : simulates req d (getBestMove fen t).
Proof.
  apply simulates_silent.
  - intros m. by rewrite (frame_getBestMove emitted) by ign_tac.
  - intros m c Hc. pose proof (corresponds_in_range c m Hc) as Hlt.
    pose proof (corresponds_newPromise c m Hc) as H1.
    unfold getBestMove. destruct (newPromise m) as [req' m1] eqn:En.
    assert (req' = length (requests m)) as -> by (unfold newPromise in En; by simplify_eq).
    simpl in H1. case_match.
    { apply corresponds_settle_other; [lia | done]. }
    do 2 apply corresponds_sendCommand. destruct c as [retained|v]; simpl; [|done].
    destruct H1 as (R1 & R2 & R3 & R4 & R5 & R6). split_and!; simpl; try done.
    + apply elem_of_app. by left.
    + intros l [Hl | ->%list_elem_of_singleton]%elem_of_app Hreq; [by apply R5|].
      simpl in Hreq. lia.
    + intros x [Hx | ->%list_elem_of_singleton]%elem_of_app; [by apply R6|].
      simpl. lia.
Qed.
Lemma simulates_evaluatePosition fen depth : simulates req d (evaluatePosition fen depth).
Proof.
  apply simulates_silent.
  - intros m. by rewrite (frame_evaluatePosition emitted) by ign_tac.
  - intros m c Hc. pose proof (corresponds_in_range c m Hc) as Hlt.
    pose proof (corresponds_newPromise c m Hc) as H1.
    unfold evaluatePosition. destruct (newPromise m) as [req' m1] eqn:En.
    assert (req' = length (requests m)) as -> by (unfold newPromise in En; by simplify_eq).
    simpl in H1. case_match.
    { apply corresponds_settle_other; [lia | done]. }
    do 2 apply corresponds_sendCommand. destruct c as [retained|v]; simpl; [|done].
    destruct H1 as (R1 & R2 & R3 & R4 & R5 & R6). split_and!; simpl; try done.
    + apply elem_of_app. by left.
    + apply elem_of_app. by left.
    + intros l [Hl | ->%list_elem_of_singleton]%elem_of_app Hreq; [by apply R4|].
      simpl in Hreq. lia.
    + intros l [Hl | ->%list_elem_of_singleton]%elem_of_app Hreq; [by apply R5|].
      simpl in Hreq. lia.
Qed.

Lemma simulates_fireTimer h : simulates req d (fireTimer h).
Proof.
  apply simulates_silent.
  - intros m. by rewrite (frame_fireTimer emitted) by ign_tac.
  - intros m c Hc. unfold fireTimer.
    destruct (timers m !! h) as [t|] eqn:Et; [|done].
    destruct (status t); try done.
    destruct c as [retained|v].
    + apply corresponds_settle_other.
      { destruct Hc as (_ & _ & _ & _ & _ & R6). apply R6.
        by eapply list_elem_of_lookup_2. }
      apply corresponds_sendCommand.
      destruct Hc as (R1 & R2 & R3 & R4 & R5 & R6). split_and!; try done.
      simpl. by eapply insert_keeps_requests.
    + simpl. apply settle_keeps_resolved.
      by rewrite (frame_sendCommand requests) by ign_tac.
Qed.

Lemma simulates_step a : simulates req d (step a).
Proof.
  destruct a.
  - intros m c Hc. cbn [step]. unfold initialize. destruct existsSync; cbn [negb].
    + exists []. rewrite app_nil_r. split.
      * by rewrite (frame_sendCommand emitted) by ign_tac.
      * by apply corresponds_sendCommand.
    + exists [ev_error ("Stockfish binary not found at: " +:+ stockfishPath)].
      split; [done|]. by destruct c.
  - change (step (a_stdout data)) with (handleStockfishOutput data).
    apply simulates_foldl. intros line. apply simulates_handleLine.
  - by apply simulates_silent.
  - by apply simulates_silent.
  - intros m c Hc. exists [ev_error msg]. split; [done|]. by destruct c.
  - apply simulates_fireTimer.
  - apply simulates_sendCommand.
  - apply simulates_getBestMove.
  - apply simulates_evaluatePosition.
  - apply simulates_silent.
    + intros m. cbn [step]. by rewrite (frame_setSkillLevel emitted) by ign_tac.
    + intros m c Hc. cbn [step]. unfold setSkillLevel.
      case_match; repeat apply corresponds_sendCommand; done.
  - apply simulates_silent.
    + intros m. cbn [step]. by rewrite (frame_stop emitted) by ign_tac.
    + intros m c Hc. cbn [step]. unfold stop.
      case_match; [by apply corresponds_sendCommand | done].
  - apply simulates_silent.
    + intros m. cbn [step]. unfold quit. case_match; [|done]. simpl.
      by rewrite (frame_sendCommand emitted) by ign_tac.
    + intros m c Hc. cbn [step]. unfold quit. case_match; [|done].
      by apply (corresponds_sendCommand "quit") in Hc.
Qed.

Lemma simulates_run acts : simulates req d (run acts).
Proof. apply simulates_foldl. intros a. apply simulates_step. Qed.
End Correlation.

(** An accepted [evaluatePosition] starts tracking, with nothing retained. *)
Lemma evaluatePosition_tracking fen depth m :
  isReady m = true → wellFormed m →
  let m' := evaluatePosition fen depth m in
  emitted m' = emitted m ∧
  tracking (length (requests m)) (default 15 depth) None m'.
Proof.
  intros Hr [Hwt Hwl] m'. split.
  { unfold m'. by rewrite (frame_evaluatePosition emitted) by ign_tac. }
  unfold m', evaluatePosition, newPromise. simpl. rewrite Hr. simpl.
  apply (corresponds_sendCommand _ _ _ (Tracking None)).
  apply (corresponds_sendCommand _ _ _ (Tracking None)).
  apply Forall_app in Hwl as [Hwb Hwe].
  rewrite Forall_forall in Hwt. rewrite Forall_forall in Hwb. rewrite Forall_forall in Hwe.
  split_and!; simpl.
  - apply lookup_snoc.
  - apply elem_of_app. right. by left.
  - apply elem_of_app. right. by left.
  - intros l [Hl | ->%list_elem_of_singleton]%elem_of_app Hreq; [|done].
    specialize (Hwe l Hl). lia.
  - intros l [Hl | ->%list_elem_of_singleton]%elem_of_app Hreq; [|done].
    specialize (Hwb l Hl). lia.
  - intros t Ht. specialize (Hwt t Ht). lia.
Qed.

(** C10. Take an [evaluatePosition] with target depth [d ≥ 1] accepted by a
    ready manager, and anything happening afterwards. An update whose [depth]
    is [null] fails the handler's test [evaluation.depth >= depth]. The
    promise stays pending until the first 'bestmove' fired after the call and
    is then resolved, for good, with the object of the last update fired in
    between whose reported depth was a number at least [d] at the time it was
    fired, or with [null] when there was none. *)
Theorem evaluation_resolves_with_last_qualifying (m : Manager) (fen : string)
    (depth : option Z) (acts : list Action) :
  let d := default 15 depth in
  isReady m = true → wellFormed m → 1 ≤ d →
  let req := length (requests m) in
  let m1 := evaluatePosition fen depth m in
  let m2 := run acts m1 in
  let news := drop (length (emitted m1)) (emitted m2) in
  let updates := updatesBeforeBestmove news in
  js_ge null d = false ∧
  emitted m2 = emitted m1 ++ news ∧
  outcome <$> requests m2 !! req =
    Some (if bestmoveFired news
          then Resolved (FinalEvaluation (lastQualifying d updates))
          else Pending) ∧
  (∀ r, lastQualifying d updates = Some r →
        ∃ before o after n,
          updates = before ++ (r, o) :: after ∧
          ev_depth o = num n ∧ d ≤ n ∧
          Forall (λ up, qualifies d up.2 = false) after).
Proof.
  intros d Hr Hwf Hd req m1 m2 news updates.
  destruct (evaluatePosition_tracking fen depth m Hr Hwf) as [_ Ht]. fold m1 req d in Ht.
  destruct (simulates_run req d Hd acts m1 (Tracking None) Ht) as (ns & E & Hc).
  fold m2 in E, Hc.
  assert (news = ns) as ->.
  { unfold news. rewrite E. by rewrite drop_app_length. }
  split_and!.
  - simpl. rewrite Z.geb_leb. apply Z.leb_gt. lia.
  - done.
  - rewrite follow_lastQualifying in Hc. cbv zeta in Hc. fold updates in Hc.
    destruct (bestmoveFired ns); simpl in Hc.
    + by destruct (lastQualifying d updates).
    + destruct Hc as (-> & _). by destruct (lastQualifying d updates).
  - apply lastQualifying_last.
Qed.

Lemma evaluation_resolves_with_last_qualifying_witness :
  let m := run [a_initialize "stockfish" true; a_stdout "uciok"; a_stdout "readyok"] constructor in
  let acts := [a_stdout "info depth 2 score cp 10 nodes 5";
               a_stdout "info score cp 30 nodes 9";
               a_stdout "info depth 3 score cp 12 nodes 50";
               a_stdout "info depth 1 score cp 40 nodes 60";
               a_stdout "bestmove e2e4 ponder e7e5"] in
  outcome <$> requests (run acts (evaluatePosition "startpos" (Some 3) m)) !! 0%nat =
    Some (Resolved (FinalEvaluation (Some 2%nat))).
Proof.
  intros m acts.
  assert (wellFormed m) as Hwf by apply wellFormed_run, wellFormed_constructor.
  destruct (evaluation_resolves_with_last_qualifying m "startpos" (Some 3) acts eq_refl Hwf)
    as (_ & _ & E & _); [simpl; lia|].
  exact E.
Defined.

(** The object a request is resolved with is shared with the manager: a later
    line without a score overwrites its [depth], here below the target. *)
Example resolved_object_is_shared :
  let m := run [a_initialize "stockfish" true; a_stdout "uciok"; a_stdout "readyok";
                a_evaluatePosition "startpos" (Some 3);
                a_stdout "info depth 3 score cp 12 nodes 50";
                a_stdout "info depth 1 currmove e2e4";
                a_stdout "bestmove e2e4"] constructor in
  outcome <$> requests m !! 0%nat = Some (Resolved (FinalEvaluation (Some 0%nat))) ∧
  ev_depth <$> heap m !! 0%nat = Some (num 1).
Proof. by split; vm_compute. Qed.

(** * Further properties of the code *)

(** ** [setSkillLevel] *)

Lemma clampLevel_range level :
  0 ≤ clampLevel level ≤ 20 ∧
  (0 ≤ level ≤ 20 → clampLevel level = level) ∧
  (level < 0 → clampLevel level = 0) ∧
  (20 < level → clampLevel level = 20) ∧
  (clampLevel level <? 20) = bool_decide (level < 20).
Proof.
  unfold clampLevel. split_and!; try lia.
  case_bool_decide; [apply Z.ltb_lt | apply Z.ltb_ge]; lia.
Qed.

(** X1. On a ready manager with a process, [setSkillLevel] writes the skill
    level clamped to 0..20 (the level itself when in range, the nearest bound
    otherwise), followed by the MultiPV option exactly when the level is
    below 20; it queues nothing. *)
Theorem setSkillLevel_writes_clamped_level (m : Manager) (p : nat) (level : Z) :
  stockfishProcess m = Some p → isReady m = true →
  let c := clampLevel level in
  0 ≤ c ≤ 20 ∧
  (0 ≤ level ≤ 20 → c = level) ∧ (level < 0 → c = 0) ∧ (20 < level → c = 20) ∧
  stdin (setSkillLevel level m) =
    stdin m ++ written p ("setoption name Skill Level value " +:+ pretty c)
            :: (if bool_decide (level < 20)
                then [written p "setoption name MultiPV value 1"] else []) ∧
  pendingCommands (setSkillLevel level m) = pendingCommands m.
Proof.
  intros Hp Hr c. subst c.
  destruct (clampLevel_range level) as (H1 & H2 & H3 & H4 & H5).
  split_and!; try done; try lia.
  - unfold setSkillLevel. cbv zeta.
    change (Z.max 0 (Z.min 20 level)) with (clampLevel level). rewrite H5.
    rewrite (sendCommand_writes _ m p) by auto.
    case_bool_decide; [|done].
    rewrite (sendCommand_writes _ _ p) by auto. simpl.
    by rewrite <- app_assoc.
  - unfold setSkillLevel. case_match; rewrite !sendCommand_keeps_queue; auto.
    left. by rewrite (frame_sendCommand isReady) by ign_tac.
Qed.

Lemma setSkillLevel_writes_clamped_level_witness :
  let m := run [a_initialize "stockfish" true; a_stdout "uciok"; a_stdout "readyok"] constructor in
  stdin (setSkillLevel 25 m) = stdin m ++ [written 0 "setoption name Skill Level value 20"] ∧
  stdin (setSkillLevel (-5) m) =
    stdin m ++ [written 0 "setoption name Skill Level value 0";
                written 0 "setoption name MultiPV value 1"].
Proof.
  intros m.
  destruct (setSkillLevel_writes_clamped_level m 0%nat 25 eq_refl eq_refl)
    as (_ & _ & _ & _ & E1 & _).
  destruct (setSkillLevel_writes_clamped_level m 0%nat (-5) eq_refl eq_refl)
    as (_ & _ & _ & _ & E2 & _).
  split; [exact E1 | exact E2].
Defined.

(** ** A manager without a process *)

Lemma sendCommand_idle command m :
  stockfishProcess m = None →
  stockfishProcess (sendCommand command m) = None ∧
  stdin (sendCommand command m) = stdin m ∧
  pendingCommands (sendCommand command m) = pendingCommands m.
Proof. intros Hp. by rewrite sendCommand_no_process. Qed.

Lemma processPendingCommands_loop_idle fuel : ∀ m,
  stockfishProcess m = None →
  stockfishProcess (processPendingCommands_loop fuel m) = None ∧
  stdin (processPendingCommands_loop fuel m) = stdin m.
Proof.
  induction fuel as [|fuel IH]; intros m Hp; simpl; [done|].
  destruct (pendingCommands m) as [|c rest]; [done|].
  destruct (IH (sendCommand c (set_pendingCommands rest m))) as [E1 E2].
  - by rewrite sendCommand_no_process.
  - split; [done|]. rewrite E2. by rewrite sendCommand_no_process.
Qed.

Lemma idleSince_refl m : stockfishProcess m = None → idleSince m m.
Proof. intros Hp. split_and!; auto. Qed.

Lemma idleSince_trans m1 m2 m3 : idleSince m1 m2 → idleSince m2 m3 → idleSince m1 m3.
Proof.
  intros (_ & E1 & Q1) (Hp & E2 & Q2). split_and!; [done | congruence |].
  destruct Q2 as [Q2|Q2]; [|by right]. rewrite Q2. done.
Qed.

Lemma idleSince_frame m m' :
  stockfishProcess m = None →
  stockfishProcess m' = stockfishProcess m → stdin m' = stdin m →
  pendingCommands m' = pendingCommands m → idleSince m m'.
Proof. intros Hp E1 E2 E3. split_and!; [congruence | done | by left]. Qed.

Lemma idleSince_sendCommand command m :
  stockfishProcess m = None → idleSince m (sendCommand command m).
Proof.
  intros Hp. destruct (sendCommand_idle command m Hp) as (E1 & E2 & E3).
  split_and!; auto.
Qed.

Lemma idleSince_handleLine line m :
  stockfishProcess m = None → idleSince m (handleLine line m).
Proof.
  intros Hp. unfold handleLine.
  set (m0 := log (console_log "Stockfish:" line) m).
  assert (idleSince m m0) as H0 by by apply idleSince_frame.
  apply (idleSince_trans _ m0); [done|].
  assert (stockfishProcess m0 = None) as Hp0 by done.
  repeat case_match.
  - by apply idleSince_sendCommand.
  - by apply idleSince_refl.
  - set (m1 := emit_ready (set_isReady true m0)).
    destruct (processPendingCommands_loop_idle (length (pendingCommands m1)) m1) as [E1 E2];
      [done|].
    split_and!; [done | done |]. right.
    apply processPendingCommands_drains. by left.
  - apply idleSince_frame; try done.
    all: by rewrite frame_handleBestMove by ign_tac.
  - apply idleSince_frame; try done.
    all: by rewrite frame_handleInfoLine by ign_tac.
  - by apply idleSince_refl.
Qed.

Lemma idleSince_step a m :
  stockfishProcess m = None → spawnsNothing a → idleSince m (step a m).
Proof.
  intros Hp Ha. destruct a; simpl in *.
  - subst. by apply idleSince_frame.
  - unfold handleStockfishOutput.
    generalize (Js.split "010" (Js.trim data)). intros lines.
    assert (idleSince m m) as H0 by by apply idleSince_refl.
    revert H0. generalize m at 2 4. induction lines as [|line lines IH];
      intros m' Hm'; simpl; [done|].
    apply IH. apply (idleSince_trans _ m'); [done|].
    apply idleSince_handleLine. by destruct Hm'.
  - by apply idleSince_frame.
  - by apply idleSince_frame.
  - by apply idleSince_frame.
  - unfold fireTimer. destruct (timers m !! h) as [t|]; [|by apply idleSince_refl].
    destruct (status t); try by apply idleSince_refl.
    set (m1 := set_timers _ m).
    destruct (sendCommand_idle "stop" m1 Hp) as (E1 & E2 & E3).
    apply idleSince_frame; try done.
    + rewrite (frame_reject stockfishProcess) by ign_tac. congruence.
    + by rewrite (frame_reject stdin) by ign_tac.
    + by rewrite (frame_reject pendingCommands) by ign_tac.
  - by apply idleSince_sendCommand.
  - unfold getBestMove, newPromise, setTimeout. simpl. case_match.
    + apply idleSince_frame; try done.
      all: by rewrite frame_reject by ign_tac.
    + set (m1 := set_onBestmove _ _).
      eapply (idleSince_trans _ (sendCommand _ m1)).
      * apply (idleSince_trans _ m1); [by apply idleSince_frame|].
        by apply idleSince_sendCommand.
      * apply idleSince_sendCommand. by rewrite sendCommand_no_process.
  - unfold evaluatePosition, newPromise. simpl. case_match.
    + apply idleSince_frame; try done.
      all: by rewrite frame_reject by ign_tac.
    + set (m1 := set_onBestmove _ _).
      eapply (idleSince_trans _ (sendCommand _ m1)).
      * apply (idleSince_trans _ m1); [by apply idleSince_frame|].
        by apply idleSince_sendCommand.
      * apply idleSince_sendCommand. by rewrite sendCommand_no_process.
  - unfold setSkillLevel. case_match.
    + eapply idleSince_trans; [by apply idleSince_sendCommand|].
      apply idleSince_sendCommand. by rewrite sendCommand_no_process.
    + by apply idleSince_sendCommand.
  - unfold stop. rewrite Hp. by apply idleSince_refl.
  - unfold quit. rewrite Hp. by apply idleSince_refl.
Qed.

Lemma idleSince_run m0 acts : ∀ m,
  idleSince m0 m → Forall spawnsNothing acts → idleSince m0 (run acts m).
Proof.
  induction acts as [|a acts IH]; intros m Hm Hacts; simpl; [done|].
  apply Forall_cons in Hacts as [Ha Hacts].
  apply IH; [|done]. apply (idleSince_trans _ m); [done|].
  apply idleSince_step; [by destruct Hm | done].
Qed.

(** X2. A manager that holds no process (never initialized, binary not
    found, or after [quit]) writes nothing and queues nothing, whatever is
    called on it and whatever still arrives, until an [initialize] succeeds:
    every command is dropped, and a queue left over can only be emptied. *)
Theorem without_process_nothing_is_sent (m : Manager) (acts : list Action) :
  stockfishProcess m = None → Forall spawnsNothing acts →
  stockfishProcess (run acts m) = None ∧
  stdin (run acts m) = stdin m ∧
  (pendingCommands (run acts m) = pendingCommands m ∨ pendingCommands (run acts m) = []).
Proof.
  intros Hp Hacts. apply (idleSince_run m); [by apply idleSince_refl | done].
Qed.

Lemma without_process_nothing_is_sent_witness :
  let acts := [a_initialize "missing" false; a_setSkillLevel 5; a_stop;
               a_sendCommand "ucinewgame"; a_stdout "readyok";
               a_getBestMove "startpos" None; a_quit] in
  stdin (run acts constructor) = [] ∧
  stockfishProcess (run acts constructor) = None.
Proof.
  intros acts.
  assert (Forall spawnsNothing acts) as Hacts by by_compute.
  destruct (without_process_nothing_is_sent constructor acts eq_refl Hacts) as (E1 & E2 & _).
  by split.
Defined.

(** ** Spawning the engine and the handshake *)

Lemma initialize_spawns path m :
  let m' := initialize path true m in
  stockfishProcess m' = Some (spawned m) ∧
  spawned m' = S (spawned m) ∧
  stdin m' = stdin m ++ [written (spawned m) "uci"] ∧
  pendingCommands m' = pendingCommands m ∧
  isReady m' = isReady m ∧
  emitted m' = emitted m.
Proof.
  intros m'. unfold m', initialize. simpl.
  set (m1 := set_stockfishProcess _ _).
  rewrite (sendCommand_writes "uci" m1 (spawned m)); [done | done |].
  right. by left.
Qed.

Lemma handleLine_uciok m p :
  stockfishProcess m = Some p →
  stockfishProcess (handleLine "uciok" m) = Some p ∧
  stdin (handleLine "uciok" m) = stdin m ++ [written p "isready"] ∧
  pendingCommands (handleLine "uciok" m) = pendingCommands m ∧
  isReady (handleLine "uciok" m) = isReady m ∧
  emitted (handleLine "uciok" m) = emitted m.
Proof.
  intros Hp. unfold handleLine. simpl.
  rewrite (sendCommand_writes "isready" _ p); [done | done |].
  right. by right.
Qed.

(** X3. The handshake. Whatever the state of a manager that is not ready,
    [initialize] on an existing binary spawns a fresh process and writes
    "uci" to it at once; the answer "uciok" makes it write "isready"; the
    answer "readyok" makes it ready, fires 'ready' once and writes what was
    queued, in order, to the new process. Both handshake commands bypass the
    queue. *)
Theorem handshake_completes (m : Manager) (path : string) :
  isReady m = false →
  let p := spawned m in
  let m' := run [a_initialize path true; a_stdout "uciok"; a_stdout "readyok"] m in
  stockfishProcess m' = Some p ∧
  isReady m' = true ∧
  stdin m' = stdin m ++ [written p "uci"; written p "isready"]
                     ++ map (written p) (pendingCommands m) ∧
  pendingCommands m' = [] ∧
  emitted m' = emitted m ++ [ev_ready].
Proof.
  intros Hr p m'.
  destruct (initialize_spawns path m) as (Hp1 & _ & Hw1 & Hq1 & Hr1 & He1).
  set (m1 := initialize path true m) in *.
  destruct (handleLine_uciok m1 p Hp1) as (Hp2 & Hw2 & Hq2 & Hr2 & He2).
  set (m2 := handleLine "uciok" m1) in *.
  assert (isReady m2 = false) as Hr2' by congruence.
  destruct (first_readyok m2 Hr2') as (Hr3 & He3 & Hq3 & Hp3 & Hw3 & _).
  assert (m' = handleLine "readyok" m2) as -> by done.
  split_and!; try done.
  - congruence.
  - rewrite (Hw3 p Hp2), Hw2, Hw1, Hq2, Hq1. by rewrite <- !app_assoc.
  - rewrite He3, He2, He1. done.
Qed.

Lemma handshake_completes_witness :
  stdin (run [a_initialize "stockfish" true; a_stdout "uciok"; a_stdout "readyok"]
           (sendCommand "ucinewgame" constructor)) =
    [written 0 "uci"; written 0 "isready"].
Proof.
  destruct (handshake_completes (sendCommand "ucinewgame" constructor) "stockfish" eq_refl)
    as (_ & _ & E & _).
  exact E.
Defined.

(** X4. [initialize] does not reset readiness and does not stop the process
    it replaces: on a ready manager it spawns a second process, writes only
    "uci" (to the new one), and the manager stays ready, so that the next
    command is written to the new process at once, before that process has
    answered the handshake. *)
Theorem reinitialize_keeps_readiness (m : Manager) (p : nat) (path command : string) :
  isReady m = true → stockfishProcess m = Some p →
  let m' := initialize path true m in
  isReady m' = true ∧
  stockfishProcess m' = Some (spawned m) ∧
  stdin m' = stdin m ++ [written (spawned m) "uci"] ∧
  stdin (sendCommand command m') =
    stdin m ++ [written (spawned m) "uci"; written (spawned m) command] ∧
  pendingCommands (sendCommand command m') = pendingCommands m.
Proof.
  intros Hr Hp m'.
  destruct (initialize_spawns path m) as (Hp1 & _ & Hw1 & Hq1 & Hr1 & _).
  fold m' in Hp1, Hw1, Hq1, Hr1.
  assert (isReady m' = true) as Hr' by congruence.
  split_and!; try done.
  - rewrite (sendCommand_writes _ m' (spawned m)) by auto. simpl.
    rewrite Hw1. by rewrite <- app_assoc.
  - rewrite sendCommand_keeps_queue by auto. done.
Qed.

Lemma reinitialize_keeps_readiness_witness :
  let m := run [a_initialize "stockfish" true; a_stdout "uciok"; a_stdout "readyok"] constructor in
  stdin (sendCommand "go depth 1" (initialize "stockfish" true m)) =
    [written 0 "uci"; written 0 "isready"; written 1 "uci"; written 1 "go depth 1"].
Proof.
  intros m.
  destruct (reinitialize_keeps_readiness m 0%nat "stockfish" "go depth 1" eq_refl eq_refl)
    as (_ & _ & _ & E & _).
  exact E.
Defined.

(** ** Where readiness comes from *)

Lemma handleLine_keeps_readiness line m :
  line ≠ "readyok" → isReady (handleLine line m) = isReady m.
Proof.
  intros Hl. unfold handleLine.
  rewrite (bool_decide_eq_false_2 (line = "readyok")) by done.
  repeat case_match; try done.
  - by rewrite (frame_sendCommand isReady) by ign_tac.
  - by rewrite (frame_handleBestMove isReady) by ign_tac.
  - by rewrite (frame_handleInfoLine isReady) by ign_tac.
Qed.

(** X5. Only a line that is exactly "readyok" makes the manager ready: if
    some event turns [isReady] from false to true, the event is output of the
    engine and one of its lines, as cut by [handleStockfishOutput], is
    "readyok". No method call, timer, exit or error does. *)
Theorem only_readyok_makes_ready (m : Manager) (a : Action) :
  isReady m = false → isReady (step a m) = true →
  ∃ data, a = a_stdout data ∧ "readyok" ∈ linesOf data.
Proof.
  intros Hr Hr'. destruct a; simpl in Hr'.
  - rewrite (frame_initialize isReady) in Hr' by ign_tac. congruence.
  - exists data. split; [done|].
    destruct (decide ("readyok" ∈ linesOf data)) as [|Hn]; [done|].
    exfalso. unfold handleStockfishOutput in Hr'. fold (linesOf data) in Hr'.
    revert m Hr Hr'. induction (linesOf data) as [|line lines IH]; intros m Hr Hr'.
    + simpl in Hr'. congruence.
    + apply not_elem_of_cons in Hn as [Hne Hn]. simpl in Hr'.
      apply (IH Hn (handleLine line m)); [|done].
      rewrite handleLine_keeps_readiness by done. done.
  - simpl in Hr'. congruence.
  - done.
  - simpl in Hr'. congruence.
  - rewrite (frame_fireTimer isReady) in Hr' by ign_tac. congruence.
  - rewrite (frame_sendCommand isReady) in Hr' by ign_tac. congruence.
  - rewrite (frame_getBestMove isReady) in Hr' by ign_tac. congruence.
  - rewrite (frame_evaluatePosition isReady) in Hr' by ign_tac. congruence.
  - rewrite (frame_setSkillLevel isReady) in Hr' by ign_tac. congruence.
  - rewrite (frame_stop isReady) in Hr' by ign_tac. congruence.
  - unfold quit in Hr'. destruct (stockfishProcess m); simpl in Hr'; congruence.
Qed.

Lemma only_readyok_makes_ready_witness :
  ∃ data, a_stdout ("uciok" +:+ newline +:+ "readyok") = a_stdout data ∧
          "readyok" ∈ linesOf data.
Proof.
  apply (only_readyok_makes_ready (initialize "stockfish" true constructor)); reflexivity.
Defined.

(** ** The queue of a ready manager *)

Lemma queueSound_frame m m' :
  isReady m' = isReady m → pendingCommands m' = pendingCommands m →
  queueSound m → queueSound m'.
Proof. intros E1 E2 [H1 H2]. unfold queueSound. by rewrite E1, E2. Qed.

Lemma queueSound_sendCommand command m : queueSound m → queueSound (sendCommand command m).
Proof.
  intros Hm. unfold sendCommand.
  destruct (stockfishProcess m) as [p|]; [|done].
  destruct (isReady m) eqn:Hr; simpl.
  { revert Hm. apply queueSound_frame; simpl; by rewrite ?Hr. }
  case_bool_decide as E1; simpl.
  { revert Hm. apply queueSound_frame; simpl; by rewrite ?Hr. }
  case_bool_decide as E2; simpl.
  { revert Hm. apply queueSound_frame; simpl; by rewrite ?Hr. }
  destruct Hm as [H1 H2]. split; simpl; [by rewrite Hr|].
  apply Forall_app. split; [done|]. constructor; [|done].
  by intros [?|?].
Qed.

Lemma queueSound_handleLine line m : queueSound m → queueSound (handleLine line m).
Proof.
  intros Hm. unfold handleLine.
  set (m0 := log (console_log "Stockfish:" line) m).
  assert (queueSound m0) as H0 by done.
  repeat case_match; try done.
  - by apply queueSound_sendCommand.
  - split.
    + intros _. apply processPendingCommands_drains. by left.
    + rewrite processPendingCommands_drains by by left. constructor.
  - revert H0. apply queueSound_frame; by rewrite frame_handleBestMove by ign_tac.
  - revert H0. apply queueSound_frame; by rewrite frame_handleInfoLine by ign_tac.
Qed.

Lemma queueSound_step a m : queueSound m → queueSound (step a m).
Proof.
  intros Hm. destruct a; simpl.
  - unfold initialize. case_match; [done|]. by apply queueSound_sendCommand.
  - unfold handleStockfishOutput. apply foldl_invariant; [|done].
    intros line m'. apply queueSound_handleLine.
  - done.
  - destruct Hm as [_ H2]. by split.
  - done.
  - unfold fireTimer. destruct (timers m !! h) as [t|]; [|done].
    destruct (status t); try done.
    set (m1 := set_timers _ m).
    assert (queueSound (sendCommand "stop" m1)) as H1 by by apply queueSound_sendCommand.
    revert H1. apply queueSound_frame; by rewrite frame_reject by ign_tac.
  - by apply queueSound_sendCommand.
  - unfold getBestMove, newPromise, setTimeout. simpl. case_match.
    + revert Hm. apply queueSound_frame; by rewrite frame_reject by ign_tac.
    + by do 2 apply queueSound_sendCommand.
  - unfold evaluatePosition, newPromise. simpl. case_match.
    + revert Hm. apply queueSound_frame; by rewrite frame_reject by ign_tac.
    + by do 2 apply queueSound_sendCommand.
  - unfold setSkillLevel. case_match; repeat apply queueSound_sendCommand; done.
  - unfold stop. case_match; [by apply queueSound_sendCommand | done].
  - unfold quit. case_match; [|done].
    destruct (queueSound_sendCommand "quit" m Hm) as [_ H2]. by split.
Qed.

(** X6. In every state a manager reaches, a ready manager has an empty
    queue, and the queue never holds "uci" or "isready": commands wait only
    while the engine is not ready, and the first "readyok" leaves none
    behind. *)
Theorem ready_manager_has_empty_queue (acts : list Action) :
  let m := run acts constructor in
  (isReady m = true → pendingCommands m = []) ∧
  Forall (λ command, ¬ handshake command) (pendingCommands m).
Proof.
  unfold run. apply (foldl_invariant queueSound).
  - intros a m. apply queueSound_step.
  - split; [done | constructor].
Qed.

(** ** Shutting down *)

Lemma quit_twice m : quit (quit m) = quit m.
Proof.
  assert (stockfishProcess (quit m) = None) as H.
  { unfold quit. by destruct (stockfishProcess m) eqn:Hp. }
  unfold quit at 1. by rewrite H.
Qed.

(** X7. The host calls [quit] from two hooks (the window's 'closed' and the
    application's 'before-quit'). The second call changes nothing, and after
    the first one nothing is ever written again, whatever is called, until an
    [initialize] succeeds. *)
Theorem shutdown_hooks_quit_once (host : option Manager) (m : Manager) (acts : list Action) :
  Main.quitEngine (Main.quitEngine host) = Main.quitEngine host ∧
  (Forall spawnsNothing acts → stdin (run acts (quit m)) = stdin (quit m)).
Proof.
  split.
  - destruct host as [m0|]; [|done]. simpl. by rewrite quit_twice.
  - intros Hacts.
    destruct (stockfishProcess m) eqn:Hp.
    + assert (stockfishProcess (quit m) = None) as Hq by (unfold quit; by rewrite Hp).
      assert (idleSince (quit m) (quit m)) as H0 by by apply idleSince_refl.
      by destruct (idleSince_run (quit m) acts (quit m) H0 Hacts) as (_ & E & _).
    + assert (quit m = m) as -> by (unfold quit; by rewrite Hp).
      assert (idleSince m m) as H0 by by apply idleSince_refl.
      by destruct (idleSince_run m acts m H0 Hacts) as (_ & E & _).
Qed.

Lemma shutdown_hooks_quit_once_witness :
  let m := run [a_initialize "stockfish" true; a_stdout "uciok"; a_stdout "readyok"] constructor in
  stdin (run [a_quit; a_stop; a_sendCommand "go depth 3"] (quit m)) =
    [written 0 "uci"; written 0 "isready"; written 0 "quit"].
Proof.
  intros m.
  destruct (shutdown_hooks_quit_once None m [a_quit; a_stop; a_sendCommand "go depth 3"])
    as [_ E].
  rewrite E; [reflexivity | by_compute].
Defined.

(** ** The commands of an analysis request *)

Lemma sendCommand_twice_writes c1 c2 m p :
  stockfishProcess m = Some p → isReady m = true →
  stdin (sendCommand c2 (sendCommand c1 m)) = stdin m ++ [written p c1; written p c2] ∧
  pendingCommands (sendCommand c2 (sendCommand c1 m)) = pendingCommands m.
Proof.
  intros Hp Hr.
  assert (stockfishProcess (sendCommand c1 m) = Some p) as Hp'
    by by rewrite (frame_sendCommand stockfishProcess) by ign_tac.
  assert (isReady (sendCommand c1 m) = true) as Hr'
    by by rewrite (frame_sendCommand isReady) by ign_tac.
  split.
  - rewrite (sendCommand_writes c2 _ p) by auto. simpl.
    rewrite (sendCommand_writes c1 _ p) by auto. simpl. by rewrite <- app_assoc.
  - rewrite !sendCommand_keeps_queue by auto. done.
Qed.

Lemma getBestMove_commands fen t m p :
  stockfishProcess m = Some p → isReady m = true → safeInteger (default 1000 t) →
  stdin (getBestMove fen t m) =
    stdin m ++ [written p ("position fen " +:+ fen);
                written p ("go movetime " +:+ pretty (default 1000 t))].
Proof.
  intros Hp Hr _. unfold getBestMove, newPromise, setTimeout. simpl. rewrite Hr. simpl.
  set (m1 := set_onBestmove _ _).
  by destruct (sendCommand_twice_writes ("position fen " +:+ fen)
    ("go movetime " +:+ pretty (default 1000 t)) m1 p) as [-> _].
Qed.

Lemma evaluatePosition_commands fen d m p :
  stockfishProcess m = Some p → isReady m = true → safeInteger (default 15 d) →
  stdin (evaluatePosition fen d m) =
    stdin m ++ [written p ("position fen " +:+ fen);
                written p ("go depth " +:+ pretty (default 15 d))].
Proof.
  intros Hp Hr _. unfold evaluatePosition, newPromise. simpl. rewrite Hr. simpl.
  set (m1 := set_onBestmove _ _).
  by destruct (sendCommand_twice_writes ("position fen " +:+ fen)
    ("go depth " +:+ pretty (default 15 d)) m1 p) as [-> _].
Qed.

(** X8. An analysis request accepted by a ready manager with a process,
    its time limit or depth an integer below 2^53 in magnitude, writes
    exactly two commands, the position first and the search second:
    "go movetime <limit>" for [getBestMove] (1000 by default), "go depth
    <depth>" for [evaluatePosition] (15 by default), the number in decimal.
    [evaluatePosition] arms no timer and leaves [moveTimeout] alone;
    [getBestMove] arms exactly one. *)
Theorem analysis_request_commands (m : Manager) (p : nat) (fen : string) (t d : option Z) :
  stockfishProcess m = Some p → isReady m = true →
  safeInteger (default 1000 t) → safeInteger (default 15 d) →
  stdin (getBestMove fen t m) =
    stdin m ++ [written p ("position fen " +:+ fen);
                written p ("go movetime " +:+ pretty (default 1000 t))] ∧
  stdin (evaluatePosition fen d m) =
    stdin m ++ [written p ("position fen " +:+ fen);
                written p ("go depth " +:+ pretty (default 15 d))] ∧
  length (timers (getBestMove fen t m)) = S (length (timers m)) ∧
  timers (evaluatePosition fen d m) = timers m ∧
  moveTimeout (evaluatePosition fen d m) = moveTimeout m.
Proof.
  intros Hp Hr Ht Hd. split_and!.
  - by apply getBestMove_commands.
  - by apply evaluatePosition_commands.
  - unfold getBestMove, newPromise, setTimeout. simpl. rewrite Hr. simpl.
    rewrite !(frame_sendCommand timers) by ign_tac. simpl.
    rewrite length_app. simpl. lia.
  - by rewrite (frame_evaluatePosition timers) by ign_tac.
  - by rewrite (frame_evaluatePosition moveTimeout) by ign_tac.
Qed.

Lemma analysis_request_commands_witness :
  let m := run [a_initialize "stockfish" true; a_stdout "uciok"; a_stdout "readyok"] constructor in
  stdin (getBestMove "8/8/8/8/8/8/8/K6k w - - 0 1" (Some 250) m) =
    stdin m ++ [written 0 "position fen 8/8/8/8/8/8/8/K6k w - - 0 1";
                written 0 "go movetime 250"].
Proof.
  intros m.
  assert (safeInteger (default 1000 (Some 250))) as Ht by by_compute.
  assert (safeInteger (default 15 None)) as Hd by by_compute.
  destruct (analysis_request_commands m 0%nat "8/8/8/8/8/8/8/K6k w - - 0 1" (Some 250) None
              eq_refl eq_refl Ht Hd) as (E & _).
  exact E.
Defined.

(** X9. Through the IPC handlers the caller cannot choose the depth of an
    evaluation: 'stockfish-evaluate-position' passes the position only, so
    the search written is always "go depth 15". The handler of
    'stockfish-make-move' passes its time limit on, 1000 when none is given:
    for a limit that is an integer below 2^53 in magnitude the search written
    is "go movetime <limit>", the number in decimal. *)
Theorem ipc_evaluate_searches_depth_15 (m : Manager) (p : nat) (fen : string)
    (timeLimit : option Z) :
  stockfishProcess m = Some p → isReady m = true →
  safeInteger (default 1000 timeLimit) →
  (∃ m', Main.evaluate fen (Some m) = inr (Some m') ∧
         stdin m' = stdin m ++ [written p ("position fen " +:+ fen);
                                written p "go depth 15"]) ∧
  (∃ m', Main.makeMove fen timeLimit (Some m) = inr (Some m') ∧
         stdin m' = stdin m ++ [written p ("position fen " +:+ fen);
                                written p ("go movetime " +:+ pretty (default 1000 timeLimit))]).
Proof.
  intros Hp Hr Ht. split.
  - eexists. split; [done|]. rewrite (evaluatePosition_commands _ _ _ p); [done..|].
    by_compute.
  - eexists. split; [done|]. by rewrite (getBestMove_commands _ _ _ p).
Qed.

Lemma ipc_evaluate_searches_depth_15_witness :
  let m := run [a_initialize "stockfish" true; a_stdout "uciok"; a_stdout "readyok"] constructor in
  ∃ m', Main.evaluate "startpos" (Some m) = inr (Some m') ∧
        stdin m' = stdin m ++ [written 0 "position fen startpos"; written 0 "go depth 15"].
Proof.
  intros m.
  assert (safeInteger (default 1000 None)) as Ht by by_compute.
  destruct (ipc_evaluate_searches_depth_15 m 0%nat "startpos" None eq_refl eq_refl Ht)
    as [E _].
  exact E.
Defined.

(** ** What a run never undoes *)

Lemma run_preorder (R : Manager → Manager → Prop) :
  (∀ m, R m m) → (∀ m1 m2 m3, R m1 m2 → R m2 m3 → R m1 m3) →
  (∀ a m, R m (step a m)) → ∀ acts m, R m (run acts m).
Proof.
  intros Hrefl Htrans Hstep acts. induction acts as [|a acts IH]; intros m; simpl; [done|].
  eapply Htrans; [apply Hstep | apply IH].
Qed.

Lemma foldl_preorder {B} (R : Manager → Manager → Prop) (f : Manager → B → Manager) :
  (∀ m, R m m) → (∀ m1 m2 m3, R m1 m2 → R m2 m3 → R m1 m3) →
  (∀ b m, R m (f m b)) → ∀ l m, R m (foldl f m l).
Proof.
  intros Hrefl Htrans Hf l. induction l as [|b l IH]; intros m; simpl; [done|].
  eapply Htrans; [apply Hf | apply IH].
Qed.

Lemma stdout_or_not a : (∃ data, a = a_stdout data) ∨ (∀ data, a ≠ a_stdout data).
Proof. destruct a; first [left; by eexists | right; by intros ?]. Qed.

(** Only an info line touches the evaluations. *)
Lemma handleLine_evaluations line m :
  (heap (handleLine line m) = heap m ∧
   currentEvaluation (handleLine line m) = currentEvaluation m) ∨
  handleLine line m = handleInfoLine line (log (console_log "Stockfish:" line) m).
Proof.
  unfold handleLine. repeat case_match; try (by right); left.
  - by rewrite (frame_sendCommand heap), (frame_sendCommand currentEvaluation) by ign_tac.
  - done.
  - by rewrite (frame_processPendingCommands heap),
      (frame_processPendingCommands currentEvaluation) by ign_tac.
  - by rewrite (frame_handleBestMove heap), (frame_handleBestMove currentEvaluation)
      by ign_tac.
  - done.
Qed.

Lemma step_evaluations a m :
  (∀ data, a ≠ a_stdout data) →
  heap (step a m) = heap m ∧ currentEvaluation (step a m) = currentEvaluation m.
Proof.
  intros Ha. destruct a; simpl; try done.
  - by rewrite (frame_initialize heap), (frame_initialize currentEvaluation) by ign_tac.
  - by destruct (Ha data).
  - by rewrite (frame_fireTimer heap), (frame_fireTimer currentEvaluation) by ign_tac.
  - by rewrite (frame_sendCommand heap), (frame_sendCommand currentEvaluation) by ign_tac.
  - by rewrite (frame_getBestMove heap), (frame_getBestMove currentEvaluation) by ign_tac.
  - by rewrite (frame_evaluatePosition heap), (frame_evaluatePosition currentEvaluation)
      by ign_tac.
  - by rewrite (frame_setSkillLevel heap), (frame_setSkillLevel currentEvaluation) by ign_tac.
  - by rewrite (frame_stop heap), (frame_stop currentEvaluation) by ign_tac.
  - unfold quit. case_match; [|done]. simpl.
    by rewrite (frame_sendCommand heap), (frame_sendCommand currentEvaluation) by ign_tac.
Qed.

Lemma keepsObjects_refl m : keepsObjects m m.
Proof. intros r o H. by exists o. Qed.

Lemma keepsObjects_trans m1 m2 m3 :
  keepsObjects m1 m2 → keepsObjects m2 m3 → keepsObjects m1 m3.
Proof.
  intros H12 H23 r o H.
  destruct (H12 r o H) as (o2 & H2 & Et & Ev).
  destruct (H23 r o2 H2) as (o3 & H3 & Et' & Ev').
  exists o3. split_and!; [done | congruence | congruence].
Qed.

Lemma keepsObjects_handleInfoLine line m : keepsObjects m (handleInfoLine line m).
Proof.
  rewrite handleInfoLine_steps. cbv zeta.
  set (m1 := match scoreOf line with Some (ty, v) => newEvaluation ty v m | None => m end).
  assert (keepsObjects m m1) as H1.
  { unfold m1. destruct (scoreOf line) as [[ty v]|]; [|apply keepsObjects_refl].
    intros r o H. exists o. split; [|done]. simpl. by apply lookup_app_l_Some. }
  destruct (currentEvaluation m1) as [r0|]; [|done].
  destruct (hasDepthOrNodes line); [|done].
  eapply keepsObjects_trans; [exact H1|].
  intros r o H. rewrite (frame_emit_evaluation heap) by ign_tac. simpl.
  destruct (alter_keeps_type_value line r0 (heap m1) r) as [Et Ev].
  rewrite H in Et, Ev. simpl in Et, Ev.
  destruct (alter (withFields line) r0 (heap m1) !! r) as [o'|]; [|done].
  exists o'. simpl in Et, Ev. split_and!; congruence.
Qed.

Lemma keepsObjects_step a m : keepsObjects m (step a m).
Proof.
  destruct (stdout_or_not a) as [[data ->]|Hne].
  - simpl. unfold handleStockfishOutput.
    apply foldl_preorder; [apply keepsObjects_refl | apply keepsObjects_trans|].
    intros line m'. destruct (handleLine_evaluations line m') as [[E _] | ->].
    + intros r o H. exists o. by rewrite E.
    + eapply keepsObjects_trans; [|apply keepsObjects_handleInfoLine].
      intros r o H. by exists o.
  - destruct (step_evaluations a m) as [E _]; [done|].
    intros r o H. exists o. by rewrite E.
Qed.

(** X10. An evaluation object is never changed in its type or value and
    never dropped, whatever happens to the manager: an info line with a score
    makes a new object, and a line without one overwrites [depth], [nodes]
    and [time] only. What a caller was handed keeps the score it had. *)
Theorem evaluation_objects_keep_their_score (m : Manager) (acts : list Action)
    (r : ref) (o : Evaluation) :
  heap m !! r = Some o →
  ∃ o', heap (run acts m) !! r = Some o' ∧
        ev_type o' = ev_type o ∧ ev_value o' = ev_value o.
Proof.
  revert r o. change (keepsObjects m (run acts m)).
  apply run_preorder; [apply keepsObjects_refl | apply keepsObjects_trans|].
  apply keepsObjects_step.
Qed.

Lemma evaluation_objects_keep_their_score_witness :
  let m := run [a_stdout "info depth 3 score cp 12 nodes 50"] constructor in
  ∃ o', heap (run [a_stdout "info depth 9 nodes 70"; a_stdout "info score mate 2"; a_quit] m)
          !! 0%nat = Some o' ∧
        ev_type o' = centipawn ∧ ev_value o' = 12.
Proof.
  intros m.
  exact (evaluation_objects_keep_their_score m
           [a_stdout "info depth 9 nodes 70"; a_stdout "info score mate 2"; a_quit]
           0%nat _ eq_refl).
Defined.

Lemma keepsEvaluation_handleInfoLine line m : keepsEvaluation m (handleInfoLine line m).
Proof.
  rewrite handleInfoLine_steps. cbv zeta.
  set (m1 := match scoreOf line with Some (ty, v) => newEvaluation ty v m | None => m end).
  assert (keepsEvaluation m m1) as H1.
  { unfold m1. destruct (scoreOf line) as [[ty v]|]; [|by intros ?]. intros _. by eexists. }
  intros H. specialize (H1 H).
  destruct (currentEvaluation m1) as [r0|] eqn:E; [|by rewrite E].
  destruct (hasDepthOrNodes line); [|by rewrite E].
  rewrite (frame_emit_evaluation currentEvaluation) by ign_tac. simpl. by rewrite E.
Qed.

Lemma keepsEvaluation_step a m : keepsEvaluation m (step a m).
Proof.
  destruct (stdout_or_not a) as [[data ->]|Hne].
  - simpl. unfold handleStockfishOutput.
    apply (foldl_preorder keepsEvaluation); [by intros ? ? | |].
    { intros m1 m2 m3 H12 H23 H. by apply H23, H12. }
    intros line m'. destruct (handleLine_evaluations line m') as [[_ E] | ->].
    + intros H. by rewrite E.
    + intros H. by apply keepsEvaluation_handleInfoLine.
  - destruct (step_evaluations a m) as [_ E]; [done|].
    intros H. by rewrite E.
Qed.

(** X11. Once an evaluation has been recorded, the manager has a current
    evaluation for ever: no best move, new request, [stop], [quit], exit
    of the process or new process resets [currentEvaluation] to null, so
    that the evaluation of an earlier search is what a later one starts
    with. *)
Theorem current_evaluation_is_never_reset (m : Manager) (acts : list Action) :
  is_Some (currentEvaluation m) → is_Some (currentEvaluation (run acts m)).
Proof.
  change (keepsEvaluation m (run acts m)).
  apply run_preorder; [by intros ? ? | |apply keepsEvaluation_step].
  intros m1 m2 m3 H12 H23 H. by apply H23, H12.
Qed.

Lemma current_evaluation_is_never_reset_witness :
  let m := run [a_initialize "stockfish" true; a_stdout "uciok"; a_stdout "readyok";
                a_stdout "info depth 3 score cp 12 nodes 50"] constructor in
  is_Some (currentEvaluation
             (run [a_stdout "bestmove e2e4"; a_quit; a_initialize "stockfish" true;
                   a_getBestMove "startpos" None] m)).
Proof.
  intros m. apply (current_evaluation_is_never_reset m). by eexists.
Defined.

Lemma keepsOutcomes_refl m : keepsOutcomes m m.
Proof. by intros req o H _. Qed.

Lemma keepsOutcomes_trans m1 m2 m3 :
  keepsOutcomes m1 m2 → keepsOutcomes m2 m3 → keepsOutcomes m1 m3.
Proof. intros H12 H23 req o H Ho. apply H23; [|done]. by apply H12. Qed.

Lemma keepsOutcomes_frame m m' : requests m' = requests m → keepsOutcomes m m'.
Proof. intros E req o H _. by rewrite E. Qed.

Lemma keepsOutcomes_settle req o m : keepsOutcomes m (settle req o m).
Proof.
  intros req' o' H Ho. destruct (decide (req = req')) as [->|Hne].
  - rewrite settle_settled; [done|]. rewrite H. congruence.
  - by rewrite settle_outcome_other.
Qed.

Lemma keepsOutcomes_newPromise m : keepsOutcomes m (newPromise m).2.
Proof.
  intros req o H _. simpl.
  destruct (requests m !! req) as [q|] eqn:E; [|done].
  by rewrite (lookup_app_l_Some _ _ _ _ E).
Qed.

Lemma keepsOutcomes_sendCommand command m : keepsOutcomes m (sendCommand command m).
Proof. apply keepsOutcomes_frame. by rewrite (frame_sendCommand requests) by ign_tac. Qed.

Lemma keepsOutcomes_emit_bestmove mv ev m : keepsOutcomes m (emit_bestmove mv ev m).
Proof.
  unfold emit_bestmove.
  set (m0 := set_emitted _ m).
  eapply keepsOutcomes_trans; [by apply (keepsOutcomes_frame m m0)|].
  apply foldl_preorder; [apply keepsOutcomes_refl | apply keepsOutcomes_trans|].
  intros l m'. unfold call_bestmove_listener. destruct l; simpl.
  - eapply keepsOutcomes_trans; [|apply keepsOutcomes_settle]. by apply keepsOutcomes_frame.
  - by apply keepsOutcomes_frame.
  - eapply keepsOutcomes_trans; [|apply keepsOutcomes_settle]. by apply keepsOutcomes_frame.
Qed.

Lemma keepsOutcomes_handleLine line m : keepsOutcomes m (handleLine line m).
Proof.
  unfold handleLine. repeat case_match; try (by apply keepsOutcomes_frame).
  - apply keepsOutcomes_frame. by rewrite (frame_sendCommand requests) by ign_tac.
  - apply keepsOutcomes_frame.
    by rewrite (frame_processPendingCommands requests) by ign_tac.
  - unfold handleBestMove.
    eapply keepsOutcomes_trans; [|apply keepsOutcomes_emit_bestmove].
    apply keepsOutcomes_frame. destruct (moveTimeout _); [|done]. simpl.
    by rewrite (frame_clearTimeout requests) by ign_tac.
  - intros req o Ho _. by rewrite handleInfoLine_outcome.
Qed.

Lemma keepsOutcomes_step a m : keepsOutcomes m (step a m).
Proof.
  destruct a; simpl; try (by apply keepsOutcomes_frame).
  - apply keepsOutcomes_frame. by rewrite (frame_initialize requests) by ign_tac.
  - unfold handleStockfishOutput.
    apply foldl_preorder; [apply keepsOutcomes_refl | apply keepsOutcomes_trans|].
    intros line m'. apply keepsOutcomes_handleLine.
  - unfold fireTimer. destruct (timers m !! h) as [t|]; [|apply keepsOutcomes_refl].
    destruct (status t); try apply keepsOutcomes_refl.
    eapply keepsOutcomes_trans; [|apply keepsOutcomes_settle].
    apply keepsOutcomes_frame. by rewrite (frame_sendCommand requests) by ign_tac.
  - apply keepsOutcomes_sendCommand.
  - unfold getBestMove.
    pose proof (keepsOutcomes_newPromise m) as H1.
    destruct (newPromise m) as [req m1]. simpl in H1.
    eapply keepsOutcomes_trans; [exact H1|].
    unfold setTimeout. simpl. case_match; [apply keepsOutcomes_settle|].
    apply keepsOutcomes_frame. by rewrite !(frame_sendCommand requests) by ign_tac.
  - unfold evaluatePosition.
    pose proof (keepsOutcomes_newPromise m) as H1.
    destruct (newPromise m) as [req m1]. simpl in H1.
    eapply keepsOutcomes_trans; [exact H1|].
    case_match; [apply keepsOutcomes_settle|].
    apply keepsOutcomes_frame. by rewrite !(frame_sendCommand requests) by ign_tac.
  - apply keepsOutcomes_frame. by rewrite (frame_setSkillLevel requests) by ign_tac.
  - apply keepsOutcomes_frame. by rewrite (frame_stop requests) by ign_tac.
  - unfold quit. case_match; [|apply keepsOutcomes_refl].
    apply keepsOutcomes_frame. simpl. by rewrite (frame_sendCommand requests) by ign_tac.
Qed.

(** X12. A promise is settled once: the outcome a request has got, a result
    or a failure, is its outcome for ever. A best move that arrives after the
    timeout rejected the request, or a timer that fires after the answer,
    changes nothing for the caller. *)
Theorem settled_request_keeps_its_outcome (m : Manager) (acts : list Action)
    (req : nat) (o : Outcome) :
  outcome <$> requests m !! req = Some o → o ≠ Pending →
  outcome <$> requests (run acts m) !! req = Some o.
Proof.
  revert req o. change (keepsOutcomes m (run acts m)).
  apply run_preorder; [apply keepsOutcomes_refl | apply keepsOutcomes_trans|].
  apply keepsOutcomes_step.
Qed.

Lemma settled_request_keeps_its_outcome_witness :
  let m := run [a_initialize "stockfish" true; a_stdout "uciok"; a_stdout "readyok";
                a_getBestMove "startpos" None; a_timer 0%nat] constructor in
  outcome <$> requests (run [a_stdout "bestmove e2e4"; a_timer 0%nat] m) !! 0%nat =
    Some (Rejected MoveTimeout).
Proof.
  intros m.
  apply (settled_request_keeps_its_outcome m [a_stdout "bestmove e2e4"; a_timer 0%nat]
           0%nat (Rejected MoveTimeout)); [reflexivity | discriminate].
Defined.

(** ** The first command of every process *)

Lemma writesTo_snoc p q data ws :
  writesTo p (ws ++ [(q, data)]) = writesTo p ws ++ (if decide (q = p) then [data] else []).
Proof.
  unfold writesTo. rewrite filter_app, fmap_app. f_equal.
  rewrite filter_cons, filter_nil. simpl. by case_decide.
Qed.

Lemma writesTo_fresh p ws : (∀ w, w ∈ ws → w.1 ≠ p) → writesTo p ws = [].
Proof.
  intros H. unfold writesTo. induction ws as [|w ws IH]; [done|].
  rewrite filter_cons. rewrite decide_False by (apply H; by left).
  apply IH. intros w' Hw'. apply H. by right.
Qed.

Lemma spawnSound_frame m m' :
  stockfishProcess m' = stockfishProcess m → spawned m' = spawned m → stdin m' = stdin m →
  spawnSound m → spawnSound m'.
Proof. intros E1 E2 E3. unfold spawnSound. by rewrite E1, E2, E3. Qed.

Lemma spawnSound_write p data m m' :
  stockfishProcess m = Some p → stockfishProcess m' = stockfishProcess m →
  spawned m' = spawned m → stdin m' = stdin m ++ [(p, data)] →
  spawnSound m → spawnSound m'.
Proof.
  intros Hp E1 E2 E3 (H1 & H2 & H3). unfold spawnSound. rewrite E1, E2, E3.
  split_and!; [done | |].
  - intros w [Hw | ->%list_elem_of_singleton]%elem_of_app; [by apply H2 | by apply H1].
  - intros p' Hp'. destruct (H3 p' Hp') as [rest E].
    rewrite writesTo_snoc, E. eexists. by rewrite <- app_comm_cons.
Qed.

Lemma spawnSound_sendCommand command m : spawnSound m → spawnSound (sendCommand command m).
Proof.
  intros Hm. unfold sendCommand.
  destruct (stockfishProcess m) as [p|] eqn:Hp; [|done].
  case_match; [done|].
  by apply (spawnSound_write p (command +:+ newline) m).
Qed.

Lemma spawnSound_processPendingCommands_loop fuel : ∀ m,
  spawnSound m → spawnSound (processPendingCommands_loop fuel m).
Proof.
  induction fuel as [|fuel IH]; intros m Hm; simpl; [done|].
  destruct (pendingCommands m) as [|command rest]; [done|].
  apply IH, spawnSound_sendCommand. done.
Qed.

Lemma spawnSound_handleLine line m : spawnSound m → spawnSound (handleLine line m).
Proof.
  intros Hm. unfold handleLine.
  repeat case_match; try done.
  - by apply spawnSound_sendCommand.
  - by apply spawnSound_processPendingCommands_loop.
  - revert Hm. apply spawnSound_frame; by rewrite frame_handleBestMove by ign_tac.
  - revert Hm. apply spawnSound_frame; by rewrite frame_handleInfoLine by ign_tac.
Qed.

Lemma spawnSound_initialize path m : spawnSound m → spawnSound (initialize path true m).
Proof.
  intros (H1 & H2 & H3).
  destruct (initialize_spawns path m) as (E1 & E2 & E3 & _).
  unfold spawnSound. rewrite E1, E2, E3. split_and!.
  - intros p [= <-]. lia.
  - intros w [Hw | ->%list_elem_of_singleton]%elem_of_app; [|simpl; lia].
    specialize (H2 w Hw). lia.
  - intros p Hp. unfold written. rewrite writesTo_snoc.
    destruct (decide (p = spawned m)) as [->|Hne].
    + rewrite writesTo_fresh; [rewrite decide_True by done; by eexists|].
      intros w Hw. specialize (H2 w Hw). lia.
    + destruct (H3 p) as [rest E]; [lia|]. rewrite E. eexists. by rewrite <- app_comm_cons.
Qed.

Lemma spawnSound_step a m : spawnSound m → spawnSound (step a m).
Proof.
  intros Hm. destruct a; simpl; try done.
  - destruct existsSync; [by apply spawnSound_initialize | done].
  - unfold handleStockfishOutput. apply foldl_invariant; [|done].
    intros line m'. apply spawnSound_handleLine.
  - unfold fireTimer. destruct (timers m !! h) as [t|]; [|done].
    destruct (status t); try done.
    set (m1 := set_timers _ m).
    assert (spawnSound (sendCommand "stop" m1)) as H1 by by apply spawnSound_sendCommand.
    revert H1. apply spawnSound_frame; by rewrite frame_reject by ign_tac.
  - by apply spawnSound_sendCommand.
  - unfold getBestMove, newPromise, setTimeout. simpl. case_match.
    + revert Hm. apply spawnSound_frame; by rewrite frame_reject by ign_tac.
    + by do 2 apply spawnSound_sendCommand.
  - unfold evaluatePosition, newPromise. simpl. case_match.
    + revert Hm. apply spawnSound_frame; by rewrite frame_reject by ign_tac.
    + by do 2 apply spawnSound_sendCommand.
  - unfold setSkillLevel. case_match; repeat apply spawnSound_sendCommand; done.
  - unfold stop. case_match; [by apply spawnSound_sendCommand | done].
  - unfold quit. case_match; [|done].
    destruct (spawnSound_sendCommand "quit" m Hm) as (_ & H2 & H3). by split_and!.
Qed.

(** X13. Every child process is sent "uci" before anything else: whatever
    the host calls and whenever, the first line written to a process is the
    "uci" of the [initialize] that spawned it, and nothing is ever written to
    a process that was not spawned. *)
Theorem first_command_of_a_process_is_uci (acts : list Action) (p : nat) :
  let m := run acts constructor in
  (p < spawned m)%nat →
  head (writesTo p (stdin m)) = Some ("uci" +:+ newline) ∧
  (∀ w, w ∈ stdin m → (w.1 < spawned m)%nat).
Proof.
  intros m Hp.
  assert (spawnSound m) as (_ & H2 & H3).
  { unfold m, run. apply (foldl_invariant spawnSound).
    - intros a m'. apply spawnSound_step.
    - split_and!; [done | by intros w ?%elem_of_nil | simpl; lia]. }
  split; [|done]. destruct (H3 p Hp) as [rest ->]. done.
Qed.

Lemma first_command_of_a_process_is_uci_witness :
  let m := run [a_initialize "stockfish" true; a_stdout "readyok"; a_sendCommand "go";
                a_initialize "stockfish" true; a_sendCommand "stop"] constructor in
  head (writesTo 1 (stdin m)) = Some ("uci" +:+ newline) ∧
  (∀ w, w ∈ stdin m → (w.1 < spawned m)%nat).
Proof.
  intros m. apply (first_command_of_a_process_is_uci _ 1%nat). vm_compute. lia.
Defined.

(** ** The answer to a best-move request *)

Lemma handleLine_keeps_listeners line m :
  Js.startsWith line "bestmove" = false →
  onBestmove (handleLine line m) = onBestmove m ∧
  moveTimeout (handleLine line m) = moveTimeout m.
Proof.
  intros Hl. unfold handleLine. rewrite Hl.
  repeat case_match; try done.
  - by rewrite (frame_sendCommand onBestmove), (frame_sendCommand moveTimeout) by ign_tac.
  - by rewrite (frame_processPendingCommands onBestmove),
      (frame_processPendingCommands moveTimeout) by ign_tac.
  - by rewrite (frame_handleInfoLine onBestmove), (frame_handleInfoLine moveTimeout)
      by ign_tac.
Qed.

Lemma lines_keep_listeners lines : ∀ m,
  Forall (λ line, Js.startsWith line "bestmove" = false) lines →
  let m' := foldl (λ acc line, handleLine line acc) m lines in
  onBestmove m' = onBestmove m ∧ moveTimeout m' = moveTimeout m.
Proof.
  induction lines as [|line lines IH]; intros m Hl; simpl; [done|].
  apply Forall_cons in Hl as [Hl Hls].
  destruct (IH (handleLine line m) Hls) as [-> ->].
  by apply handleLine_keeps_listeners.
Qed.

(** While no best-move line arrives, the slot [moveTimeout] changes with a
    [getBestMove] only, and the listeners of 'bestmove' are joined by the one
    of an [evaluatePosition] only. *)
Lemma step_keeps_listeners h a m :
  undisturbed h a →
  moveTimeout (step a m) = moveTimeout m ∧
  (onBestmove (step a m) = onBestmove m ∨
   ∃ d, onBestmove (step a m) = onBestmove m ++ [evalMoveHandler (length (requests m)) d]).
Proof.
  intros [Hq Hg]. destruct a; simpl in *; try done.
  - rewrite (frame_initialize onBestmove), (frame_initialize moveTimeout) by ign_tac. auto.
  - destruct (lines_keep_listeners (linesOf data) m Hq) as [E1 E2].
    unfold handleStockfishOutput. fold (linesOf data). rewrite E1, E2. auto.
  - auto.
  - auto.
  - auto.
  - rewrite (frame_fireTimer onBestmove), (frame_fireTimer moveTimeout) by ign_tac. auto.
  - rewrite (frame_sendCommand onBestmove), (frame_sendCommand moveTimeout) by ign_tac. auto.
  - rewrite (frame_evaluatePosition moveTimeout) by ign_tac. split; [done|].
    unfold evaluatePosition, newPromise. simpl. case_match.
    + left. by rewrite (frame_reject onBestmove) by ign_tac.
    + right. exists (default 15 depth).
      by rewrite !(frame_sendCommand onBestmove) by ign_tac.
  - rewrite (frame_setSkillLevel onBestmove), (frame_setSkillLevel moveTimeout) by ign_tac.
    auto.
  - rewrite (frame_stop onBestmove), (frame_stop moveTimeout) by ign_tac. auto.
  - unfold quit. case_match; [|auto]. simpl.
    rewrite (frame_sendCommand onBestmove), (frame_sendCommand moveTimeout) by ign_tac. auto.
Qed.

Lemma expecting_step h req ms a m :
  undisturbed h a →
  expecting h req ms m ∧ moveTimeout m = Some h →
  expecting h req ms (step a m) ∧ moveTimeout (step a m) = Some h.
Proof.
  intros Ha [(Hw & Hin & Honly) Hslot].
  destruct (step_keeps_listeners h a m Ha) as [Em El].
  destruct (awaiting_in_range _ _ _ _ Hw) as [Hreq _].
  split; [|by rewrite Em]. split_and!.
  - apply awaiting_step; [by destruct Ha | done].
  - destruct El as [-> | [d ->]]; [done|]. apply elem_of_app. by left.
  - destruct El as [-> | [d ->]]; [done|].
    intros l [Hl | ->%list_elem_of_singleton]%elem_of_app Hlr; [by apply Honly|].
    simpl in Hlr. lia.
Qed.

Lemma expecting_run h req ms acts : ∀ m,
  Forall (undisturbed h) acts →
  expecting h req ms m ∧ moveTimeout m = Some h →
  expecting h req ms (run acts m) ∧ moveTimeout (run acts m) = Some h.
Proof.
  induction acts as [|a acts IH]; intros m Hacts Hm; simpl; [done|].
  apply Forall_cons in Hacts as [Ha Hacts].
  apply IH; [done|]. by apply expecting_step.
Qed.

Lemma getBestMove_expecting fen t m :
  isReady m = true → wellFormed m →
  let m' := getBestMove fen t m in
  expecting (length (timers m)) (length (requests m)) (default 1000 t + 1000) m' ∧
  moveTimeout m' = Some (length (timers m)).
Proof.
  intros Hr Hwf m'.
  destruct (getBestMove_awaiting fen t m Hr Hwf) as [Hslot Hw].
  split; [|done]. split; [done|].
  destruct Hwf as [_ Hwl]. apply Forall_app in Hwl as [Hwb _].
  rewrite Forall_forall in Hwb.
  unfold m', getBestMove, newPromise, setTimeout. simpl. rewrite Hr. simpl.
  rewrite !(frame_sendCommand onBestmove) by ign_tac. simpl. split.
  - apply elem_of_app. right. by left.
  - intros l [Hl | ->%list_elem_of_singleton]%elem_of_app Hlr; [|done].
    specialize (Hwb l Hl). lia.
Qed.

Lemma keepsOutcomes_call_bestmove_listener mv ev l m :
  keepsOutcomes m (call_bestmove_listener mv ev l m).
Proof.
  unfold call_bestmove_listener. destruct l; simpl.
  - eapply keepsOutcomes_trans; [|apply keepsOutcomes_settle]. by apply keepsOutcomes_frame.
  - by apply keepsOutcomes_frame.
  - eapply keepsOutcomes_trans; [|apply keepsOutcomes_settle]. by apply keepsOutcomes_frame.
Qed.

Lemma keepsOutcomes_bestmove_listeners mv ev ls m :
  keepsOutcomes m (foldl (λ acc l, call_bestmove_listener mv ev l acc) m ls).
Proof.
  apply foldl_preorder; [apply keepsOutcomes_refl | apply keepsOutcomes_trans|].
  intros l m'. apply keepsOutcomes_call_bestmove_listener.
Qed.

(** The handlers of 'bestmove', called in turn: the promise of a pending
    [getBestMove] is resolved with the data of the notification. *)
Lemma bestmove_listeners_expecting mv ev req ls : ∀ m,
  (∀ l, l ∈ ls → listenerReq l = req → l = moveHandler req) →
  moveHandler req ∈ ls →
  outcome <$> requests m !! req = Some Pending →
  outcome <$> requests (foldl (λ acc l, call_bestmove_listener mv ev l acc) m ls) !! req =
    Some (Resolved (MoveData mv ev)).
Proof.
  induction ls as [|l ls IH]; intros m Hls Hin Hm; simpl.
  { by apply elem_of_nil in Hin. }
  destruct (decide (l = moveHandler req)) as [->|Hne].
  - apply keepsOutcomes_bestmove_listeners; [|done].
    unfold call_bestmove_listener. simpl. unfold resolve. by apply settle_pending.
  - apply IH.
    + intros l' Hl'. apply Hls. by right.
    + apply elem_of_cons in Hin as [?|?]; [by subst|done].
    + assert (listenerReq l ≠ req) as Hreq.
      { intros Hreq. apply Hne. apply Hls; [left | done]. }
      unfold call_bestmove_listener. destruct l; simpl in *; try done.
      * unfold resolve. by rewrite settle_outcome_other.
      * unfold resolve. by rewrite settle_outcome_other.
Qed.

(** X14. A [getBestMove] accepted by a ready manager, then anything but a
    best-move line, the firing of its timer or another [getBestMove], then a
    best-move line: the promise is resolved with the move of the line,
    [parts[1]], and the current evaluation of that moment; the timer of the
    request is cleared, so that its callback never runs and no "stop" is
    sent for it. *)
Theorem bestmove_answers_the_request (m : Manager) (fen : string) (t : option Z)
    (acts : list Action) (line : string) :
  isReady m = true → wellFormed m →
  let h := length (timers m) in
  let req := length (requests m) in
  Forall (undisturbed h) acts →
  Js.startsWith line "bestmove" = true →
  let m2 := run acts (getBestMove fen t m) in
  let m3 := handleLine line m2 in
  outcome <$> requests m3 !! req =
    Some (Resolved (MoveData (Js.split " " line !! 1%nat) (currentEvaluation m2))) ∧
  timers m3 !! h =
    Some {| delay := default 1000 t + 1000; request := req; status := Cleared |} ∧
  moveTimeout m3 = None ∧
  fireTimer h m3 = m3.
Proof.
  intros Hr Hwf h req Hacts Hline m2 m3.
  destruct (getBestMove_expecting fen t m Hr Hwf) as [H1 Hs1]. fold h req in H1, Hs1.
  destruct (expecting_run h req _ acts _ Hacts (conj H1 Hs1)) as [H2 Hs2]. fold m2 in H2, Hs2.
  destruct H2 as ((Ht & Ho & _) & Hin & Honly).
  assert (m3 = handleBestMove line (log (console_log "Stockfish:" line) m2)) as E3.
  { unfold m3. by rewrite handleLine_bestmove. }
  set (m2' := log (console_log "Stockfish:" line) m2) in E3.
  assert (timers m3 !! h =
          Some {| delay := default 1000 t + 1000; request := req; status := Cleared |}) as Ht3.
  { rewrite E3. unfold handleBestMove. rewrite (frame_emit_bestmove timers) by ign_tac.
    change (moveTimeout m2') with (moveTimeout m2). rewrite Hs2. simpl.
    unfold clearTimeout. change (timers m2') with (timers m2). rewrite Ht. simpl.
    apply list_lookup_insert_eq. by eapply lookup_lt_Some. }
  split_and!.
  - rewrite E3. unfold handleBestMove, emit_bestmove.
    change (moveTimeout m2') with (moveTimeout m2). rewrite Hs2.
    assert (currentEvaluation (set_moveTimeout None (clearTimeout h m2')) =
            currentEvaluation m2) as ->.
    { simpl. by rewrite (frame_clearTimeout currentEvaluation) by ign_tac. }
    apply bestmove_listeners_expecting.
    + simpl. by rewrite (frame_clearTimeout onBestmove) by ign_tac.
    + simpl. by rewrite (frame_clearTimeout onBestmove) by ign_tac.
    + simpl. by rewrite (frame_clearTimeout requests) by ign_tac.
  - done.
  - rewrite E3. apply handleBestMove_timer.
  - unfold fireTimer. by rewrite Ht3.
Qed.

Lemma bestmove_answers_the_request_witness :
  let m := run [a_initialize "stockfish" true; a_stdout "uciok"; a_stdout "readyok"] constructor in
  let acts := [a_stdout "info depth 1 score cp 20 nodes 30"; a_evaluatePosition "startpos" None;
               a_stop] in
  let m3 := handleLine "bestmove e2e4 ponder e7e5" (run acts (getBestMove "startpos" None m)) in
  outcome <$> requests m3 !! 0%nat = Some (Resolved (MoveData (Some "e2e4") (Some 0%nat))) ∧
  fireTimer 0 m3 = m3.
Proof.
  intros m acts m3.
  assert (wellFormed m) as Hwf by apply wellFormed_run, wellFormed_constructor.
  assert (Forall (undisturbed (length (timers m))) acts) as Hacts by by_compute.
  destruct (bestmove_answers_the_request m "startpos" None acts "bestmove e2e4 ponder e7e5"
              eq_refl Hwf Hacts eq_refl) as (E & _ & _ & F).
  split; [exact E | exact F].
Defined.

(** ** One best-move line answers every request *)

Lemma removeListener_notin l ls : l ∉ ls → removeListener l ls = ls.
Proof.
  induction ls as [|x ls IH]; intros Hl; simpl; [done|].
  apply not_elem_of_cons in Hl as [Hne Hl].
  rewrite decide_False by done. by rewrite IH.
Qed.

Lemma removeListener_head l ls : l ∉ ls → removeListener l (l :: ls) = ls.
Proof.
  intros Hl. simpl. rewrite decide_True by done.
  by rewrite bool_decide_eq_false_2.
Qed.

Lemma call_bestmove_listener_onBestmove mv ev l ls m :
  onBestmove m = l :: ls → l ∉ ls →
  onBestmove (call_bestmove_listener mv ev l m) = ls.
Proof.
  intros E Hl. unfold call_bestmove_listener. destruct l; simpl.
  - rewrite (frame_resolve onBestmove) by ign_tac. simpl.
    by rewrite E, removeListener_head, removeListener_notin.
  - by rewrite E, removeListener_head.
  - rewrite (frame_resolve onBestmove) by ign_tac. simpl.
    by rewrite E, removeListener_head, removeListener_notin.
Qed.

Lemma call_bestmove_listener_length mv ev l m :
  length (requests (call_bestmove_listener mv ev l m)) = length (requests m).
Proof.
  unfold call_bestmove_listener. destruct l; simpl; [|done|].
  - unfold resolve. by rewrite settle_length.
  - unfold resolve. by rewrite settle_length.
Qed.

Lemma settle_settles req o m :
  (req < length (requests m))%nat → o ≠ Pending → settledIn req (settle req o m).
Proof.
  intros Hlt Ho. unfold settledIn.
  destruct (lookup_lt_is_Some_2 _ _ Hlt) as [q Hq].
  destruct (outcome q) as [|v|f] eqn:Hp.
  - exists o. split; [|done]. apply settle_pending. by rewrite Hq, <- Hp.
  - exists (Resolved v). split; [|done].
    rewrite settle_settled; rewrite Hq; simpl; congruence.
  - exists (Rejected f). split; [|done].
    rewrite settle_settled; rewrite Hq; simpl; congruence.
Qed.

Lemma call_bestmove_listener_settles mv ev l m :
  isMoveListener l → (listenerReq l < length (requests m))%nat →
  settledIn (listenerReq l) (call_bestmove_listener mv ev l m).
Proof.
  intros Hl Hlt. unfold call_bestmove_listener. destruct l; simpl in *; [|done|].
  - by apply settle_settles.
  - by apply settle_settles.
Qed.

Lemma settledIn_kept req m m' : keepsOutcomes m m' → settledIn req m → settledIn req m'.
Proof. intros Hk (o & Ho & Hne). exists o. split; [by apply Hk | done]. Qed.

(** The handlers of 'bestmove', each registered once, called in turn: every
    one has removed itself, and the promise of every one is settled. *)
Lemma bestmove_listeners_all_answered mv ev ls : ∀ m,
  onBestmove m = ls → NoDup ls → Forall isMoveListener ls →
  Forall (λ l, (listenerReq l < length (requests m))%nat) ls →
  let m' := foldl (λ acc l, call_bestmove_listener mv ev l acc) m ls in
  onBestmove m' = [] ∧ Forall (λ l, settledIn (listenerReq l) m') ls.
Proof.
  induction ls as [|l ls IH]; intros m E Hnd Hml Hlt; simpl; [done|].
  apply NoDup_cons in Hnd as [Hl Hnd].
  apply Forall_cons in Hml as [Hm Hml].
  apply Forall_cons in Hlt as [Hlt Hlts].
  destruct (IH (call_bestmove_listener mv ev l m)) as [E' Hs]; try done.
  - by apply call_bestmove_listener_onBestmove.
  - by rewrite call_bestmove_listener_length.
  - split; [done|]. constructor; [|done].
    eapply settledIn_kept; [apply keepsOutcomes_bestmove_listeners|].
    by apply call_bestmove_listener_settles.
Qed.

Lemma handleBestMove_all_answered line m :
  distinctListeners m →
  let m' := handleBestMove line m in
  onBestmove m' = [] ∧ Forall (λ l, settledIn (listenerReq l) m') (onBestmove m).
Proof.
  intros ([_ Hwl] & Hnd & Hml). apply Forall_app in Hwl as [Hwb _].
  unfold handleBestMove, emit_bestmove.
  set (m1 := match moveTimeout m with
             | Some h => set_moveTimeout None (clearTimeout h m)
             | None => m
             end).
  assert (onBestmove m1 = onBestmove m ∧ requests m1 = requests m) as [Eb Er].
  { unfold m1. destruct (moveTimeout m); [|done]. simpl.
    by rewrite (frame_clearTimeout onBestmove), (frame_clearTimeout requests) by ign_tac. }
  rewrite Eb.
  apply bestmove_listeners_all_answered; try done. simpl. by rewrite Er.
Qed.

Lemma distinctListeners_frame m m' :
  wellFormed m' → onBestmove m' = onBestmove m → distinctListeners m → distinctListeners m'.
Proof. intros Hwf E (_ & H2 & H3). unfold distinctListeners. by rewrite E. Qed.

Lemma distinctListeners_handleLine line m :
  distinctListeners m → distinctListeners (handleLine line m).
Proof.
  intros Hm. pose proof Hm as (Hwf & _).
  pose proof (wellFormed_handleLine line m Hwf) as Hwf'.
  destruct (Js.startsWith line "bestmove") eqn:Hl.
  - split; [done|]. rewrite handleLine_bestmove by done.
    destruct (handleBestMove_all_answered line (log (console_log "Stockfish:" line) m))
      as [-> _]; [done|].
    split; constructor.
  - revert Hm. apply distinctListeners_frame; [done|].
    by apply handleLine_keeps_listeners.
Qed.

Lemma distinctListeners_register l m m' :
  wellFormed m' → isMoveListener l → listenerReq l = length (requests m) →
  onBestmove m' = onBestmove m ++ [l] → distinctListeners m → distinctListeners m'.
Proof.
  intros Hwf Hl Hreq E ([_ Hwl] & Hnd & Hml). apply Forall_app in Hwl as [Hwb _].
  rewrite Forall_forall in Hwb.
  unfold distinctListeners. rewrite E. split_and!; [done | |].
  - apply NoDup_app. split_and!; [done | | apply NoDup_singleton].
    intros x Hx ->%list_elem_of_singleton. specialize (Hwb _ Hx). lia.
  - apply Forall_app. split; [done|]. by constructor.
Qed.

Lemma distinctListeners_step a m : distinctListeners m → distinctListeners (step a m).
Proof.
  intros Hm. pose proof Hm as (Hwf & _).
  pose proof (wellFormed_step a m Hwf) as Hwf'.
  assert (onBestmove (step a m) = onBestmove m → distinctListeners (step a m)) as Hframe.
  { intros E. revert Hm. by apply distinctListeners_frame. }
  destruct a; simpl in *.
  - apply Hframe. by rewrite (frame_initialize onBestmove) by ign_tac.
  - unfold handleStockfishOutput. apply foldl_invariant; [|done].
    intros line m'. apply distinctListeners_handleLine.
  - by apply Hframe.
  - by apply Hframe.
  - by apply Hframe.
  - apply Hframe. by rewrite (frame_fireTimer onBestmove) by ign_tac.
  - apply Hframe. by rewrite (frame_sendCommand onBestmove) by ign_tac.
  - destruct (isReady m) eqn:Hr.
    + apply (distinctListeners_register (moveHandler (length (requests m))) m); try done.
      unfold getBestMove, newPromise, setTimeout. simpl. rewrite Hr. simpl.
      by rewrite !(frame_sendCommand onBestmove) by ign_tac.
    + apply Hframe.
      unfold getBestMove, newPromise. simpl. rewrite Hr. simpl.
      by rewrite (frame_reject onBestmove) by ign_tac.
  - destruct (isReady m) eqn:Hr.
    + apply (distinctListeners_register
               (evalMoveHandler (length (requests m)) (default 15 depth)) m); try done.
      unfold evaluatePosition, newPromise. simpl. rewrite Hr. simpl.
      by rewrite !(frame_sendCommand onBestmove) by ign_tac.
    + apply Hframe.
      unfold evaluatePosition, newPromise. simpl. rewrite Hr. simpl.
      by rewrite (frame_reject onBestmove) by ign_tac.
  - apply Hframe. by rewrite (frame_setSkillLevel onBestmove) by ign_tac.
  - apply Hframe. by rewrite (frame_stop onBestmove) by ign_tac.
  - apply Hframe. unfold quit. case_match; [|done]. simpl.
    by rewrite (frame_sendCommand onBestmove) by ign_tac.
Qed.

(** X15. In every state a manager reaches, one best-move line answers every
    request that waits for a move, whichever search the line belongs to:
    all the listeners of 'bestmove' are called and gone afterwards, and the
    promise of each is settled. When requests overlap, the first best-move
    line settles them all. *)
Theorem bestmove_line_answers_every_request (acts : list Action) (line : string) :
  Js.startsWith line "bestmove" = true →
  let m := run acts constructor in
  let m' := handleLine line m in
  onBestmove m' = [] ∧
  Forall (λ l, settledIn (listenerReq l) m') (onBestmove m).
Proof.
  intros Hline m m'.
  assert (distinctListeners m) as Hm.
  { unfold m, run. apply (foldl_invariant distinctListeners).
    - intros a m0. apply distinctListeners_step.
    - split_and!; [apply wellFormed_constructor | constructor | constructor]. }
  unfold m'. rewrite handleLine_bestmove by done.
  by apply (handleBestMove_all_answered line (log (console_log "Stockfish:" line) m)).
Qed.

Lemma bestmove_line_answers_every_request_witness :
  let m := run [a_initialize "stockfish" true; a_stdout "uciok"; a_stdout "readyok";
                a_getBestMove "startpos" None; a_evaluatePosition "startpos" None]
               constructor in
  let m' := handleLine "bestmove e2e4" m in
  onBestmove m' = [] ∧ Forall (λ l, settledIn (listenerReq l) m') (onBestmove m).
Proof.
  exact (bestmove_line_answers_every_request
           [a_initialize "stockfish" true; a_stdout "uciok"; a_stdout "readyok";
            a_getBestMove "startpos" None; a_evaluatePosition "startpos" None]
           "bestmove e2e4" eq_refl).
Defined.

(** ** Ready without a process *)

(** X16. [quit] drops the handle of the process but not its listeners. When
    it is called before the engine is ready and the abandoned process then
    answers "readyok", the manager becomes ready and tells the host so, with
    no process: the queue, "quit" included, is emptied without a write, and a
    [getBestMove] made afterwards is accepted and writes nothing, so that only
    its timer can settle it. *)
Theorem readyok_after_quit_makes_ready (m : Manager) (p : nat) (fen : string) (t : option Z) :
  stockfishProcess m = Some p → isReady m = false →
  let m1 := handleStockfishOutput "readyok" (quit m) in
  let m2 := getBestMove fen t m1 in
  isReady m1 = true ∧ stockfishProcess m1 = None ∧
  emitted m1 = emitted m ++ [ev_ready] ∧
  stdin m1 = stdin m ∧ pendingCommands m1 = [] ∧
  outcome <$> requests m2 !! length (requests m) = Some Pending ∧
  timers m2 = timers m ++ [{| delay := default 1000 t + 1000;
                              request := length (requests m); status := Armed |}] ∧
  stdin m2 = stdin m.
Proof.
  intros Hp Hr m1 m2.
  destruct (quit_when_not_ready m p Hp Hr) as (Es & Eq & Ep & Er).
  assert (m1 = handleLine "readyok" (quit m)) as E1 by reflexivity.
  destruct (first_readyok (quit m) Er) as (Hr1 & He1 & Hq1 & Hp1 & _ & Hs1).
  rewrite <- E1 in Hr1, He1, Hq1, Hp1, Hs1.
  rewrite Ep in Hp1. specialize (Hs1 Ep). rewrite Es in Hs1.
  assert (emitted (quit m) = emitted m ∧ requests (quit m) = requests m ∧
          timers (quit m) = timers m) as (Ee & Erq & Et).
  { unfold quit. rewrite Hp. simpl.
    by rewrite (frame_sendCommand emitted), (frame_sendCommand requests),
      (frame_sendCommand timers) by ign_tac. }
  assert (requests m1 = requests m ∧ timers m1 = timers m) as [Erq1 Et1].
  { rewrite E1. unfold handleLine. simpl. rewrite Er.
    by rewrite (frame_processPendingCommands requests),
      (frame_processPendingCommands timers) by ign_tac. }
  rewrite Ee in He1.
  split_and!; try done.
  - unfold m2, getBestMove, newPromise, setTimeout. simpl. rewrite Hr1. simpl.
    rewrite !(frame_sendCommand requests) by ign_tac. simpl.
    by rewrite Erq1, lookup_snoc.
  - unfold m2, getBestMove, newPromise, setTimeout. simpl. rewrite Hr1. simpl.
    rewrite !(frame_sendCommand timers) by ign_tac. simpl. by rewrite Et1, Erq1.
  - unfold m2, getBestMove, newPromise, setTimeout. simpl. rewrite Hr1. simpl.
    rewrite !sendCommand_no_process; [done | done |].
    by rewrite sendCommand_no_process.
Qed.

Lemma readyok_after_quit_makes_ready_witness :
  let m := run [a_initialize "stockfish" true; a_sendCommand "setoption name Hash value 16"]
               constructor in
  let m1 := handleStockfishOutput "readyok" (quit m) in
  isReady m1 = true ∧ stockfishProcess m1 = None ∧ stdin m1 = [written 0 "uci"].
Proof.
  intros m m1.
  destruct (readyok_after_quit_makes_ready m 0%nat "startpos" None eq_refl eq_refl)
    as (H1 & H2 & _ & H3 & _).
  by split_and!.
Defined.

(** ** Chunks and lines *)

Lemma split_nonempty sep s : Js.split sep s ≠ [].
Proof.
  destruct s as [|c s]; simpl; [done|].
  case_decide; [done|]. by destruct (Js.split sep s).
Qed.

Lemma split_app sep a b :
  Js.split sep (a +:+ String sep b) = Js.split sep a ++ Js.split sep b.
Proof.
  induction a as [|c a IH].
  - rewrite append_nil. simpl. by rewrite decide_True.
  - rewrite append_cons. simpl. case_decide; [by rewrite IH|].
    rewrite IH. pose proof (split_nonempty sep a).
    by destruct (Js.split sep a).
Qed.

Lemma trimStart_length s : (String.length (Js.trimStart s) ≤ String.length s)%nat.
Proof.
  induction s as [|c s IH]; simpl; [done|].
  destruct (Js.isWhiteSpace c); simpl; lia.
Qed.

Lemma trimStart_head c s : Js.trimStart (String c s) = String c s → Js.isWhiteSpace c = false.
Proof.
  simpl. destruct (Js.isWhiteSpace c); [|done].
  intros E. pose proof (trimStart_length s) as H. rewrite E in H. simpl in H. lia.
Qed.

Lemma trimStart_app a x : a ≠ "" → Js.trimStart a = a → Js.trimStart (a +:+ x) = a +:+ x.
Proof.
  intros Hne E. destruct a as [|c a]; [done|].
  rewrite append_cons. simpl. by rewrite (trimStart_head c a E).
Qed.

Lemma append_empty a b : a +:+ b = "" → b = "".
Proof. destruct a; [by rewrite append_nil | by rewrite append_cons]. Qed.

Lemma trimEnd_app x b : b ≠ "" → Js.trimEnd b = b → Js.trimEnd (x +:+ b) = x +:+ b.
Proof.
  intros Hne E. induction x as [|c x IH].
  - by rewrite append_nil.
  - rewrite append_cons. simpl. rewrite IH.
    destruct (x +:+ b) eqn:Ex; [|done].
    by apply append_empty in Ex.
Qed.

Lemma trimStart_blank s : allWhiteSpace s = true → Js.trimStart s = "".
Proof.
  induction s as [|c s IH]; simpl; [done|].
  intros [Hc Hs]%andb_true_iff. rewrite Hc. by apply IH.
Qed.

Lemma append_assoc a b c : a +:+ b +:+ c = (a +:+ b) +:+ c.
Proof. induction a as [|x a IH]; [by rewrite !append_nil|]. by rewrite !append_cons, IH. Qed.

(** The lines of a chunk made of two parts joined by a line feed. *)
Lemma linesOf_joined a b :
  a ≠ "" → Js.trimStart a = a → b ≠ "" → Js.trimEnd b = b →
  linesOf (a +:+ newline +:+ b) = Js.split "010" a ++ Js.split "010" b.
Proof.
  intros Ha Hsa Hb Heb. unfold linesOf, Js.trim.
  rewrite trimStart_app by done.
  assert (Js.trimEnd (a +:+ newline +:+ b) = a +:+ newline +:+ b) as ->.
  { rewrite append_assoc. by apply trimEnd_app. }
  unfold newline. rewrite append_cons, append_nil. apply split_app.
Qed.

(** X17. A chunk of output is processed as its parts would be, one after
    the other, when the parts are joined by a line feed and neither starts
    nor ends with white space: the manager keeps nothing between lines but
    its state. *)
Theorem chunk_is_processed_part_by_part (a b : string) (m : Manager) :
  trimmed a → trimmed b →
  handleStockfishOutput (a +:+ newline +:+ b) m =
    handleStockfishOutput b (handleStockfishOutput a m).
Proof.
  intros (Ha & Hsa & Hea) (Hb & Hsb & Heb).
  unfold handleStockfishOutput at 1. fold (linesOf (a +:+ newline +:+ b)).
  rewrite linesOf_joined by done. rewrite foldl_app.
  unfold handleStockfishOutput, Js.trim. by rewrite Hsa, Hea, Hsb, Heb.
Qed.

Lemma chunk_is_processed_part_by_part_witness :
  handleStockfishOutput ("uciok" +:+ newline +:+ "readyok") constructor =
    handleStockfishOutput "readyok" (handleStockfishOutput "uciok" constructor).
Proof.
  apply chunk_is_processed_part_by_part; by split_and!.
Defined.

Lemma handleLine_unrecognised line m :
  unrecognised line → handleLine line m = log (console_log "Stockfish:" line) m.
Proof.
  intros (H1 & H2 & H3 & H4). unfold handleLine.
  by rewrite !bool_decide_eq_false_2, H3, H4 by done.
Qed.

(** X18. Output in which no line is "uciok" or "readyok" or starts with
    "bestmove" or "info" reaches the console, line by line, and nothing else:
    no field of the manager changes, nothing is written, emitted or settled.
    A chunk of white space only is one such line, the empty one. *)
Theorem unrecognised_output_is_only_logged (data : string) (m : Manager) :
  (Forall unrecognised (linesOf data) →
     handleStockfishOutput data m = logLines (linesOf data) m) ∧
  (allWhiteSpace data = true →
     handleStockfishOutput data m = log (console_log "Stockfish:" "") m).
Proof.
  split.
  - intros Hl. unfold handleStockfishOutput, logLines. fold (linesOf data).
    revert m. induction Hl as [|line lines Hline _ IH]; intros m; simpl; [done|].
    by rewrite handleLine_unrecognised, IH.
  - intros Hb. unfold handleStockfishOutput, Js.trim.
    by rewrite trimStart_blank.
Qed.

Lemma unrecognised_output_is_only_logged_witness :
  handleStockfishOutput ("Stockfish 16 by the Stockfish developers" +:+ newline +:+
                         "id name Stockfish 16") constructor =
    logLines ["Stockfish 16 by the Stockfish developers"; "id name Stockfish 16"] constructor.
Proof.
  destruct (unrecognised_output_is_only_logged
              ("Stockfish 16 by the Stockfish developers" +:+ newline +:+ "id name Stockfish 16")
              constructor) as [E _].
  apply E. by_compute.
Defined.

(** X19. Lines ended by carriage return and line feed: [trim] takes the
    carriage return off the last line of a chunk only, so a "uciok" or
    "readyok" followed by more output in the same chunk is compared with its
    carriage return on, and is not recognised: no "isready" is sent and the
    manager does not become ready, where the same line at the end of a chunk
    is recognised. *)
Theorem carriage_return_hides_handshake_lines (line rest : string) (m : Manager) :
  line = "uciok" ∨ line = "readyok" → trimmed rest →
  let cr := String "013" "" in
  handleStockfishOutput (line +:+ cr +:+ newline +:+ rest) m =
    handleStockfishOutput rest (log (console_log "Stockfish:" (line +:+ cr)) m) ∧
  handleStockfishOutput (line +:+ cr +:+ newline) m = handleLine line m.
Proof.
  intros Hline (Hr & Hsr & Her) cr. split.
  - unfold handleStockfishOutput at 1.
    fold (linesOf (line +:+ cr +:+ newline +:+ rest)).
    rewrite append_assoc.
    rewrite linesOf_joined; [|by destruct Hline as [-> | ->]..|done|done].
    rewrite foldl_app.
    unfold handleStockfishOutput, Js.trim. rewrite Hsr, Her.
    by destruct Hline as [-> | ->].
  - by destruct Hline as [-> | ->].
Qed.

Lemma carriage_return_hides_handshake_lines_witness :
  let cr := String "013" "" in
  let m := initialize "stockfish" true constructor in
  isReady (handleStockfishOutput ("readyok" +:+ cr +:+ newline +:+ "info string ok") m)
    = false ∧
  isReady (handleStockfishOutput ("readyok" +:+ cr +:+ newline) m) = true.
Proof.
  intros cr m.
  destruct (carriage_return_hides_handshake_lines "readyok" "info string ok" m) as [E1 E2];
    [by right | by split_and! |].
  fold cr in E1, E2. rewrite E1, E2. by split.
Defined.

(** ** What the updates carry *)

Lemma parseDigits_nonneg s : ∀ acc, 0 ≤ acc → 0 ≤ Js.parseDigits acc s.
Proof.
  induction s as [|c s IH]; intros acc Hacc; simpl; [done|].
  destruct (Js.isDigit c) eqn:Hd; [|done].
  apply IH. unfold Js.isDigit in Hd. apply bool_decide_eq_true in Hd.
  unfold Js.digitValue. lia.
Qed.

Lemma parseInt_digits s : 0 ≤ Js.parseInt (Js.digits s).
Proof.
  destruct s as [|c s]; simpl; [done|].
  destruct (Js.isDigit c) eqn:Hd; [|done].
  assert (c ≠ "-"%char) as Hc by (intros ->; discriminate).
  assert (Js.parseInt (String c (Js.digits s)) = Js.parseDigits 0 (String c (Js.digits s)))
    as ->.
  { unfold Js.parseInt. repeat case_match; simplify_eq; done. }
  by apply parseDigits_nonneg.
Qed.

Lemma matchNumber_unsigned s t : Js.matchNumber false s = Some t → t = Js.digits s.
Proof. unfold Js.matchNumber. intros H. repeat case_match; simplify_eq; done. Qed.

Lemma matchAfter_unfold kw signed s :
  Js.matchAfter kw signed s =
    match (if Js.startsWith s kw
           then Js.matchNumber signed (Js.slice (String.length kw) s) else None) with
    | Some m => Some m
    | None =>
        match s with
        | EmptyString => None
        | String _ s' => Js.matchAfter kw signed s'
        end
    end.
Proof. by destruct s. Qed.

(** What [/kw (\d+)/] captures is a numeral, and [parseInt] of it a number
    that is not negative. *)
Lemma matchAfter_unsigned kw s t : Js.matchAfter kw false s = Some t → 0 ≤ Js.parseInt t.
Proof.
  induction s as [|c s IH]; rewrite matchAfter_unfold.
  - destruct (Js.startsWith "" kw); [|done].
    destruct (Js.matchNumber false _) as [t'|] eqn:E; [|done].
    intros [= <-]. apply matchNumber_unsigned in E as ->. apply parseInt_digits.
  - destruct (Js.startsWith (String c s) kw); [|done].
    destruct (Js.matchNumber false _) as [t'|] eqn:E; [|done].
    intros [= <-]. apply matchNumber_unsigned in E as ->. apply parseInt_digits.
Qed.

Lemma fieldOf_parsed kw line : parsedField (fieldOf (Js.matchAfter kw false line)).
Proof.
  destruct (Js.matchAfter kw false line) as [t|] eqn:E; simpl; [|done].
  by eapply matchAfter_unsigned.
Qed.

Lemma withFields_parsed line o :
  hasDepthOrNodes line = true → parsedUpdate (ev_evaluation 0%nat (withFields line o)).
Proof.
  intros H. simpl. split_and!; try apply fieldOf_parsed.
  unfold hasDepthOrNodes in H. apply orb_true_iff in H as [H|H];
    apply bool_decide_eq_true in H as [t ->]; [by left | by right].
Qed.

Lemma parsedUpdate_handleInfoLine line m :
  Forall parsedUpdate (emitted m) → Forall parsedUpdate (emitted (handleInfoLine line m)).
Proof.
  intros Hm. rewrite handleInfoLine_steps. cbv zeta.
  set (m1 := match scoreOf line with Some (ty, v) => newEvaluation ty v m | None => m end).
  assert (emitted m1 = emitted m) as E1 by (unfold m1; by repeat case_match).
  destruct (currentEvaluation m1) as [r|]; [|by rewrite E1].
  destruct (hasDepthOrNodes line) eqn:Hl; [|by rewrite E1].
  rewrite emit_evaluation_emitted. simpl. rewrite E1.
  apply Forall_app. split; [done|].
  rewrite list_lookup_alter, decide_True by done.
  destruct (heap m1 !! r) as [o|]; simpl; [|done].
  constructor; [|done]. by apply (withFields_parsed line o).
Qed.

Lemma parsedUpdate_handleLine line m :
  Forall parsedUpdate (emitted m) → Forall parsedUpdate (emitted (handleLine line m)).
Proof.
  intros Hm. unfold handleLine. repeat case_match; try done.
  - by rewrite (frame_sendCommand emitted) by ign_tac.
  - rewrite (frame_processPendingCommands emitted) by ign_tac. simpl.
    apply Forall_app. split; [done|]. by constructor.
  - unfold handleBestMove. rewrite emit_bestmove_emitted.
    apply Forall_app. split; [|by constructor].
    destruct (moveTimeout _); [|done]. simpl.
    by rewrite (frame_clearTimeout emitted) by ign_tac.
  - by apply parsedUpdate_handleInfoLine.
Qed.

Lemma parsedUpdate_step a m :
  Forall parsedUpdate (emitted m) → Forall parsedUpdate (emitted (step a m)).
Proof.
  intros Hm. destruct a; simpl; try done.
  - unfold initialize. case_match.
    + simpl. apply Forall_app. split; [done|]. by constructor.
    + by rewrite (frame_sendCommand emitted) by ign_tac.
  - unfold handleStockfishOutput.
    apply (foldl_invariant (λ m', Forall parsedUpdate (emitted m'))); [|done].
    intros line m'. apply parsedUpdate_handleLine.
  - apply Forall_app. split; [done|]. by constructor.
  - by rewrite (frame_fireTimer emitted) by ign_tac.
  - by rewrite (frame_sendCommand emitted) by ign_tac.
  - by rewrite (frame_getBestMove emitted) by ign_tac.
  - by rewrite (frame_evaluatePosition emitted) by ign_tac.
  - by rewrite (frame_setSkillLevel emitted) by ign_tac.
  - by rewrite (frame_stop emitted) by ign_tac.
  - unfold quit. case_match; [|done]. simpl.
    by rewrite (frame_sendCommand emitted) by ign_tac.
Qed.

(** X20. Every 'evaluation' the manager fires carries an object whose
    [depth], [nodes] and [time] are each [null] or a number that is not
    negative, never [undefined] or [NaN], and whose [depth] or [nodes] is a
    number: [parseInt] is only applied to what [\d+] captured, and an update
    is fired only on a line with a depth or a node count. *)
Theorem updates_carry_parsed_fields (acts : list Action) :
  Forall parsedUpdate (emitted (run acts constructor)).
Proof.
  unfold run. apply (foldl_invariant (λ m, Forall parsedUpdate (emitted m))).
  - intros a m. apply parsedUpdate_step.
  - constructor.
Qed.

(** ** The host after shutdown *)

(** X21. After the host has shut the engine down (the window's 'closed' on
    a manager with a process), the manager is still the host's: the IPC
    handlers do not throw 'Stockfish not initialized'. A move or an
    evaluation asked for then is rejected with 'Stockfish not ready', a
    difficulty or a stop is dropped, and nothing more is written. *)
Theorem host_after_shutdown (m : Manager) (p : nat) (fen : string) (t : option Z)
    (level : Z) :
  stockfishProcess m = Some p →
  let host := Main.quitEngine (Some m) in
  let req := length (requests m) in
  (∃ m', Main.makeMove fen t host = inr (Some m') ∧
         outcome <$> requests m' !! req = Some (Rejected EngineNotReady) ∧
         stdin m' = stdin (quit m)) ∧
  (∃ m', Main.evaluate fen host = inr (Some m') ∧
         outcome <$> requests m' !! req = Some (Rejected EngineNotReady) ∧
         stdin m' = stdin (quit m)) ∧
  (∃ m', Main.setDifficulty level host = inr (Some m') ∧
         stdin m' = stdin (quit m) ∧ pendingCommands m' = pendingCommands (quit m)) ∧
  Main.stopEngine host = inr host.
Proof.
  intros Hp host req.
  assert (stockfishProcess (quit m) = None ∧ isReady (quit m) = false ∧
          requests (quit m) = requests m) as (Hq & Hr & Erq).
  { unfold quit. rewrite Hp. simpl. by rewrite (frame_sendCommand requests) by ign_tac. }
  split_and!.
  - eexists. split; [reflexivity|].
    rewrite getBestMove_not_ready by done. simpl. rewrite Erq. unfold req.
    by rewrite lookup_snoc.
  - eexists. split; [reflexivity|].
    rewrite evaluatePosition_not_ready by done. simpl. rewrite Erq. unfold req.
    by rewrite lookup_snoc.
  - eexists. split; [reflexivity|].
    unfold setSkillLevel. case_match.
    + rewrite !sendCommand_no_process; [done | done |]. by rewrite sendCommand_no_process.
    + by rewrite sendCommand_no_process.
  - simpl. unfold stop. by rewrite Hq.
Qed.

Lemma host_after_shutdown_witness :
  let m := run [a_initialize "stockfish" true; a_stdout "uciok"; a_stdout "readyok"] constructor in
  Main.stopEngine (Main.quitEngine (Some m)) = inr (Main.quitEngine (Some m)).
Proof.
  intros m.
  by destruct (host_after_shutdown m 0%nat "startpos" None 5 eq_refl) as (_ & _ & _ & E).
Defined.

(** ** Overlapping best-move requests *)

(** X22. The manager has one slot, [moveTimeout], for the timer of
    [getBestMove]. A second call made before the answer to the first takes
    the slot over; the next best-move line resolves both promises and clears
    the timer of the second call only. The timer of the first call stays
    armed, and when it fires, "stop" is written to the engine although the
    request it belonged to was answered, whose outcome is as it was. *)
Theorem overlapping_request_leaves_its_timer (m : Manager) (p : nat)
    (fen1 fen2 : string) (t1 t2 : option Z) (line : string) :
  stockfishProcess m = Some p → isReady m = true → wellFormed m →
  Js.startsWith line "bestmove" = true →
  let h := length (timers m) in
  let req := length (requests m) in
  let m2 := handleLine line (getBestMove fen2 t2 (getBestMove fen1 t1 m)) in
  let m3 := fireTimer h m2 in
  let answer := Resolved (MoveData (Js.split " " line !! 1%nat) (currentEvaluation m)) in
  outcome <$> requests m2 !! req = Some answer ∧
  timers m2 !! h = Some {| delay := default 1000 t1 + 1000; request := req; status := Armed |} ∧
  stdin m3 = stdin m2 ++ [written p "stop"] ∧
  outcome <$> requests m3 !! req = Some answer.
Proof.
  intros Hp Hr Hwf Hline h req m2 m3 answer.
  set (ma := getBestMove fen1 t1 m).
  set (mb := getBestMove fen2 t2 ma).
  destruct (getBestMove_expecting fen1 t1 m Hr Hwf) as [(Hwa & Hina & Honlya) _].
  fold ma h req in Hwa, Hina, Honlya.
  assert (wellFormed ma) as Hwfa by apply (wellFormed_step (a_getBestMove fen1 t1) m Hwf).
  assert (isReady ma = true) as Hra
    by (unfold ma; by rewrite (frame_getBestMove isReady) by ign_tac).
  destruct (awaiting_in_range _ _ _ _ Hwa) as [Hreq Hh].
  destruct (getBestMove_awaiting fen2 t2 ma Hra Hwfa) as [Hslot _]. fold mb in Hslot.
  pose proof (awaiting_getBestMove h req _ fen2 t2 ma Hwa) as Hwb. fold mb in Hwb.
  destruct Hwb as (Htb & Hob & _).
  assert (onBestmove mb = onBestmove ma ++ [moveHandler (length (requests ma))]) as Elb.
  { unfold mb, getBestMove, newPromise, setTimeout. simpl. rewrite Hra. simpl.
    by rewrite !(frame_sendCommand onBestmove) by ign_tac. }
  assert (currentEvaluation mb = currentEvaluation m ∧ stockfishProcess mb = Some p ∧
          isReady mb = true) as (Ec & Epb & Erb).
  { unfold mb, ma.
    by rewrite !(frame_getBestMove currentEvaluation), !(frame_getBestMove stockfishProcess),
      !(frame_getBestMove isReady) by ign_tac. }
  set (mb' := log (console_log "Stockfish:" line) mb).
  assert (m2 = handleBestMove line mb') as E2.
  { unfold m2. fold ma. fold mb. by rewrite handleLine_bestmove. }
  assert (outcome <$> requests m2 !! req = Some answer) as Ho2.
  { rewrite E2. unfold handleBestMove, emit_bestmove.
    change (moveTimeout mb') with (moveTimeout mb). rewrite Hslot.
    assert (currentEvaluation (set_moveTimeout None (clearTimeout (length (timers ma)) mb')) =
            currentEvaluation m) as ->.
    { simpl. by rewrite (frame_clearTimeout currentEvaluation) by ign_tac. }
    apply bestmove_listeners_expecting.
    - simpl. rewrite (frame_clearTimeout onBestmove) by ign_tac.
      change (onBestmove mb') with (onBestmove mb). rewrite Elb.
      intros l [Hl | ->%list_elem_of_singleton]%elem_of_app Hlr; [by apply Honlya|].
      simpl in Hlr. lia.
    - simpl. rewrite (frame_clearTimeout onBestmove) by ign_tac.
      change (onBestmove mb') with (onBestmove mb). rewrite Elb.
      apply elem_of_app. by left.
    - simpl. by rewrite (frame_clearTimeout requests) by ign_tac. }
  assert (timers m2 !! h =
          Some {| delay := default 1000 t1 + 1000; request := req; status := Armed |}) as Ht2.
  { rewrite E2. destruct (handleBestMove_timer line mb') as (_ & _ & Hothers).
    rewrite Hothers; [done|].
    change (moveTimeout mb') with (moveTimeout mb). rewrite Hslot. intros [= E]. lia. }
  split_and!; [done | done | |].
  - unfold m3, fireTimer. rewrite Ht2. simpl.
    rewrite (frame_reject stdin) by ign_tac.
    rewrite (sendCommand_writes _ _ p); [done | |].
    + simpl. rewrite E2. by rewrite (frame_handleBestMove stockfishProcess) by ign_tac.
    + left. simpl. rewrite E2. by rewrite (frame_handleBestMove isReady) by ign_tac.
  - apply (keepsOutcomes_step (a_timer h) m2); done.
Qed.

Lemma overlapping_request_leaves_its_timer_witness :
  let m := run [a_initialize "stockfish" true; a_stdout "uciok"; a_stdout "readyok"] constructor in
  let m2 := handleLine "bestmove e2e4"
              (getBestMove "startpos" (Some 500) (getBestMove "startpos" None m)) in
  stdin (fireTimer 0 m2) = stdin m2 ++ [written 0 "stop"].
Proof.
  intros m m2.
  assert (wellFormed m) as Hwf by apply wellFormed_run, wellFormed_constructor.
  by destruct (overlapping_request_leaves_its_timer m 0%nat "startpos" "startpos" None
                 (Some 500) "bestmove e2e4" eq_refl eq_refl Hwf eq_refl) as (_ & _ & E & _).
Defined.

(** ** The console and the writes *)

Lemma logged_frame m m' : stdin m' = stdin m → console m' = console m → logged m → logged m'.
Proof. intros E1 E2. unfold logged. by rewrite E1, E2. Qed.

Lemma logged_log e m : sentCommand e = None → logged m → logged (log e m).
Proof.
  intros He Hm. unfold logged, log. simpl.
  rewrite omap_app. simpl. rewrite He. by rewrite app_nil_r.
Qed.

Lemma logged_sendCommand command m : logged m → logged (sendCommand command m).
Proof.
  intros Hm. unfold sendCommand.
  destruct (stockfishProcess m) as [p|]; [|by apply logged_log].
  case_match; [done|].
  unfold logged, stdin_write, log in *. simpl.
  rewrite fmap_app, omap_app, fmap_app, Hm. done.
Qed.

Lemma logged_processPendingCommands_loop fuel : ∀ m,
  logged m → logged (processPendingCommands_loop fuel m).
Proof.
  induction fuel as [|fuel IH]; intros m Hm; simpl; [done|].
  destruct (pendingCommands m) as [|command rest]; [done|].
  by apply IH, logged_sendCommand.
Qed.

Lemma logged_handleLine line m : logged m → logged (handleLine line m).
Proof.
  intros Hm. unfold handleLine.
  set (m0 := log (console_log "Stockfish:" line) m).
  assert (logged m0) as H0 by by apply logged_log.
  repeat case_match; try done.
  - by apply logged_sendCommand.
  - by apply logged_processPendingCommands_loop.
  - revert H0. apply logged_frame; by rewrite frame_handleBestMove by ign_tac.
  - revert H0. apply logged_frame; by rewrite frame_handleInfoLine by ign_tac.
Qed.

Lemma logged_step a m : logged m → logged (step a m).
Proof.
  intros Hm. destruct a; simpl.
  - unfold initialize. case_match; [done|].
    apply logged_sendCommand.
    by apply (logged_log (console_log "Starting Stockfish:" stockfishPath)) in Hm.
  - unfold handleStockfishOutput. apply foldl_invariant; [|done].
    intros line m'. apply logged_handleLine.
  - by apply logged_log.
  - by apply (logged_log (console_log_code "Stockfish process closed with code:" code)) in Hm.
  - by apply (logged_log (console_error "Stockfish process error:" (Some msg))) in Hm.
  - unfold fireTimer. destruct (timers m !! h) as [t|]; [|done].
    destruct (status t); try done.
    set (m1 := set_timers _ m).
    assert (logged (sendCommand "stop" m1)) as H1 by by apply logged_sendCommand.
    revert H1. apply logged_frame; by rewrite frame_reject by ign_tac.
  - by apply logged_sendCommand.
  - unfold getBestMove, newPromise, setTimeout. simpl. case_match.
    + revert Hm. apply logged_frame; by rewrite frame_reject by ign_tac.
    + by do 2 apply logged_sendCommand.
  - unfold evaluatePosition, newPromise. simpl. case_match.
    + revert Hm. apply logged_frame; by rewrite frame_reject by ign_tac.
    + by do 2 apply logged_sendCommand.
  - unfold setSkillLevel. case_match; repeat apply logged_sendCommand; done.
  - unfold stop. case_match; [by apply logged_sendCommand | done].
  - unfold quit. case_match; [|done].
    by apply (logged_sendCommand "quit") in Hm.
Qed.

(** X23. The console accounts for every write: in every state a manager
    reaches, what was written to the engine processes is, in order, the
    commands of the console lines 'Sending to Stockfish:', each followed by
    one line feed. Nothing is written unlogged, and no command is logged as
    sent that was queued or dropped. *)
Theorem every_write_is_logged (acts : list Action) :
  let m := run acts constructor in
  snd <$> stdin m = (λ command, command +:+ newline) <$> omap sentCommand (console m).
Proof.
  intros m. change (logged m). unfold m, run. apply (foldl_invariant logged); [|done].
  intros a m'. apply logged_step.
Qed.

(** ** Listeners do not pile up *)








(** ** A standard info line *)

Lemma pretty_N_char_digit x :
  (x < 10)%N → Js.isDigit (pretty_N_char x) = true ∧ Js.digitValue (pretty_N_char x) = Z.of_N x.
Proof.
  intros Hx.
  assert (x = 0 ∨ x = 1 ∨ x = 2 ∨ x = 3 ∨ x = 4 ∨ x = 5 ∨ x = 6 ∨ x = 7 ∨ x = 8 ∨ x = 9)%N
    as H by lia.
  repeat (destruct H as [-> | H]; [by vm_compute|]). subst. by vm_compute.
Qed.

Lemma allDigits_pretty_N_go x : ∀ s, allDigits s = true → allDigits (pretty_N_go x s) = true.
Proof.
  induction (N.lt_wf_0 x) as [x _ IH]; intros s Hs.
  assert (x = 0 ∨ 0 < x)%N as [-> | Hx] by lia; [by rewrite pretty_N_go_0|].
  rewrite pretty_N_go_step by done. apply IH; [by apply N.div_lt|].
  simpl. rewrite Hs.
  by destruct (pretty_N_char_digit (x `mod` 10)) as [-> _]; [by apply N.mod_lt|].
Qed.

Lemma parseDigits_shift s : ∀ acc,
  allDigits s = true →
  Js.parseDigits acc s = acc * 10 ^ Z.of_nat (String.length s) + Js.parseDigits 0 s.
Proof.
  induction s as [|c s IH]; intros acc Hs; simpl in *; [lia|].
  apply andb_true_iff in Hs as [Hc Hs]. rewrite Hc.
  rewrite (IH (10 * acc + Js.digitValue c)), (IH (10 * 0 + Js.digitValue c)) by done.
  rewrite Nat2Z.inj_succ, Z.pow_succ_r by lia. lia.
Qed.

Lemma parseDigits_pretty_N_go x : ∀ s,
  allDigits s = true →
  Js.parseDigits 0 (pretty_N_go x s) =
    Z.of_N x * 10 ^ Z.of_nat (String.length s) + Js.parseDigits 0 s.
Proof.
  induction (N.lt_wf_0 x) as [x _ IH]; intros s Hs.
  assert (x = 0 ∨ 0 < x)%N as [-> | Hx] by lia; [by rewrite pretty_N_go_0|].
  rewrite pretty_N_go_step by done.
  destruct (pretty_N_char_digit (x `mod` 10)) as [Hd Hv]; [by apply N.mod_lt|].
  rewrite IH; [|by apply N.div_lt | by simpl; rewrite Hd, Hs].
  simpl. rewrite Hd. rewrite (parseDigits_shift s (10 * 0 + _)) by done.
  rewrite Hv. rewrite Nat2Z.inj_succ, Z.pow_succ_r by lia.
  rewrite N2Z.inj_div, N2Z.inj_mod. simpl Z.of_N.
  pose proof (Z.div_mod (Z.of_N x) 10). lia.
Qed.

Lemma pretty_N_go_length x : ∀ s,
  (String.length s ≤ String.length (pretty_N_go x s))%nat.
Proof.
  induction (N.lt_wf_0 x) as [x _ IH]; intros s.
  assert (x = 0 ∨ 0 < x)%N as [-> | Hx] by lia; [by rewrite pretty_N_go_0|].
  rewrite pretty_N_go_step by done.
  etrans; [|apply IH; by apply N.div_lt]. simpl. lia.
Qed.

Lemma pretty_N_numeral (x : N) :
  isNumeral (pretty x) ∧ Js.parseDigits 0 (pretty x) = Z.of_N x.
Proof.
  unfold isNumeral, pretty, pretty_N. case_decide as Hx; [subst; by split_and!|].
  split_and!.
  - assert (0 < x)%N as Hpos by lia.
    rewrite pretty_N_go_step by done. intros E.
    pose proof (pretty_N_go_length (x `div` 10) (String (pretty_N_char (x `mod` 10)) ""))
      as Hlen.
    rewrite E in Hlen. simpl in Hlen. lia.
  - by apply allDigits_pretty_N_go.
  - rewrite parseDigits_pretty_N_go by done. simpl. lia.
Qed.

Lemma numeral_head s : isNumeral s → ∃ c s', s = String c s' ∧ Js.isDigit c = true.
Proof.
  intros [Hne Hd]. destruct s as [|c s']; [done|].
  simpl in Hd. apply andb_true_iff in Hd as [Hc _]. by exists c, s'.
Qed.

Lemma parseInt_numeral s : isNumeral s → Js.parseInt s = Js.parseDigits 0 s.
Proof.
  intros (c & s' & -> & Hc)%numeral_head.
  assert (c ≠ "-"%char) as Hne by (intros ->; discriminate).
  unfold Js.parseInt. repeat case_match; simplify_eq; done.
Qed.

Lemma pretty_Z_unsigned (z : Z) :
  safeNatural z → isNumeral (pretty z) ∧ Js.parseInt (pretty z) = z.
Proof.
  intros [Hz _]. destruct z as [|p|p]; [by split_and! | | lia].
  change (pretty (Z.pos p)) with (pretty (N.pos p)).
  destruct (pretty_N_numeral (N.pos p)) as [Hn Hv].
  split; [done|]. by rewrite parseInt_numeral.
Qed.

Lemma pretty_Z_signed (z : Z) :
  safeInteger z → isSignedNumeral (pretty z) ∧ Js.parseInt (pretty z) = z.
Proof.
  intros Hsafe. destruct (decide (0 ≤ z)) as [Hz|Hz].
  - destruct (pretty_Z_unsigned z) as [Hn Hv]; [|split; [by left | done]].
    unfold safeInteger in Hsafe. unfold safeNatural. lia.
  - destruct z as [|p|p]; [lia | lia |].
    change (pretty (Z.neg p)) with ("-" +:+ pretty (N.pos p)).
    destruct (pretty_N_numeral (N.pos p)) as [Hn Hv].
    rewrite append_cons, append_nil. split.
    + right. by eexists.
    + simpl. rewrite Hv. done.
Qed.

Lemma digits_app ds rest :
  allDigits ds = true → Js.digits rest = "" → Js.digits (ds +:+ rest) = ds.
Proof.
  intros Hd Hr. induction ds as [|c ds IH]; [by rewrite append_nil|].
  simpl in Hd. apply andb_true_iff in Hd as [Hc Hd].
  rewrite append_cons. simpl. by rewrite Hc, IH.
Qed.

Lemma matchNumber_numeral signed ds rest :
  isNumeral ds → Js.digits rest = "" → Js.matchNumber signed (ds +:+ rest) = Some ds.
Proof.
  intros Hn Hr. pose proof Hn as (c & s' & -> & Hc)%numeral_head.
  destruct Hn as [_ Hd].
  assert (c ≠ "-"%char) as Hne by (intros ->; discriminate).
  pose proof (digits_app _ _ Hd Hr) as E. rewrite append_cons in *.
  unfold Js.matchNumber. rewrite E. repeat case_match; simplify_eq; done.
Qed.

Lemma matchNumber_signed v rest :
  isSignedNumeral v → Js.digits rest = "" → Js.matchNumber true (v +:+ rest) = Some v.
Proof.
  intros [Hn | (ds & -> & Hn)] Hr; [by apply matchNumber_numeral|].
  destruct Hn as [Hne Hd].
  rewrite append_cons. change (Js.matchNumber true (String "-" (ds +:+ rest)))
    with (match Js.digits (ds +:+ rest) with
          | EmptyString => None
          | ds' => Some (String "-" ds')
          end).
  rewrite (digits_app _ _ Hd Hr). by destruct ds.
Qed.

Lemma startsWith_prefix p x : Js.startsWith (p +:+ x) p = true.
Proof.
  induction p as [|c p IH]; [by destruct x|].
  rewrite append_cons. simpl. by rewrite decide_True.
Qed.

Lemma slice_prefix p x : Js.slice (String.length p) (p +:+ x) = x.
Proof. induction p as [|c p IH]; [by destruct x | by rewrite append_cons]. Qed.

Lemma matchAfter_here kw signed num rest :
  Js.matchNumber signed (num +:+ rest) = Some num →
  Js.matchAfter kw signed (kw +:+ num +:+ rest) = Some num.
Proof. intros H. by rewrite matchAfter_unfold, startsWith_prefix, slice_prefix, H. Qed.

Lemma matchAfter_skip kw signed c s :
  Js.startsWith (String c s) kw = false →
  Js.matchAfter kw signed (String c s) = Js.matchAfter kw signed s.
Proof. intros H. by rewrite matchAfter_unfold, H. Qed.

Lemma matchAfter_skip_digits k kw signed ds x :
  Js.isDigit k = false → allDigits ds = true →
  Js.matchAfter (String k kw) signed (ds +:+ x) = Js.matchAfter (String k kw) signed x.
Proof.
  intros Hk Hd. induction ds as [|c ds IH]; [by rewrite append_nil|].
  simpl in Hd. apply andb_true_iff in Hd as [Hc Hd].
  rewrite append_cons, matchAfter_skip; [by apply IH|].
  simpl. rewrite decide_False; [done|]. intros ->. congruence.
Qed.

Lemma matchAfter_skip_signed k kw signed v x :
  Js.isDigit k = false → k ≠ "-"%char → isSignedNumeral v →
  Js.matchAfter (String k kw) signed (v +:+ x) = Js.matchAfter (String k kw) signed x.
Proof.
  intros Hk Hm [[_ Hd] | (ds & -> & [_ Hd])]; [by apply matchAfter_skip_digits|].
  rewrite append_cons, matchAfter_skip; [by apply matchAfter_skip_digits|].
  simpl. by rewrite decide_False.
Qed.

Lemma includes_unfold s p :
  Js.includes s p =
    Js.startsWith s p || match s with EmptyString => false | String _ s' => Js.includes s' p end.
Proof. by destruct s. Qed.

Lemma includes_app a s p : Js.includes s p = true → Js.includes (a +:+ s) p = true.
Proof.
  intros H. induction a as [|c a IH]; [by rewrite append_nil|].
  rewrite append_cons, includes_unfold, IH. apply orb_true_r.
Qed.

Lemma includes_here p x : Js.includes (p +:+ x) p = true.
Proof. by rewrite includes_unfold, startsWith_prefix. Qed.

(** The captures on a line in the format the engine prints. *)
Lemma standard_line_captures d sd pv v n nps hf tb t tail :
  isNumeral d → isNumeral sd → isNumeral pv → isSignedNumeral v → isNumeral n →
  isNumeral nps → isNumeral hf → isNumeral tb → isNumeral t → Js.digits tail = "" →
  let line := "info depth " +:+ d +:+ " seldepth " +:+ sd +:+ " multipv " +:+ pv +:+
              " score cp " +:+ v +:+ " nodes " +:+ n +:+ " nps " +:+ nps +:+
              " hashfull " +:+ hf +:+ " tbhits " +:+ tb +:+ " time " +:+ t +:+ tail in
  Js.includes line "cp " = true ∧
  Js.matchAfter "cp " true line = Some v ∧
  Js.matchAfter "depth " false line = Some d ∧
  Js.matchAfter "nodes " false line = Some n ∧
  Js.matchAfter "time " false line = Some t.
Proof.
  intros Hd Hsd Hpv Hv Hn Hnps Hhf Htb Ht Htail line. unfold line.
  pose proof Hd as [_ Hd']. pose proof Hsd as [_ Hsd']. pose proof Hpv as [_ Hpv'].
  pose proof Hn as [_ Hn']. pose proof Hnps as [_ Hnps']. pose proof Hhf as [_ Hhf'].
  pose proof Htb as [_ Htb'].
  split_and!.
  - apply (includes_app "info depth "), includes_app, (includes_app " seldepth "),
      includes_app, (includes_app " multipv "), includes_app, (includes_app " score ").
    apply (includes_here "cp ").
  - rewrite ?append_cons, ?append_nil.
    repeat first [ rewrite matchAfter_skip by reflexivity
                 | rewrite matchAfter_skip_digits by done ].
    apply (matchAfter_here "cp " true v). by apply matchNumber_signed.
  - rewrite ?append_cons, ?append_nil.
    repeat rewrite matchAfter_skip by reflexivity.
    apply (matchAfter_here "depth " false d). by apply matchNumber_numeral.
  - rewrite ?append_cons, ?append_nil.
    repeat first [ rewrite matchAfter_skip by reflexivity
                 | rewrite matchAfter_skip_digits by done
                 | rewrite matchAfter_skip_signed by done ].
    apply (matchAfter_here "nodes " false n). by apply matchNumber_numeral.
  - rewrite ?append_cons, ?append_nil.
    repeat first [ rewrite matchAfter_skip by reflexivity
                 | rewrite matchAfter_skip_digits by done
                 | rewrite matchAfter_skip_signed by done ].
    apply (matchAfter_here "time " false t). by apply matchNumber_numeral.
Qed.

Lemma alter_snoc {X} (f : X → X) (l : list X) (x : X) :
  alter f (length l) (l ++ [x]) = l ++ [f x].
Proof. induction l as [|y l IH]; [done|]. simpl. by rewrite <- IH. Qed.

Lemma digits_tail tail : tail = "" ∨ Js.startsWith tail " " = true → Js.digits tail = "".
Proof.
  intros [-> | H]; [done|]. destruct tail as [|c tail]; [done|].
  simpl in H. case_decide; [|done]. by subst.
Qed.

(** X25. A line in the format the engine prints,
    "info depth D seldepth S multipv P score cp V nodes N nps R hashfull H
    tbhits B time T" followed by nothing or by a blank and anything, the
    numbers in decimal, each below 2^53 in magnitude and all but V not
    negative: [handleInfoLine] makes a new evaluation
    { type: 'centipawn', value: V, depth: D, nodes: N, time: T }, the numbers
    read back exactly (the depth from "depth", not from "seldepth"), makes it
    current and fires it once. *)
Theorem standard_info_line_is_parsed (m : Manager) (d sd pv v n nps hf tb t : Z)
    (tail : string) :
  Forall safeNatural [d; sd; pv; n; nps; hf; tb; t] → safeInteger v →
  tail = "" ∨ Js.startsWith tail " " = true →
  let line := "info depth " +:+ pretty d +:+ " seldepth " +:+ pretty sd +:+
              " multipv " +:+ pretty pv +:+ " score cp " +:+ pretty v +:+
              " nodes " +:+ pretty n +:+ " nps " +:+ pretty nps +:+
              " hashfull " +:+ pretty hf +:+ " tbhits " +:+ pretty tb +:+
              " time " +:+ pretty t +:+ tail in
  let o := {| ev_type := centipawn; ev_value := v; ev_depth := num d;
              ev_nodes := num n; ev_time := num t |} in
  let m' := handleInfoLine line m in
  currentEvaluation m' = Some (length (heap m)) ∧
  heap m' = heap m ++ [o] ∧
  emitted m' = emitted m ++ [ev_evaluation (length (heap m)) o].
Proof.
  intros Hnat Hv Htail line o m'.
  assert (safeNatural d ∧ safeNatural sd ∧ safeNatural pv ∧ safeNatural n ∧
          safeNatural nps ∧ safeNatural hf ∧ safeNatural tb ∧ safeNatural t)
    as (Hd & Hsd & Hpv & Hn & Hnps & Hhf & Htb & Ht).
  { repeat (apply Forall_cons in Hnat as [? Hnat]). by split_and!. }
  destruct (pretty_Z_unsigned d Hd) as [Nd Pd].
  destruct (pretty_Z_unsigned sd Hsd) as [Nsd _].
  destruct (pretty_Z_unsigned pv Hpv) as [Npv _].
  destruct (pretty_Z_signed v Hv) as [Nv Pv].
  destruct (pretty_Z_unsigned n Hn) as [Nn Pn].
  destruct (pretty_Z_unsigned nps Hnps) as [Nnps _].
  destruct (pretty_Z_unsigned hf Hhf) as [Nhf _].
  destruct (pretty_Z_unsigned tb Htb) as [Ntb _].
  destruct (pretty_Z_unsigned t Ht) as [Nt Pt].
  destruct (standard_line_captures _ _ _ _ _ _ _ _ _ tail Nd Nsd Npv Nv Nn Nnps Nhf Ntb Nt
              (digits_tail tail Htail)) as (Hinc & Hcp & Hdepth & Hnodes & Htime).
  fold line in Hinc, Hcp, Hdepth, Hnodes, Htime. clearbody line.
  assert (scoreOf line = Some (centipawn, v)) as Hscore.
  { unfold scoreOf. rewrite Hinc, Hcp. simpl. by rewrite Pv. }
  assert (hasDepthOrNodes line = true) as Hhas.
  { unfold hasDepthOrNodes. rewrite Hdepth. by rewrite bool_decide_eq_true_2. }
  assert (∀ o0, withFields line o0 =
                {| ev_type := ev_type o0; ev_value := ev_value o0; ev_depth := num d;
                   ev_nodes := num n; ev_time := num t |}) as Hfields.
  { intros o0. unfold withFields. rewrite Hdepth, Hnodes, Htime. simpl.
    by rewrite Pd, Pn, Pt. }
  unfold m'. rewrite handleInfoLine_steps, Hscore. cbv zeta.
  change (currentEvaluation (newEvaluation centipawn v m)) with (Some (length (heap m))).
  cbv iota beta. rewrite Hhas.
  rewrite (frame_emit_evaluation currentEvaluation), (frame_emit_evaluation heap) by ign_tac.
  rewrite emit_evaluation_emitted. simpl.
  rewrite alter_snoc, Hfields, lookup_snoc. done.
Qed.

Lemma standard_info_line_is_parsed_witness :
  let line := "info depth 12 seldepth 18 multipv 1 score cp -35 nodes 52034 nps 867233 " +:+
              "hashfull 0 tbhits 0 time 60 pv e2e4 e7e5" in
  heap (handleInfoLine line constructor) =
    [{| ev_type := centipawn; ev_value := -35; ev_depth := num 12; ev_nodes := num 52034;
        ev_time := num 60 |}].
Proof.
  assert (Forall safeNatural [12; 18; 1; 52034; 867233; 0; 0; 60]) as Hnat by by_compute.
  assert (safeInteger (-35)) as Hv by by_compute.
  destruct (standard_info_line_is_parsed constructor 12 18 1 (-35) 52034 867233 0 0 60
              " pv e2e4 e7e5" Hnat Hv) as (_ & E & _); [by right|].
  exact E.
Defined.
